(** * Carbon-aware VM scheduler: a shallow embedding of [scheduler.py]

    The development follows the layout of the Python sources:

    - Python values used by the scheduler (exceptions, floats, dictionaries);
    - the region catalog and the carbon-signal translation
      ([get_gco2_range_for_region], [percentile_to_gco2], [gco2_to_moer]);
    - the scheduling policy ([azure_schedule_decision],
      [aws_schedule_decision] and their helpers);
    - the carbon client ([WattTime.get_current]) and [get_region_percentiles];
    - the control loop of [main]: one pass of the [while True] body is
      [tick], written in a state-and-exception monad whose state carries the
      variables of [main] and the list of external calls made so far.

    Numbers.  A Python float is modelled by the rational it denotes, or by
    one of the three IEEE special values ([pyfloat]).  Comparisons, and
    every operation with an infinite or NaN operand, are as in IEEE
    arithmetic.  A sum or product of two finite values is the exact one,
    where the code gets the double nearest to it: the model does not
    round, underflow or overflow.  What is stated of the program therefore
    uses the arithmetic on finite values only for what rounding to nearest
    preserves (that a result is not NaN, and the weak order of results) or
    through special values, and never needs a sum, a product or the
    quotient [percentile / 100] to be exact; lemmas about the exact
    operations only serve the proofs.  A percentile is taken
    to be a number within the range of a double (the service gives 0 to
    100), so that the quotient exists.  [scipy.stats.norm.ppf]
    is not part of the repository: it is a parameter [ppf] of the
    development, [ppf q] standing for its value at the double nearest to
    [q], and what a statement needs of it is among its hypotheses.

    Configuration.  Jobs and VMs are records with the fields the code
    reads: an entry of [schedule.json] is taken to carry them, so a
    missing key in an entry is outside the model.  Likewise a response is
    its status and the percentile that its body carries. *)

From Stdlib Require Import String List ZArith QArith Bool Lia Lqa.
Import ListNotations.
Open Scope string_scope.
Open Scope list_scope.
Open Scope Z_scope.

Set Implicit Arguments.

(* ================================================================== *)
(** * Python values *)
(* ================================================================== *)

(** The exceptions the scheduler can raise from its own control flow. *)
Inductive exn : Type :=
| IndexError      (* [l[0]] on an empty list *)
| TypeError       (* subscripting [None] *)
| ValueError      (* [list.remove(x)] with [x] absent *)
| KeyError        (* [d[k]] with [k] absent *)
| AttributeError  (* attribute access on [None] *)
| NameError       (* reading a local that was never assigned *)
| HTTPError       (* [Response.raise_for_status] *)
| OutOfFuel.      (* not a Python exception: a loop of the embedding ran
                     out of fuel; [tick_fuel] shows [tick] never does *)

Inductive result (A : Type) : Type :=
| Ok (a : A)
| Raise (e : exn).
Arguments Raise {A} e.

Definition rbind {A B} (r : result A) (k : A -> result B) : result B :=
  match r with
  | Ok a => k a
  | Raise e => Raise e
  end.

Fixpoint rmap {A B} (f : A -> result B) (l : list A) : result (list B) :=
  match l with
  | [] => Ok []
  | x :: l' =>
      rbind (f x) (fun y => rbind (rmap f l') (fun ys => Ok (y :: ys)))
  end.

(** ** Floats *)

Inductive pyfloat : Type :=
| NegInf
| Fin (q : Q)
| PosInf
| NaN.

Definition is_finite (x : pyfloat) : bool :=
  match x with Fin _ => true | _ => false end.

Definition Qltb (a b : Q) : bool := negb (Qle_bool b a).

(** [x + y]; on finite values the exact sum, which the code rounds. *)
Definition fadd (x y : pyfloat) : pyfloat :=
  match x, y with
  | NaN, _ | _, NaN => NaN
  | Fin a, Fin b => Fin (a + b)
  | NegInf, PosInf | PosInf, NegInf => NaN
  | NegInf, _ | _, NegInf => NegInf
  | PosInf, _ | _, PosInf => PosInf
  end.

(** The sign of a rational, as a comparison with zero. *)
Definition Qsign (a : Q) : comparison := (0 ?= a)%Q.

Definition finf_mul (positive_inf : bool) (a : Q) : pyfloat :=
  match Qsign a with
  | Eq => NaN
  | Lt => if positive_inf then PosInf else NegInf
  | Gt => if positive_inf then NegInf else PosInf
  end.

(** [x * y]; on finite values the exact product, which the code rounds. *)
Definition fmul (x y : pyfloat) : pyfloat :=
  match x, y with
  | NaN, _ | _, NaN => NaN
  | Fin a, Fin b => Fin (a * b)
  | PosInf, Fin b => finf_mul true b
  | NegInf, Fin b => finf_mul false b
  | Fin a, PosInf => finf_mul true a
  | Fin a, NegInf => finf_mul false a
  | PosInf, PosInf | NegInf, NegInf => PosInf
  | PosInf, NegInf | NegInf, PosInf => NegInf
  end.

(** [x < y]; every comparison with NaN is false. *)
Definition flt (x y : pyfloat) : bool :=
  match x, y with
  | NaN, _ | _, NaN => false
  | Fin a, Fin b => Qltb a b
  | NegInf, NegInf | PosInf, PosInf => false
  | NegInf, _ => true
  | _, PosInf => true
  | _, _ => false
  end.

(** [x <= y] *)
Definition fle (x y : pyfloat) : bool :=
  match x, y with
  | NaN, _ | _, NaN => false
  | Fin a, Fin b => Qle_bool a b
  | NegInf, _ => true
  | _, PosInf => true
  | _, _ => false
  end.

(** [s in l] for a list of strings. *)
Definition str_in (s : string) (l : list string) : bool :=
  existsb (String.eqb s) l.

(** [a == b] where either side may be [None]. *)
Definition opt_str_eqb (a b : option string) : bool :=
  match a, b with
  | Some x, Some y => String.eqb x y
  | None, None => true
  | _, _ => false
  end.

(* ================================================================== *)
(** * Region catalog *)
(* ================================================================== *)

Definition AZURE_LOCATIONS : list string := ["PJM_ROANOKE"; "FR"].
Definition AWS_LOCATIONS : list string := ["PJM_SOUTHWEST_OH"; "SE"].
Definition SHARED_LOCATIONS : list string := ["CAISO_NORTH"; "UK"].

(** An entry of [MIN_MAX_GCO2]. *)
Record gco2_range : Type := mk_range {
  range_region : string;
  range_min : Z;
  range_max : Z
}.

Definition MIN_MAX_GCO2 : list gco2_range :=
  [ mk_range "CAISO_NORTH" 54 263;
    mk_range "UK" 147 319;
    mk_range "PJM_ROANOKE" 360 432;
    mk_range "PJM_SOUTHWEST_OH" 360 432;
    mk_range "FR" 17 54;
    mk_range "SE" 18 28 ].

Definition map_azure_location (location : string) : option string :=
  if (location =? "CAISO_NORTH")%string then Some "West US"
  else if (location =? "UK")%string then Some "UK South"
  else if (location =? "PJM_ROANOKE")%string then Some "East US"
  else if (location =? "FR")%string then Some "France Central"
  else None.

Definition map_aws_location (location : string) : option string :=
  if (location =? "CAISO_NORTH")%string then Some "us-west-1"
  else if (location =? "UK")%string then Some "eu-west-2"
  else if (location =? "PJM_SOUTHWEST_OH")%string then Some "us-east-2"
  else if (location =? "SE")%string then Some "eu-north-1"
  else None.

Definition get_gco2_range_for_region (region : string) : option gco2_range :=
  find (fun r => (range_region r =? region)%string) MIN_MAX_GCO2.

(* ================================================================== *)
(** * Records exchanged between the stages *)
(* ================================================================== *)

(** [{"region": ..., "percentile": ...}]; the percentile is the JSON number
    returned by the carbon-data provider. *)
Record percentile_sample : Type := mk_sample {
  s_region : string;
  s_percentile : Q
}.

(** [{"region": ..., "gco2": ...}] *)
Record gco2_sample : Type := mk_gco2 {
  g_region : string;
  g_gco2 : pyfloat
}.

(** [{"region": ..., "co2_moer": ...}] *)
Record moer_sample : Type := mk_moer {
  m_region : string;
  m_co2_moer : pyfloat
}.

(** A job of the configuration file, after [add_timestamp].  Times are
    microseconds, the resolution of [datetime]. *)
Record job : Type := mk_job {
  job_name : string;
  location : string;
  time_sensitive : bool;
  location_switch : bool;
  percentile_threshold : Q;
  command : string;
  output : string;
  submitted : Z
}.

(** [timedelta(hours=12)] in microseconds. *)
Definition twelve_hours : Z := 12 * 3600 * 1000000.

(* ================================================================== *)
(** * Carbon-signal translation and scheduling policy *)
(* ================================================================== *)

Section Decisions.

(** [scipy.stats.norm.ppf], applied to the quotient [percentile / 100]. *)
Variable ppf : Q -> pyfloat.

(** The body of the loop of [percentile_to_gco2], for a calibration
    [range] that was found and a percentile. *)
Definition estimate_gco2 (range : gco2_range) (percentile : Q) : pyfloat :=
  let mean := Fin (inject_Z (range_min range + range_max range) / 2) in
  let std_dev := Fin (inject_Z (range_max range - range_min range) / 4) in
  let z_score := ppf (percentile / 100) in
  fadd mean (fmul z_score std_dev).

Definition percentile_to_gco2 (percentiles : list percentile_sample)
  : result (list gco2_sample) :=
  rmap (fun percentile =>
          match get_gco2_range_for_region (s_region percentile) with
          | None => Raise TypeError (* [range["min"]] with [range = None] *)
          | Some range =>
              Ok (mk_gco2 (s_region percentile)
                          (estimate_gco2 range (s_percentile percentile)))
          end)
       percentiles.

Definition conversion_factor : pyfloat := Fin (220462 # 100000).

Definition gco2_to_moer (gco2s : list gco2_sample) : list moer_sample :=
  map (fun gco2 => mk_moer (g_region gco2) (fmul (g_gco2 gco2) conversion_factor))
      gco2s.

(** The loop shared by [get_lowest_azure_co2_moer] and
    [get_lowest_aws_co2_moer]; [eligible] is the list the region is looked
    up in. *)
Definition lowest_step (eligible : list string)
    (lowest_co2_moer co2_moer : moer_sample) : moer_sample :=
  if flt (m_co2_moer co2_moer) (m_co2_moer lowest_co2_moer)
     && str_in (m_region co2_moer) eligible
  then co2_moer else lowest_co2_moer.

Definition get_lowest_co2_moer (eligible : list string)
    (co2_moers : list moer_sample) : result moer_sample :=
  match co2_moers with
  | [] => Raise IndexError (* [co2_moers[0]] *)
  | first :: _ => Ok (fold_left (lowest_step eligible) co2_moers first)
  end.

Definition get_lowest_azure_co2_moer :=
  get_lowest_co2_moer (AZURE_LOCATIONS ++ SHARED_LOCATIONS).

Definition get_lowest_aws_co2_moer :=
  get_lowest_co2_moer (AWS_LOCATIONS ++ SHARED_LOCATIONS).

Definition get_percentile_threshold (eligible : list string)
    (percentiles : list percentile_sample) (threshold : Q)
  : list percentile_sample :=
  filter (fun percentile =>
            Qle_bool (s_percentile percentile) threshold
            && str_in (s_region percentile) eligible)
         percentiles.

Definition get_azure_percentile_threshold :=
  get_percentile_threshold (AZURE_LOCATIONS ++ SHARED_LOCATIONS).

Definition get_aws_percentile_threshold :=
  get_percentile_threshold (AWS_LOCATIONS ++ SHARED_LOCATIONS).

(** The last lines of both decision functions: "Check for a timeout".
    [now] is the value of [datetime.now()]. *)
Definition timeout_check (j : job) (now : Z) : result (option string) :=
  if twelve_hours <=? now - submitted j then Ok (Some (location j)) else Ok None.

(** The two decision functions differ only in the provider's helpers. *)
Definition schedule_decision
    (get_lowest : list moer_sample -> result moer_sample)
    (map_location : string -> option string)
    (get_threshold : list percentile_sample -> Q -> list percentile_sample)
    (j : job) (percentiles : list percentile_sample)
    (co2_moers : list moer_sample) (now : Z) : result (option string) :=
  (* Case 1 *)
  if time_sensitive j && negb (location_switch j) then Ok (Some (location j))
  (* Case 2 *)
  else if time_sensitive j && location_switch j then
    rbind (get_lowest co2_moers) (fun lowest_co2_moer =>
    Ok (map_location (m_region lowest_co2_moer)))
  else
    let threshold := percentile_threshold j in
    (* Case 3 *)
    let case3 :=
      if negb (time_sensitive j) && negb (location_switch j) then
        let matches := get_threshold percentiles threshold in
        find (fun m => opt_str_eqb (map_location (s_region m)) (Some (location j)))
             matches
      else None in
    match case3 with
    | Some m => Ok (map_location (s_region m))
    | None =>
        (* Case 4 *)
        let matches :=
          if negb (time_sensitive j) && location_switch j
          then get_threshold percentiles threshold else [] in
        match matches with
        | _ :: _ =>
            rbind (percentile_to_gco2 matches) (fun gco2s =>
            let matches_c02_moer := gco2_to_moer gco2s in
            rbind (get_lowest matches_c02_moer) (fun lowest_co2_moer =>
            Ok (map_location (m_region lowest_co2_moer))))
        | [] => timeout_check j now
        end
    end.

Definition azure_schedule_decision :=
  schedule_decision get_lowest_azure_co2_moer map_azure_location
                    get_azure_percentile_threshold.

Definition aws_schedule_decision :=
  schedule_decision get_lowest_aws_co2_moer map_aws_location
                    get_aws_percentile_threshold.

End Decisions.

(* ================================================================== *)
(** * The carbon client *)
(* ================================================================== *)

(** What [requests.get] returns for a [v3/signal-index] request: the HTTP
    status and the number at [json()["data"][0]["value"]]. *)
Record response : Type := mk_response {
  status_code : Z;
  value : Q
}.

(** [Response.raise_for_status()] raises for a status in 400..599. *)
Definition is_http_error (r : response) : bool :=
  (400 <=? status_code r) && (status_code r <? 600).

Definition raise_for_status (r : response) : result unit :=
  if is_http_error r then Raise HTTPError else Ok tt.

(** [Response.ok]: true when [raise_for_status] would not raise. *)
Definition ok (r : response) : bool := negb (is_http_error r).

(** [WattTime.get_current], given the answer of the server. *)
Definition WattTime_get_current (r : response) : result response :=
  rbind (raise_for_status r) (fun _ => Ok r).

(* ================================================================== *)
(** * The state of [main] *)
(* ================================================================== *)

Inductive job_type : Type := Azure | AWS.

(** An entry of [azure_vms] or [aws_vms].  [resource_group_name] is [None]
    in an entry without that key, as the AWS entries are; the Azure loop
    subscripts it (lines 337 and 342), and an Azure entry is taken to carry
    it. *)
Record vm : Type := mk_vm {
  vm_name : string;
  vm_location : string;
  resource_group_name : option string;
  host : string;
  username : string;
  pkey_path : string
}.

(** [{"job": ..., "resource_group_name": ...}], an element of a list of
    [vm_jobs]. *)
Record ledger_entry : Type := mk_entry {
  entry_job : job;
  entry_resource_group_name : option string
}.

(** [{"job_type": ..., "job_name": ..., "client": ..., "aws_client": ...}],
    an element of a list of [vm_clients].  An [SSHClient] object is
    represented by a number that identifies it; a boto3 EC2 resource by the
    region of its session. *)
Record ssh_entry : Type := mk_ssh {
  ssh_job_type : job_type;
  ssh_job_name : string;
  ssh_client : nat;
  ssh_aws_client : option string
}.

(** The calls [main] makes to its collaborators. *)
Inductive call : Type :=
| signal_index (token : nat) (region : string)   (* [WattTime.get_current] *)
| generate_token                                  (* [WattTime.generate_token] *)
| begin_start (rg : option string) (name : string)
| instance_start (session : string) (instance : string)
| wait_instance_running (session : string) (instance : string)
| ssh_connect (client : nat) (h u key : string)
| exec_command (client : nat) (cmd : string)
| ssh_close (client : nat)
| begin_deallocate (rg : option string) (name : string)
| instance_stop (session : string) (instance : string)
| wait_instance_stopped (session : string) (instance : string)
| sleep (seconds : Z).

(** A Python dictionary with string keys, in insertion order. *)
Definition dict (V : Type) : Type := list (string * V).

Fixpoint dict_get {V} (k : string) (d : dict V) : option V :=
  match d with
  | [] => None
  | (k', v) :: d' => if (k' =? k)%string then Some v else dict_get k d'
  end.

Fixpoint dict_set {V} (k : string) (v : V) (d : dict V) : dict V :=
  match d with
  | [] => [(k, v)]
  | (k', v') :: d' =>
      if (k' =? k)%string then (k, v) :: d' else (k', v') :: dict_set k v d'
  end.

(** The variables of [main] that change while it runs, the global [TOKEN],
    and the calls made so far (oldest first).  [instance_id] and
    [aws_region_client] are the locals assigned in the AWS scheduling loop;
    they are [None] until their first assignment, and [aws_region_client]
    holds [Some None] when it was assigned Python's [None]. *)
Record state : Type := mk_state {
  azure_jobs : list job;
  aws_jobs : list job;
  vm_jobs : dict (list ledger_entry);
  vm_clients : dict (list ssh_entry);
  TOKEN : nat;
  instance_id : option string;
  aws_region_client : option (option string);
  next_client : nat;
  calls : list call
}.

Definition set_azure_jobs (st : state) (l : list job) : state :=
  mk_state l (aws_jobs st) (vm_jobs st) (vm_clients st) (TOKEN st)
           (instance_id st) (aws_region_client st) (next_client st) (calls st).
Definition set_aws_jobs (st : state) (l : list job) : state :=
  mk_state (azure_jobs st) l (vm_jobs st) (vm_clients st) (TOKEN st)
           (instance_id st) (aws_region_client st) (next_client st) (calls st).
Definition set_vm_jobs (st : state) (d : dict (list ledger_entry)) : state :=
  mk_state (azure_jobs st) (aws_jobs st) d (vm_clients st) (TOKEN st)
           (instance_id st) (aws_region_client st) (next_client st) (calls st).
Definition set_vm_clients (st : state) (d : dict (list ssh_entry)) : state :=
  mk_state (azure_jobs st) (aws_jobs st) (vm_jobs st) d (TOKEN st)
           (instance_id st) (aws_region_client st) (next_client st) (calls st).
Definition set_TOKEN (st : state) (t : nat) : state :=
  mk_state (azure_jobs st) (aws_jobs st) (vm_jobs st) (vm_clients st) t
           (instance_id st) (aws_region_client st) (next_client st) (calls st).
Definition set_instance_id (st : state) (i : option string) : state :=
  mk_state (azure_jobs st) (aws_jobs st) (vm_jobs st) (vm_clients st) (TOKEN st)
           i (aws_region_client st) (next_client st) (calls st).
Definition set_aws_region_client (st : state) (c : option (option string)) : state :=
  mk_state (azure_jobs st) (aws_jobs st) (vm_jobs st) (vm_clients st) (TOKEN st)
           (instance_id st) c (next_client st) (calls st).
Definition set_next_client (st : state) (n : nat) : state :=
  mk_state (azure_jobs st) (aws_jobs st) (vm_jobs st) (vm_clients st) (TOKEN st)
           (instance_id st) (aws_region_client st) n (calls st).
Definition set_calls (st : state) (l : list call) : state :=
  mk_state (azure_jobs st) (aws_jobs st) (vm_jobs st) (vm_clients st) (TOKEN st)
           (instance_id st) (aws_region_client st) (next_client st) l.

(** ** The monad of [main]: state and exceptions *)

Definition M (A : Type) : Type := state -> result A * state.

Definition ret {A} (a : A) : M A := fun st => (Ok a, st).
Definition raise {A} (e : exn) : M A := fun st => (Raise e, st).
Definition lift {A} (r : result A) : M A := fun st => (r, st).
Definition bind {A B} (c : M A) (k : A -> M B) : M B :=
  fun st =>
    match c st with
    | (Ok a, st') => k a st'
    | (Raise e, st') => (Raise e, st')
    end.
Definition get : M state := fun st => (Ok st, st).
Definition modify (f : state -> state) : M unit := fun st => (Ok tt, f st).

Declare Scope monad_scope.
Delimit Scope monad_scope with monad.
Notation "x <- c ;; k" := (bind c (fun x => k))
  (at level 61, c at next level, right associativity) : monad_scope.
Notation "c ;; k" := (bind c (fun _ => k))
  (at level 61, right associativity) : monad_scope.
Open Scope monad_scope.

(** An external call: recorded, and assumed to return normally. *)
Definition emit (c : call) : M unit :=
  modify (fun st => set_calls st (calls st ++ [c])).

(** ** Python lists *)

(** [for x in lst: body], where the body may shrink the list it iterates
    over: the iterator holds an index [i] into the list object, read again
    at every step.  [body] also receives the index. *)
Fixpoint for_in {X} (fuel : nat) (lst : state -> list X)
    (body : nat -> X -> M unit) (i : nat) : M unit :=
  fun st =>
    match nth_error (lst st) i with
    | None => (Ok tt, st)
    | Some x =>
        match fuel with
        | O => (Raise OutOfFuel, st)
        | S fuel' => (body i x ;; for_in fuel' lst body (S i)) st
        end
    end.

(** [l.remove(x)]: drops the first element equal to [x]; [None] stands for
    the [ValueError] raised when there is none. *)
Fixpoint list_remove {X} (eqb : X -> X -> bool) (x : X) (l : list X)
  : option (list X) :=
  match l with
  | [] => None
  | y :: l' =>
      if eqb y x then Some l' else option_map (cons y) (list_remove eqb x l')
  end.

(** [==] on the dictionaries the lists hold. *)
Definition job_eqb (a b : job) : bool :=
  (job_name a =? job_name b)%string && (location a =? location b)%string
  && Bool.eqb (time_sensitive a) (time_sensitive b)
  && Bool.eqb (location_switch a) (location_switch b)
  && Qeq_bool (percentile_threshold a) (percentile_threshold b)
  && (command a =? command b)%string && (output a =? output b)%string
  && (submitted a =? submitted b).

Definition entry_eqb (a b : ledger_entry) : bool :=
  job_eqb (entry_job a) (entry_job b)
  && opt_str_eqb (entry_resource_group_name a) (entry_resource_group_name b).

Definition job_type_eqb (a b : job_type) : bool :=
  match a, b with
  | Azure, Azure | AWS, AWS => true
  | _, _ => false
  end.

Definition ssh_eqb (a b : ssh_entry) : bool :=
  job_type_eqb (ssh_job_type a) (ssh_job_type b)
  && (ssh_job_name a =? ssh_job_name b)%string
  && Nat.eqb (ssh_client a) (ssh_client b)
  && opt_str_eqb (ssh_aws_client a) (ssh_aws_client b).

(* ================================================================== *)
(** * [get_region_percentiles] *)
(* ================================================================== *)

Section Client.

(** [WattTime.get_current(token, region)] as a function of the region: the
    call either raises or hands back a response. *)
Variable get_current : string -> result response.

(** The body of the loop, for one region.  [token] is the parameter of
    [get_region_percentiles]; the refreshed token goes to the global. *)
Definition fetch_region (token : nat) (region : string)
    (percentiles : list percentile_sample) : M (list percentile_sample) :=
  emit (signal_index token region) ;;
  region_data <- lift (get_current region) ;;
  if ok region_data then
    ret (percentiles ++ [mk_sample region (value region_data)])
  else
    emit generate_token ;;
    modify (fun st => set_TOKEN st (S (TOKEN st))) ;;
    ret percentiles.

Fixpoint fetch_regions (token : nat) (regions : list string)
    (percentiles : list percentile_sample) : M (list percentile_sample) :=
  match regions with
  | [] => ret percentiles
  | region :: regions' =>
      percentiles' <- fetch_region token region percentiles ;;
      fetch_regions token regions' percentiles'
  end.

Definition get_region_percentiles (token : nat) : M (list percentile_sample) :=
  fetch_regions token (SHARED_LOCATIONS ++ AZURE_LOCATIONS ++ AWS_LOCATIONS) [].

End Client.

(* ================================================================== *)
(** * The control loop of [main] *)
(* ================================================================== *)

(** What the outside world answers during one pass of the loop. *)
Record world : Type := mk_world {
  (** the server's answer to the signal-index request for a region *)
  carbon : string -> response;
  (** [datetime.now()] as read by the decision on the job visited at a
      given index of a provider's loop *)
  clock : job_type -> nat -> Z;
  (** whether running a completion probe on an SSH client prints [DONE] *)
  probe : nat -> string -> bool
}.

Inductive decision : Type := Continue | Break.

Definition get_azure_vm_by_region (vms : list vm) (region : string)
  : option vm :=
  find (fun v => (vm_location v =? region)%string) vms.

Definition get_aws_vm_by_region (vms : list vm) (region : string)
  : option vm :=
  find (fun v => (vm_location v =? region)%string) vms.

Definition init_job_list (azure_vms aws_vms : list vm)
  : dict (list ledger_entry) :=
  fold_left (fun vm_jobs v => dict_set (vm_name v) [] vm_jobs)
            (azure_vms ++ aws_vms) [].

Definition init_ssh_list (azure_vms aws_vms : list vm)
  : dict (list ssh_entry) :=
  fold_left (fun vm_clients v => dict_set (vm_name v) [] vm_clients)
            (azure_vms ++ aws_vms) [].

Definition add_timestamp (now : Z) (jobs : list job) : list job :=
  map (fun j => mk_job (job_name j) (location j) (time_sensitive j)
                       (location_switch j) (percentile_threshold j)
                       (command j) (output j) now) jobs.

(** The regions of [aws_compute_clients]; an EC2 resource is represented by
    the region of its session. *)
Definition aws_compute_clients : list (option string) :=
  map map_aws_location (SHARED_LOCATIONS ++ AWS_LOCATIONS).

(** The search loop over [aws_compute_clients]: the last match wins, and
    the result is Python's [None] when there is none. *)
Definition find_aws_client (region : string) : option string :=
  fold_left (fun aws_region_client aws_client =>
               if opt_str_eqb aws_client (Some region) then Some region
               else aws_region_client)
            aws_compute_clients None.

Definition jobs_of (name : string) (st : state) : list ledger_entry :=
  match dict_get name (vm_jobs st) with Some l => l | None => [] end.

Definition clients_of (name : string) (st : state) : list ssh_entry :=
  match dict_get name (vm_clients st) with Some l => l | None => [] end.

(** [vm_jobs[name]] and [vm_clients[name]] *)
Definition ledger_jobs (name : string) : M (list ledger_entry) :=
  st <- get ;;
  match dict_get name (vm_jobs st) with
  | Some l => ret l
  | None => raise KeyError
  end.

Definition ledger_clients (name : string) : M (list ssh_entry) :=
  st <- get ;;
  match dict_get name (vm_clients st) with
  | Some l => ret l
  | None => raise KeyError
  end.

Definition append_job (name : string) (e : ledger_entry) : M unit :=
  l <- ledger_jobs name ;;
  modify (fun st => set_vm_jobs st (dict_set name (l ++ [e]) (vm_jobs st))).

Definition append_client (name : string) (c : ssh_entry) : M unit :=
  l <- ledger_clients name ;;
  modify (fun st => set_vm_clients st (dict_set name (l ++ [c]) (vm_clients st))).

(** [paramiko.SSHClient()]: a new object. *)
Definition new_ssh_client : M nat :=
  st <- get ;;
  modify (fun st => set_next_client st (S (next_client st))) ;;
  ret (next_client st).

(** Lines 345-352 and 387-394: open the session and send the command. *)
Definition open_session (t : job_type) (j : job) (vm_info : vm)
    (aws_client : option string) : M unit :=
  client <- new_ssh_client ;;
  emit (ssh_connect client (host vm_info) (username vm_info) (pkey_path vm_info)) ;;
  append_client (vm_name vm_info) (mk_ssh t (job_name j) client aws_client) ;;
  emit (exec_command client (command j)).

Section Orchestrator.

Variable ppf : Q -> pyfloat.
Variables azure_vms aws_vms : list vm.

(** The branch [region != None] of the Azure loop. *)
Definition azure_dispatch (azure_job : job) (region : string) : M unit :=
  st <- get ;;
  match list_remove job_eqb azure_job (azure_jobs st) with
  | None => raise ValueError
  | Some l =>
      modify (fun st => set_azure_jobs st l) ;;
      match get_azure_vm_by_region azure_vms region with
      | None => raise TypeError (* [vm_info["vm_name"]] with [vm_info = None] *)
      | Some vm_info =>
          jobs <- ledger_jobs (vm_name vm_info) ;;
          (if Nat.eqb (length jobs) 0
           then emit (begin_start (resource_group_name vm_info) (vm_name vm_info))
           else ret tt) ;;
          append_job (vm_name vm_info)
                     (mk_entry azure_job (resource_group_name vm_info)) ;;
          open_session Azure azure_job vm_info None
      end
  end.

(** The branch [region != None] of the AWS loop. *)
Definition aws_dispatch (aws_job : job) (region : string) : M unit :=
  st <- get ;;
  match list_remove job_eqb aws_job (aws_jobs st) with
  | None => raise ValueError
  | Some l =>
      modify (fun st => set_aws_jobs st l) ;;
      let client := find_aws_client region in
      modify (fun st => set_aws_region_client st (Some client)) ;;
      match get_aws_vm_by_region aws_vms region with
      | None => raise TypeError
      | Some vm_info =>
          modify (fun st => set_instance_id st (Some (vm_name vm_info))) ;;
          jobs <- ledger_jobs (vm_name vm_info) ;;
          (if Nat.eqb (length jobs) 0
           then match client with
                | None => raise AttributeError (* [None.Instance] *)
                | Some session =>
                    emit (instance_start session (vm_name vm_info)) ;;
                    emit (wait_instance_running session (vm_name vm_info))
                end
           else ret tt) ;;
          append_job (vm_name vm_info) (mk_entry aws_job None) ;;
          open_session AWS aws_job vm_info client
      end
  end.

Definition azure_loop (w : world) (percentiles : list percentile_sample)
    (co2_moers : list moer_sample) : M unit :=
  st <- get ;;
  for_in (length (azure_jobs st)) azure_jobs
    (fun i azure_job =>
       region <- lift (azure_schedule_decision ppf azure_job percentiles
                                               co2_moers (clock w Azure i)) ;;
       match region with
       | Some region => azure_dispatch azure_job region
       | None => ret tt
       end)
    0.

Definition aws_loop (w : world) (percentiles : list percentile_sample)
    (co2_moers : list moer_sample) : M unit :=
  st <- get ;;
  for_in (length (aws_jobs st)) aws_jobs
    (fun i aws_job =>
       region <- lift (aws_schedule_decision ppf aws_job percentiles
                                             co2_moers (clock w AWS i)) ;;
       match region with
       | Some region => aws_dispatch aws_job region
       | None => ret tt
       end)
    0.

(** Lines 412-414 and 423-425: close the session and drop the pair. *)
Definition drop_pair (name : string) (j : ledger_entry) (c : ssh_entry) : M unit :=
  emit (ssh_close (ssh_client c)) ;;
  jobs <- ledger_jobs name ;;
  match list_remove entry_eqb j jobs with
  | None => raise ValueError
  | Some jobs' =>
      modify (fun st => set_vm_jobs st (dict_set name jobs' (vm_jobs st))) ;;
      clients <- ledger_clients name ;;
      match list_remove ssh_eqb c clients with
      | None => raise ValueError
      | Some clients' =>
          modify (fun st => set_vm_clients st (dict_set name clients' (vm_clients st)))
      end
  end.

(** Lines 428-432: the AWS stop, with the locals [instance_id] and
    [aws_region_client] as the scheduling loop left them. *)
Definition aws_stop (c : ssh_entry) : M unit :=
  st <- get ;;
  match ssh_aws_client c with
  | None => raise AttributeError
  | Some aws_client =>
      match instance_id st with
      | None => raise NameError
      | Some id =>
          emit (instance_stop aws_client id) ;;
          match aws_region_client st with
          | None => raise NameError
          | Some None => raise AttributeError
          | Some (Some session) => emit (wait_instance_stopped session id)
          end
      end
  end.

(** The body of the innermost loop of the completion check. *)
Definition check_client (w : world) (name : string) (j : ledger_entry)
    (c : ssh_entry) : M unit :=
  if (ssh_job_name c =? job_name (entry_job j))%string then
    emit (exec_command (ssh_client c) (output (entry_job j))) ;;
    if probe w (ssh_client c) (output (entry_job j)) then
      drop_pair name j c ;;
      jobs <- ledger_jobs name ;;
      if Nat.eqb (length jobs) 0 then
        match ssh_job_type c with
        | Azure => emit (begin_deallocate (entry_resource_group_name j) name)
        | AWS => aws_stop c
        end
      else ret tt
    else ret tt
  else ret tt.

Definition sweep_vm (w : world) (name : string) : M unit :=
  st <- get ;;
  for_in (length (jobs_of name st)) (jobs_of name)
    (fun _ j =>
       ssh_clients <- ledger_clients name ;;
       for_in (length ssh_clients) (clients_of name)
              (fun _ c => check_client w name j c) 0)
    0.

Fixpoint sweep_vms (w : world) (names : list string) : M unit :=
  match names with
  | [] => ret tt
  | name :: names' => sweep_vm w name ;; sweep_vms w names'
  end.

(** [for vm_name, jobs in vm_jobs.items()] *)
Definition sweep (w : world) : M unit :=
  st <- get ;;
  sweep_vms w (map fst (vm_jobs st)).

(** Lines 434-443. *)
Definition no_jobs (st : state) : bool :=
  forallb (fun kv => Nat.eqb (length (snd kv)) 0) (vm_jobs st).

Definition sleep_or_break : M decision :=
  st <- get ;;
  if negb (Nat.eqb (length (azure_jobs st ++ aws_jobs st)) 0) || negb (no_jobs st)
  then emit (sleep 60) ;; ret Continue
  else ret Break.

(** The scheduling part of a pass: both providers' loops. *)
Definition schedule (w : world) (percentiles : list percentile_sample)
    (co2_moers : list moer_sample) : M unit :=
  azure_loop w percentiles co2_moers ;;
  aws_loop w percentiles co2_moers.

(** One pass of the body of [while True]. *)
Definition tick (w : world) : M decision :=
  st <- get ;;
  percentiles <- get_region_percentiles
                   (fun region => WattTime_get_current (carbon w region))
                   (TOKEN st) ;;
  gco2s <- lift (percentile_to_gco2 ppf percentiles) ;;
  let co2_moers := gco2_to_moer gco2s in
  schedule w percentiles co2_moers ;;
  sweep w ;;
  sleep_or_break.

Inductive status : Type := Exited | Polling.

(** The loop, run against the worlds of its successive passes; [Polling]
    when they are used up before the loop breaks. *)
Fixpoint main_loop (ws : list world) : M status :=
  match ws with
  | [] => ret Polling
  | w :: ws' =>
      d <- tick w ;;
      match d with
      | Break => ret Exited
      | Continue => main_loop ws'
      end
  end.

(** The state [main] enters the loop with; [now] is the [datetime.now()] of
    [add_timestamp]. *)
Definition initial_state (azure_cfg aws_cfg : list job) (now : Z) : state :=
  mk_state (add_timestamp now azure_cfg) (add_timestamp now aws_cfg)
           (init_job_list azure_vms aws_vms) (init_ssh_list azure_vms aws_vms)
           1 None None 0 [generate_token].

Definition main (azure_cfg aws_cfg : list job) (now : Z) (ws : list world)
  : result status * state :=
  main_loop ws (initial_state azure_cfg aws_cfg now).

End Orchestrator.

(* ================================================================== *)
(** * Vocabulary of the statements *)
(* ================================================================== *)

(** ** What is assumed of [scipy.stats.norm.ppf] *)

(** The inverse normal CDF is non-decreasing on [0, 1]. *)
Definition ppf_monotone (ppf : Q -> pyfloat) : Prop :=
  forall q1 q2 : Q, (0 <= q1)%Q -> (q1 <= q2)%Q -> (q2 <= 1)%Q ->
    fle (ppf q1) (ppf q2) = true.

(** It is finite inside the interval and infinite at its ends. *)
Record ppf_contract (ppf : Q -> pyfloat) : Prop := mk_ppf_contract {
  ppf_at_zero : forall q : Q, (q == 0)%Q -> ppf q = NegInf;
  ppf_at_one : forall q : Q, (q == 1)%Q -> ppf q = PosInf;
  ppf_inside : forall q : Q, (0 < q)%Q -> (q < 1)%Q -> is_finite (ppf q) = true;
  ppf_mono : ppf_monotone ppf
}.

(** A function that meets the contract, for the places where a closed term
    is needed (witnesses, runs of [main]).  It stands in for the library
    function and does not approximate it. *)
Definition ppf_standin (q : Q) : pyfloat :=
  match (q ?= 0)%Q with
  | Lt => NaN
  | Eq => NegInf
  | Gt =>
      match (q ?= 1)%Q with
      | Lt => Fin (4 * q - 2)
      | Eq => PosInf
      | Gt => NaN
      end
  end.

(** ** The policy *)

Definition is_nan (x : pyfloat) : bool :=
  match x with NaN => true | _ => false end.

(** Neither case 3 nor case 4 returns: with location switching, no eligible
    region is within the threshold; without it, no eligible region within
    the threshold maps to the job's location. *)
Definition no_earlier_match
    (map_location : string -> option string)
    (get_threshold : list percentile_sample -> Q -> list percentile_sample)
    (j : job) (percentiles : list percentile_sample) : bool :=
  let matches := get_threshold percentiles (percentile_threshold j) in
  if location_switch j then
    match matches with [] => true | _ :: _ => false end
  else
    negb (existsb (fun m => opt_str_eqb (map_location (s_region m))
                                        (Some (location j)))
                  matches).

(** ** Calls and occupancy *)

Definition all_regions : list string :=
  SHARED_LOCATIONS ++ AZURE_LOCATIONS ++ AWS_LOCATIONS.

(** The number of active jobs of a VM. *)
Definition active (name : string) (st : state) : nat :=
  length (jobs_of name st).

(** A start call for the VM [name], of either provider. *)
Definition is_start (name : string) (c : call) : bool :=
  match c with
  | begin_start _ n | instance_start _ n => (n =? name)%string
  | _ => false
  end.

(** A stop or deallocate call for the VM [name]. *)
Definition is_stop (name : string) (c : call) : bool :=
  match c with
  | begin_deallocate _ n | instance_stop _ n => (n =? name)%string
  | _ => false
  end.

Definition is_fetch (c : call) : bool :=
  match c with
  | signal_index _ _ => true
  | _ => false
  end.

Definition is_generate_token (c : call) : bool :=
  match c with
  | generate_token => true
  | _ => false
  end.

Definition count (p : call -> bool) (l : list call) : nat :=
  length (filter p l).

(** The calls of [st'] that were made after [st]. *)
Definition calls_since (st st' : state) : list call :=
  skipn (length (calls st)) (calls st').

(** ** Relations between the states of a computation *)

(** [c] takes every state to one related to it by [R], whatever it
    returns. *)
Definition steps {A} (R : state -> state -> Prop) (c : M A) : Prop :=
  forall st, R st (snd (c st)).

(** [c] never reports that a loop ran out of fuel. *)
Definition never_out {A} (c : M A) : Prop :=
  forall st, fst (c st) <> Raise OutOfFuel.

(** Calls were added, none of them satisfying [p]. *)
Definition quiet (p : call -> bool) (st st' : state) : Prop :=
  exists new, calls st' = calls st ++ new /\ count p new = 0%nat.

(** Calls were added, the VM [name] lost no job, and it was started once if
    it went from idle to occupied, and not at all otherwise. *)
Definition started_once (name : string) (st st' : state) : Prop :=
  exists new,
    calls st' = calls st ++ new
    /\ (active name st <= active name st')%nat
    /\ count (is_start name) new
       = if Nat.eqb (active name st) 0 && negb (Nat.eqb (active name st') 0)
         then 1%nat else 0%nat.

(** The start of a VM [n], as either provider issues it: it raises before
    any call, or it makes calls of which exactly one is a start of [n]. *)
Definition starter (n : string) (start : M unit) : Prop :=
  forall st,
    (exists e, start st = (Raise e, st))
    \/ (exists new, start st = (Ok tt, set_calls st (calls st ++ new))
                    /\ forall v, count (is_start v) new
                                 = if (n =? v)%string then 1%nat else 0%nat).

(** The ledger is as it was, or one entry was appended to one list. *)
Definition appended_at_most_once (st st' : state) : Prop :=
  vm_jobs st' = vm_jobs st
  \/ exists n l e, dict_get n (vm_jobs st) = Some l
                   /\ vm_jobs st' = dict_set n (l ++ [e]) (vm_jobs st).

(** Over a whole pass: calls were added, at most one of them a start of
    [name], and only if [name] was idle. *)
Definition started_at_most_once (name : string) (st st' : state) : Prop :=
  exists new,
    calls st' = calls st ++ new
    /\ (count (is_start name) new <= 1)%nat
    /\ (count (is_start name) new = 1%nat -> active name st = 0%nat).

(** Only requests to the carbon-data provider were made, and nothing else
    of the state changed. *)
Definition only_fetched (st st' : state) : Prop :=
  exists new,
    st' = set_calls st (calls st ++ new) /\ forallb is_fetch new = true.

(** [c] either raises, or ends by running [final]; up to there the states
    are related by [R]. *)
Definition ends_with {B} (R : state -> state -> Prop) (final : M B)
    (c : M B) : Prop :=
  forall st,
    (exists e, fst (c st) = Raise e /\ R st (snd (c st)))
    \/ (exists st', R st st' /\ c st = final st').

(** [vm_jobs] is as it was. *)
Definition keeps_ledger (st st' : state) : Prop :=
  vm_jobs st' = vm_jobs st.

(** Neither list of the VM [name] grew. *)
Definition shrinks_both (name : string) (st st' : state) : Prop :=
  (length (jobs_of name st') <= length (jobs_of name st))%nat
  /\ (length (clients_of name st') <= length (clients_of name st))%nat.

(** The list [lst] did not grow. *)
Definition shrinks {X} (lst : state -> list X) (st st' : state) : Prop :=
  (length (lst st') <= length (lst st))%nat.

Definition is_sleep (c : call) : bool :=
  match c with
  | sleep _ => true
  | _ => false
  end.

(** What a stop or deallocate call made while checking one session means
    for the swept VM [name] and for the call's target. *)
Definition stop_at_emptying (name : string) (st st' : state) (c : call)
  : Prop :=
  match c with
  | begin_deallocate _ target =>
      jobs_of name st <> [] /\ jobs_of name st' = [] /\ target = name
  | instance_stop _ target =>
      jobs_of name st <> [] /\ jobs_of name st' = []
      /\ instance_id st = Some target
  | _ => True
  end.

(** ** The carbon snapshot *)

(** The snapshot expected from the answers [resp] of the provider: the
    regions whose answer is ok, in the order they are asked. *)
Definition snapshot_of (resp : string -> response) (regions : list string)
  : list percentile_sample :=
  flat_map (fun region =>
              if ok (resp region)
              then [mk_sample region (value (resp region))] else [])
           regions.

(** Nothing is pending and no VM is occupied. *)
Definition drained (st : state) : bool :=
  Nat.eqb (length (azure_jobs st ++ aws_jobs st)) 0 && no_jobs st.

(** ** Inputs of the examples *)


Definition all_ok : string -> response :=
  fun _ => mk_response 200 50.

Definition idle_state : state :=
  mk_state [] [] [] [] 1 None None 0 [].

Definition quiet_world (answers : string -> response) : world :=
  mk_world answers (fun _ _ => 0) (fun _ _ => false).

(** A world in which every completion probe prints [DONE]. *)
Definition done_world : world :=
  mk_world all_ok (fun _ _ => 0) (fun _ _ => true).

(** Three urgent jobs for the same location. *)
Definition three_jobs : list job :=
  [ mk_job "a" "East US" true false 0 "run a" "probe a" 0;
    mk_job "b" "East US" true false 0 "run b" "probe b" 0;
    mk_job "c" "East US" true false 0 "run c" "probe c" 0 ].

(** Two AWS instances in different regions, and an urgent job for each. *)
Definition west_instance : vm :=
  mk_vm "i-west" "us-west-1" None "10.1.0.4" "ec2-user" "west.pem".

Definition north_instance : vm :=
  mk_vm "i-north" "eu-north-1" None "10.2.0.4" "ec2-user" "north.pem".

Definition west_job : job :=
  mk_job "a" "us-west-1" true false 0 "run a" "probe a" 0.

Definition north_job : job :=
  mk_job "b" "eu-north-1" true false 0 "run b" "probe b" 0.

(** The same on Azure. *)
Definition west_vm : vm :=
  mk_vm "vm-west" "West US" (Some "rg") "10.3.0.4" "azureuser" "west.pem".

Definition azure_west_job : job :=
  mk_job "a" "West US" true false 0 "run a" "probe a" 0.

Definition azure_east_job : job :=
  mk_job "b" "East US" true false 0 "run b" "probe b" 0.

(** A world in which only the first session opened reports [DONE]. *)
Definition first_done_world : world :=
  mk_world all_ok (fun _ _ => 0) (fun client _ => Nat.eqb client 0).

Definition east_vm : vm :=
  mk_vm "vm-east" "East US" (Some "rg") "10.0.0.4" "azureuser" "east.pem".

Definition urgent_switchable : job :=
  mk_job "job" "us-east-2" true true 50 "run" "probe" 0.

Definition urgent_fixed : job :=
  mk_job "job" "East US" true false 0 "run" "probe" 0.

Definition patient_switchable : job :=
  mk_job "job" "East US" false true 50 "run" "probe" 0.

Definition patient_fixed : job :=
  mk_job "job" "East US" false false 0 "run" "probe" 0.

(** ** Consistency of the variables of [main] *)

(** What a Python [for] leaves in a list when its body removes the element
    it visits: once the element at index [i] is gone, index [i + 1] holds
    what was two places further. *)
Fixpoint skipped {X} (l : list X) : list X :=
  match l with
  | _ :: y :: l' => y :: skipped l'
  | _ => []
  end.

(** Every VM of the configuration is a key of [vm_jobs], and every key of
    [vm_jobs] is a key of [vm_clients]. *)
Definition ledger_ready (azure_vms aws_vms : list vm) (st : state) : Prop :=
  (forall v, In v (azure_vms ++ aws_vms) ->
             dict_get (vm_name v) (vm_jobs st) <> None)
  /\ (forall k, dict_get k (vm_jobs st) <> None ->
                dict_get k (vm_clients st) <> None).

(** The locals [instance_id] and [aws_region_client] have been assigned. *)
Definition aws_locals_set (st : state) : Prop :=
  instance_id st <> None /\ aws_region_client st <> None.

(** They have been assigned if some session in [vm_clients] is an AWS one. *)
Definition aws_bound (st : state) : Prop :=
  forall name l c,
    dict_get name (vm_clients st) = Some l -> In c l ->
    ssh_job_type c = AWS -> aws_locals_set st.

(** The state is consistent: the ledgers have their keys, among them
    [keys], and the AWS locals are assigned when a session needs them or
    when [locals] holds. *)
Definition consistent (azure_vms aws_vms : list vm) (keys : list string)
    (locals : Prop) (st : state) : Prop :=
  ledger_ready azure_vms aws_vms st
  /\ (forall k, In k keys -> dict_get k (vm_jobs st) <> None)
  /\ aws_bound st
  /\ (locals -> aws_locals_set st).

(** Started where [P] holds, [c] ends where [Q] holds, and raises neither
    [KeyError] (in the model: a lookup in [vm_jobs] or [vm_clients] by a
    name that is not a key) nor [NameError]. *)
Definition safe {A} (P : state -> Prop) (c : M A) (Q : state -> Prop)
  : Prop :=
  forall st, P st ->
    fst (c st) <> Raise KeyError /\ fst (c st) <> Raise NameError
    /\ Q (snd (c st)).

(** ** Accounting for the jobs *)

Definition is_close (c : call) : bool :=
  match c with
  | ssh_close _ => true
  | _ => false
  end.

Definition is_connect (c : call) : bool :=
  match c with
  | ssh_connect _ _ _ _ => true
  | _ => false
  end.

(** The jobs still in the two pending lists. *)
Definition pending (st : state) : nat :=
  (length (azure_jobs st) + length (aws_jobs st))%nat.

(** The jobs in the lists of [vm_jobs]. *)
Definition assigned (st : state) : nat :=
  list_sum (map (fun kv => length (snd kv)) (vm_jobs st)).

(** Of [n] jobs, everyone is pending, assigned or has had its session
    closed, and everyone not pending has had a session opened; [a], [a']
    and [b] are what is owed in the middle of a dispatch or of a removal. *)
Definition balanced (n a a' b : nat) (st : state) : Prop :=
  (pending st + assigned st + count is_close (calls st) + a = n + a')%nat
  /\ (pending st + count is_connect (calls st) + b = n)%nat.

(** Started where [P] holds, [c] ends where [Q] holds of its result when it
    returns. *)
Definition returns {A} (P : state -> Prop) (c : M A)
    (Q : A -> state -> Prop) : Prop :=
  forall st a st', P st -> c st = (Ok a, st') -> Q a st'.

(** ** Tearing down *)

(** A call that ends a session or stops a VM. *)
Definition is_teardown (c : call) : bool :=
  match c with
  | ssh_close _ | begin_deallocate _ _ | instance_stop _ _
  | wait_instance_stopped _ _ => true
  | _ => false
  end.

(** Calls were added, none of them a teardown, and no VM lost a job. *)
Definition undisturbed (st st' : state) : Prop :=
  quiet is_teardown st st'
  /\ forall name, (active name st <= active name st')%nat.

(** ** More inputs of the examples *)

(** The answers of a pass in which the request for [UK] is refused. *)
Definition uk_unauthorized : string -> response :=
  fun region =>
    if (region =? "UK")%string then mk_response 401 0 else mk_response 200 50.

(** Metrics for the six regions, with the lowest values in regions that AWS
    does not serve and a tie between [UK] and [PJM_SOUTHWEST_OH]. *)
Definition tied_metrics : list moer_sample :=
  [ mk_moer "CAISO_NORTH" (Fin 5); mk_moer "UK" (Fin 3);
    mk_moer "PJM_ROANOKE" (Fin 1); mk_moer "FR" (Fin 2);
    mk_moer "PJM_SOUTHWEST_OH" (Fin 3); mk_moer "SE" (Fin 4) ].

(* ================================================================== *)
(** * Properties of the carbon-signal translation *)
(* ================================================================== *)

Module Translator.

Lemma Qsign_pos (s : Q) : (0 < s)%Q -> Qsign s = Lt.
Proof. intros H. unfold Qsign. now apply Qlt_alt. Qed.

Lemma std_dev_pos (lo hi : Z) :
  lo < hi -> (0 < inject_Z (hi - lo) / 4)%Q.
Proof.
  intros H. apply Qlt_shift_div_l; [reflexivity|].
  rewrite Qmult_0_l. unfold Qlt, inject_Z. simpl. lia.
Qed.


Lemma percentile_quotient (p : Q) :
  ((p == 0 -> p / 100 == 0) /\ (p == 100 -> p / 100 == 1) /\
   (0 <= p -> 0 <= p / 100) /\ (p <= 100 -> p / 100 <= 1) /\
   (0 < p -> 0 < p / 100) /\ (p < 100 -> p / 100 < 1))%Q.
Proof.
  repeat split; intros H.
  - rewrite H. reflexivity.
  - rewrite H. reflexivity.
  - apply Qle_shift_div_l; [reflexivity|]. now rewrite Qmult_0_l.
  - apply Qle_shift_div_r; [reflexivity|]. now rewrite Qmult_1_l.
  - apply Qlt_shift_div_l; [reflexivity|]. now rewrite Qmult_0_l.
  - apply Qlt_shift_div_r; [reflexivity|]. now rewrite Qmult_1_l.
Qed.

(** The stand-in meets the contract. *)
Lemma ppf_standin_contract : ppf_contract ppf_standin.
Proof.
  split.
  - intros q H. unfold ppf_standin.
    destruct (Qcompare_spec q 0); [reflexivity | exfalso; lra | exfalso; lra].
  - intros q H. unfold ppf_standin.
    destruct (Qcompare_spec q 0); try (exfalso; lra).
    destruct (Qcompare_spec q 1); [reflexivity | exfalso; lra | exfalso; lra].
  - intros q H0 H1. unfold ppf_standin.
    destruct (Qcompare_spec q 0); try (exfalso; lra).
    destruct (Qcompare_spec q 1); [exfalso; lra | reflexivity | exfalso; lra].
  - intros q1 q2 H0 H12 H1. unfold ppf_standin.
    destruct (Qcompare_spec q1 0); try (exfalso; lra);
      destruct (Qcompare_spec q2 0); try (exfalso; lra); try reflexivity;
      try (destruct (Qcompare_spec q2 1); try (exfalso; lra); reflexivity).
    destruct (Qcompare_spec q1 1); try (exfalso; lra);
      destruct (Qcompare_spec q2 1); try (exfalso; lra); try reflexivity.
    simpl. apply Qle_bool_iff. lra.
Qed.

Lemma known_region_range (region : string) :
  In region all_regions ->
  exists range, get_gco2_range_for_region region = Some range
                /\ range_region range = region
                /\ range_min range < range_max range.
Proof.
  unfold all_regions. simpl.
  intros [H|[H|[H|[H|[H|[H|[]]]]]]]; subst region;
    eexists; (split; [reflexivity|]); simpl; split; (reflexivity || lia).
Qed.


(** [percentile_to_gco2] returns on every list of calibrated regions. *)
Lemma percentile_to_gco2_total (ppf : Q -> pyfloat)
    (percentiles : list percentile_sample) :
  Forall (fun s => In (s_region s) all_regions) percentiles ->
  exists gco2s, percentile_to_gco2 ppf percentiles = Ok gco2s
                /\ map g_region gco2s = map s_region percentiles.
Proof.
  induction 1 as [|s l Hs _ IH].
  - exists []. split; reflexivity.
  - destruct IH as (gs & E & Hm).
    destruct (known_region_range Hs) as (range & Er & _).
    unfold percentile_to_gco2 in *. simpl. rewrite Er. simpl. rewrite E. simpl.
    eexists. split; [reflexivity|]. simpl. now rewrite Hm.
Qed.




End Translator.

(* ================================================================== *)
(** * Properties of the scheduling policy *)
(* ================================================================== *)

Module Policy.

Lemma opt_str_eqb_some (a : option string) (y : string) :
  opt_str_eqb a (Some y) = true -> a = Some y.
Proof.
  destruct a as [x|]; simpl; [|discriminate].
  intros H. apply String.eqb_eq in H. now subst.
Qed.

Lemma str_in_In (s : string) (l : list string) :
  str_in s l = true -> In s l.
Proof.
  unfold str_in. intros H. apply existsb_exists in H.
  destruct H as (x & Hx & E). apply String.eqb_eq in E. now subst.
Qed.

Lemma threshold_matches_eligible (eligible : list string)
    (percentiles : list percentile_sample) (threshold : Q) :
  Forall (fun s => In (s_region s) eligible)
         (get_percentile_threshold eligible percentiles threshold).
Proof.
  apply Forall_forall. intros s H. unfold get_percentile_threshold in H.
  apply filter_In in H. destruct H as [_ H].
  apply andb_true_iff in H. now apply str_in_In.
Qed.

Lemma eligible_known (provider_regions : list string) :
  provider_regions = AZURE_LOCATIONS \/ provider_regions = AWS_LOCATIONS ->
  forall region, In region (provider_regions ++ SHARED_LOCATIONS) ->
                 In region all_regions.
Proof.
  intros [->| ->] region; unfold all_regions; simpl; tauto.
Qed.

Section Generic.

Variable ppf : Q -> pyfloat.
Variable get_lowest : list moer_sample -> result moer_sample.
Variable map_location : string -> option string.
Variable get_threshold : list percentile_sample -> Q -> list percentile_sample.

Let decide := schedule_decision ppf get_lowest map_location get_threshold.

Lemma decide_case1 (j : job) percentiles co2_moers now :
  time_sensitive j = true -> location_switch j = false ->
  decide j percentiles co2_moers now = Ok (Some (location j)).
Proof.
  intros T L. unfold decide, schedule_decision. now rewrite T, L.
Qed.

Lemma decide_case2 (j : job) percentiles co2_moers now :
  time_sensitive j = true -> location_switch j = true ->
  decide j percentiles co2_moers now
  = rbind (get_lowest co2_moers)
          (fun lowest => Ok (map_location (m_region lowest))).
Proof.
  intros T L. unfold decide, schedule_decision. now rewrite T, L.
Qed.

Lemma decide_case3 (j : job) percentiles co2_moers now :
  time_sensitive j = false -> location_switch j = false ->
  decide j percentiles co2_moers now
  = if no_earlier_match map_location get_threshold j percentiles
    then timeout_check j now else Ok (Some (location j)).
Proof.
  intros T L. unfold decide, schedule_decision, no_earlier_match.
  rewrite T, L. simpl.
  destruct (find _ _) as [m|] eqn:F.
  - apply find_some in F. destruct F as [Hin Hm].
    assert (E : existsb (fun m0 => opt_str_eqb (map_location (s_region m0))
                                               (Some (location j)))
                        (get_threshold percentiles (percentile_threshold j))
                = true).
    { apply existsb_exists. now exists m. }
    rewrite E. simpl. now rewrite (opt_str_eqb_some _ _ Hm).
  - assert (E : existsb (fun m0 => opt_str_eqb (map_location (s_region m0))
                                               (Some (location j)))
                        (get_threshold percentiles (percentile_threshold j))
                = false).
    { destruct (existsb _ _) eqn:E; [|reflexivity].
      apply existsb_exists in E. destruct E as (m & Hin & Hm).
      now rewrite (find_none _ _ F m Hin) in Hm. }
    now rewrite E.
Qed.

Lemma decide_case4 (j : job) percentiles co2_moers now :
  time_sensitive j = false -> location_switch j = true ->
  decide j percentiles co2_moers now
  = match get_threshold percentiles (percentile_threshold j) with
    | [] => timeout_check j now
    | (_ :: _) as matches =>
        rbind (percentile_to_gco2 ppf matches) (fun gco2s =>
        rbind (get_lowest (gco2_to_moer gco2s)) (fun lowest =>
        Ok (map_location (m_region lowest))))
    end.
Proof.
  intros T L. unfold decide, schedule_decision. rewrite T, L. simpl.
  now destruct (get_threshold _ _).
Qed.

(** What the decision returns for a job that is not time-sensitive when no
    earlier case matched, and in case 3 after twelve hours. *)
Lemma decide_timeout (j : job) percentiles co2_moers now :
  time_sensitive j = false ->
  (location_switch j = false -> twelve_hours <= now - submitted j ->
   decide j percentiles co2_moers now = Ok (Some (location j)))
  /\ (no_earlier_match map_location get_threshold j percentiles = true ->
      decide j percentiles co2_moers now
      = if twelve_hours <=? now - submitted j
        then Ok (Some (location j)) else Ok None).
Proof.
  intros T. split.
  - intros L H. rewrite decide_case3 by assumption.
    destruct (no_earlier_match _ _ _ _); [|reflexivity].
    unfold timeout_check. apply Z.leb_le in H. now rewrite H.
  - intros N. destruct (location_switch j) eqn:L.
    + rewrite decide_case4 by assumption.
      unfold no_earlier_match in N. rewrite L in N.
      destruct (get_threshold _ _); [reflexivity|discriminate].
    + rewrite decide_case3 by assumption. now rewrite N.
Qed.

End Generic.

(** ** The selection of the lowest metric *)


Lemma fle_trans (x y z : pyfloat) :
  fle x y = true -> fle y z = true -> fle x z = true.
Proof.
  destruct x, y, z; simpl; try congruence.
  rewrite !Qle_bool_iff. apply Qle_trans.
Qed.

Lemma flt_fle (x y : pyfloat) : flt x y = true -> fle x y = true.
Proof.
  destruct x, y; simpl; try congruence. unfold Qltb.
  rewrite negb_true_iff. intros H.
  apply Qle_bool_iff, Qlt_le_weak, Qnot_le_lt. intros C.
  apply Qle_bool_iff in C. congruence.
Qed.

Lemma not_flt_fle (x y : pyfloat) :
  is_nan x = false -> is_nan y = false -> flt x y = false -> fle y x = true.
Proof.
  destruct x, y; simpl; try congruence. unfold Qltb.
  intros _ _. now rewrite negb_false_iff.
Qed.

Lemma fle_refl (x : pyfloat) : is_nan x = false -> fle x x = true.
Proof.
  destruct x; simpl; try congruence. intros _.
  apply Qle_bool_iff. apply Qle_refl.
Qed.

(** The loop of [get_lowest_*_co2_moer], started from an eligible entry:
    it ends on an eligible entry whose metric is at most that of every
    eligible entry it went over. *)
Lemma lowest_fold (eligible : list string) (l : list moer_sample) :
  Forall (fun c => is_nan (m_co2_moer c) = false) l ->
  forall acc,
    is_nan (m_co2_moer acc) = false ->
    str_in (m_region acc) eligible = true ->
    let r := fold_left (lowest_step eligible) l acc in
    str_in (m_region r) eligible = true
    /\ is_nan (m_co2_moer r) = false
    /\ fle (m_co2_moer r) (m_co2_moer acc) = true
    /\ (r = acc \/ In r l)
    /\ forall c, In c l -> str_in (m_region c) eligible = true ->
                 fle (m_co2_moer r) (m_co2_moer c) = true.
Proof.
  induction 1 as [|c l Hc Hl IH]; intros acc Ha He; simpl.
  - repeat split; auto using fle_refl; try (now intros ? []).
  - set (acc' := lowest_step eligible acc c).
    assert (Hstep : (acc' = c /\ flt (m_co2_moer c) (m_co2_moer acc) = true
                     /\ str_in (m_region c) eligible = true)
                    \/ (acc' = acc
                        /\ (flt (m_co2_moer c) (m_co2_moer acc) = false
                            \/ str_in (m_region c) eligible = false))).
    { unfold acc', lowest_step.
      destruct (flt (m_co2_moer c) (m_co2_moer acc)) eqn:F;
        destruct (str_in (m_region c) eligible) eqn:S; simpl; auto. }
    assert (Ha' : is_nan (m_co2_moer acc') = false)
      by (destruct Hstep as [(-> & _)|(-> & _)]; assumption).
    assert (He' : str_in (m_region acc') eligible = true)
      by (destruct Hstep as [(-> & _ & E)|(-> & _)]; assumption).
    assert (Hle : fle (m_co2_moer acc') (m_co2_moer acc) = true).
    { destruct Hstep as [(-> & F & _)|(-> & _)];
        [now apply flt_fle | now apply fle_refl]. }
    destruct (IH acc' Ha' He') as (R1 & R2 & R3 & R4 & R5).
    repeat split; try assumption.
    + eapply fle_trans; eassumption.
    + destruct R4 as [R4|R4]; [|now right; right].
      rewrite R4. destruct Hstep as [(-> & _)|(-> & _)]; [right; now left|now left].
    + intros c' [<-|Hin] Hel; [|now apply R5].
      eapply fle_trans; [exact R3|].
      destruct Hstep as [(-> & _)|(-> & [F|S])].
      * now apply fle_refl.
      * now apply not_flt_fle.
      * congruence.
Qed.

(** When the first entry of the list is eligible (and no metric is NaN), the
    selection is an eligible entry of the list with the lowest metric among
    the eligible ones. *)
Lemma get_lowest_first_eligible (eligible : list string)
    (first : moer_sample) (rest : list moer_sample) :
  Forall (fun c => is_nan (m_co2_moer c) = false) (first :: rest) ->
  str_in (m_region first) eligible = true ->
  exists r,
    get_lowest_co2_moer eligible (first :: rest) = Ok r
    /\ In r (first :: rest)
    /\ str_in (m_region r) eligible = true
    /\ forall c, In c (first :: rest) -> str_in (m_region c) eligible = true ->
                 fle (m_co2_moer r) (m_co2_moer c) = true.
Proof.
  intros Hall He. unfold get_lowest_co2_moer.
  pose proof (Forall_inv Hall) as Hf.
  destruct (lowest_fold eligible Hall first Hf He) as (R1 & _ & _ & R4 & R5).
  eexists. split; [reflexivity|]. repeat split; try assumption.
  destruct R4 as [->|R4]; [now left|assumption].
Qed.

(** The selection starts from the first entry of the list without testing
    its region.  Called on its own on a list that starts with an ineligible
    entry holding the lowest metric, it returns that entry, whose region
    maps to no location of the provider.  No pass builds such a list: the
    list of a pass starts with [CAISO_NORTH], which both providers share. *)
Example lowest_takes_ineligible_first :
  let aws_snapshot := [mk_moer "FR" (Fin 1); mk_moer "SE" (Fin 5)] in
  let azure_snapshot := [mk_moer "SE" (Fin 1); mk_moer "FR" (Fin 5)] in
  (str_in "FR" (AWS_LOCATIONS ++ SHARED_LOCATIONS) = false
   /\ str_in "SE" (AWS_LOCATIONS ++ SHARED_LOCATIONS) = true
   /\ get_lowest_aws_co2_moer aws_snapshot = Ok (mk_moer "FR" (Fin 1))
   /\ aws_schedule_decision ppf_standin urgent_switchable [] aws_snapshot 0
      = Ok None
   /\ map_aws_location "SE" = Some "eu-north-1")
  /\ (str_in "SE" (AZURE_LOCATIONS ++ SHARED_LOCATIONS) = false
      /\ str_in "FR" (AZURE_LOCATIONS ++ SHARED_LOCATIONS) = true
      /\ get_lowest_azure_co2_moer azure_snapshot = Ok (mk_moer "SE" (Fin 1))
      /\ azure_schedule_decision ppf_standin urgent_switchable [] azure_snapshot 0
         = Ok None
      /\ map_azure_location "FR" = Some "France Central").
Proof. repeat split; reflexivity. Qed.

(** C6.  A time-sensitive job that may not switch location is sent to its
    fixed location by both providers' decisions, whatever the percentiles,
    the metrics (empty lists included) and the time. *)
Theorem case1_fixed_location (ppf : Q -> pyfloat) (j : job)
    (percentiles : list percentile_sample) (co2_moers : list moer_sample)
    (now : Z) :
  time_sensitive j = true -> location_switch j = false ->
  azure_schedule_decision ppf j percentiles co2_moers now
    = Ok (Some (location j))
  /\ aws_schedule_decision ppf j percentiles co2_moers now
    = Ok (Some (location j)).
Proof.
  intros T L. split; now apply decide_case1.
Qed.

Lemma case1_fixed_location_witness :
  azure_schedule_decision ppf_standin urgent_fixed [] [] 0 = Ok (Some "East US")
  /\ aws_schedule_decision ppf_standin urgent_fixed [] [] 0 = Ok (Some "East US").
Proof.
  apply (@case1_fixed_location ppf_standin urgent_fixed [] [] 0); reflexivity.
Defined.

(** C4, as stated, fails in case 4: thirteen hours after submission a job
    that may switch location is still sent to the region within its
    threshold, not to its fixed location. *)
Lemma timeout_does_not_override_case4 :
  time_sensitive patient_switchable = false
  /\ twelve_hours <= 13 * 3600 * 1000000 - submitted patient_switchable
  /\ azure_schedule_decision ppf_standin patient_switchable
       [mk_sample "FR" 10] [] (13 * 3600 * 1000000)
     = Ok (Some "France Central")
  /\ Some "France Central" <> Some (location patient_switchable).
Proof.
  repeat split; try reflexivity.
  - vm_compute. discriminate.
  - discriminate.
Qed.

(** C4, amended.  For a job that is not time-sensitive: in case 3 the
    decision, twelve hours or more after submission, is the fixed location
    whatever the snapshot and the threshold; and whenever no earlier case
    matched (in case 4: no eligible region is within the threshold), the
    decision is the fixed location from twelve hours on and [None]
    before. *)
Theorem timeout_fixed_location (ppf : Q -> pyfloat) (j : job)
    (percentiles : list percentile_sample) (co2_moers : list moer_sample)
    (now : Z) :
  time_sensitive j = false ->
  (location_switch j = false -> twelve_hours <= now - submitted j ->
   azure_schedule_decision ppf j percentiles co2_moers now
     = Ok (Some (location j))
   /\ aws_schedule_decision ppf j percentiles co2_moers now
     = Ok (Some (location j)))
  /\ (no_earlier_match map_azure_location get_azure_percentile_threshold
                       j percentiles = true ->
      azure_schedule_decision ppf j percentiles co2_moers now
      = if twelve_hours <=? now - submitted j
        then Ok (Some (location j)) else Ok None)
  /\ (no_earlier_match map_aws_location get_aws_percentile_threshold
                       j percentiles = true ->
      aws_schedule_decision ppf j percentiles co2_moers now
      = if twelve_hours <=? now - submitted j
        then Ok (Some (location j)) else Ok None).
Proof.
  intros T. repeat split.
  - now apply decide_timeout.
  - now apply decide_timeout.
  - now apply decide_timeout.
  - now apply decide_timeout.
Qed.

Lemma timeout_fixed_location_witness :
  azure_schedule_decision ppf_standin patient_fixed
    [mk_sample "PJM_ROANOKE" 80] [] twelve_hours = Ok (Some "East US")
  /\ aws_schedule_decision ppf_standin patient_fixed
    [mk_sample "PJM_ROANOKE" 80] [] twelve_hours = Ok (Some "East US").
Proof.
  apply (@timeout_fixed_location ppf_standin patient_fixed
           [mk_sample "PJM_ROANOKE" 80] [] twelve_hours).
  - reflexivity.
  - reflexivity.
  - vm_compute. discriminate.
Defined.

End Policy.

(* ================================================================== *)
(** * Properties of [get_region_percentiles] *)
(* ================================================================== *)

Ltac unfold_setters :=
  unfold set_azure_jobs, set_aws_jobs, set_vm_jobs, set_vm_clients, set_TOKEN,
    set_instance_id, set_aws_region_client, set_next_client, set_calls in *;
  simpl in *.

Module Fetch.

Lemma count_app (p : call -> bool) (l1 l2 : list call) :
  count p (l1 ++ l2) = (count p l1 + count p l2)%nat.
Proof. unfold count. now rewrite filter_app, length_app. Qed.

Lemma calls_since_app (st st' : state) (new : list call) :
  calls st' = calls st ++ new -> calls_since st st' = new.
Proof.
  intros E. unfold calls_since. rewrite E.
  rewrite skipn_app, skipn_all, Nat.sub_diag. reflexivity.
Qed.

Lemma snapshot_regions (resp : string -> response) (regions : list string)
    (s : percentile_sample) :
  In s (snapshot_of resp regions)
  <-> In (s_region s) regions /\ ok (resp (s_region s)) = true
      /\ s = mk_sample (s_region s) (value (resp (s_region s))).
Proof.
  unfold snapshot_of. rewrite in_flat_map. split.
  - intros (r & Hr & Hs). destruct (ok (resp r)) eqn:E; [|destruct Hs].
    destruct Hs as [<-|[]]. simpl. auto.
  - intros (Hr & E & Hs). exists (s_region s). split; [assumption|].
    rewrite E. left. now symmetry.
Qed.

(** [WattTime.get_current] never hands back a response that is not ok. *)
Lemma WattTime_get_current_ok (r r' : response) :
  WattTime_get_current r = Ok r' -> r' = r /\ ok r = true.
Proof.
  unfold WattTime_get_current, raise_for_status, ok.
  destruct (is_http_error r); simpl; [discriminate|].
  intros E. injection E as <-. auto.
Qed.

Lemma WattTime_get_current_returns (r : response) :
  ok r = true -> WattTime_get_current r = Ok r.
Proof.
  unfold WattTime_get_current, raise_for_status, ok.
  now destruct (is_http_error r).
Qed.

Lemma WattTime_get_current_raises (r : response) :
  ok r = false -> WattTime_get_current r = Raise HTTPError.
Proof.
  unfold WattTime_get_current, raise_for_status, ok.
  now destruct (is_http_error r).
Qed.

End Fetch.

(* ================================================================== *)
(** * The lowest-metric selection and the empty snapshot *)
(* ================================================================== *)

Module Lowest.

Import Policy.

(** Case 4 hands the selection the metrics of the regions within the
    threshold, a list that the guard [matches != []] keeps non-empty. *)
Lemma case4_defined (ppf : Q -> pyfloat) (provider_regions : list string)
    (map_location : string -> option string) (j : job)
    (percentiles : list percentile_sample) (co2_moers : list moer_sample)
    (now : Z) :
  provider_regions = AZURE_LOCATIONS \/ provider_regions = AWS_LOCATIONS ->
  time_sensitive j = false -> location_switch j = true ->
  let eligible := provider_regions ++ SHARED_LOCATIONS in
  let matches :=
    get_percentile_threshold eligible percentiles (percentile_threshold j) in
  matches <> [] ->
  exists gco2s m,
    percentile_to_gco2 ppf matches = Ok gco2s
    /\ gco2_to_moer gco2s <> []
    /\ get_lowest_co2_moer eligible (gco2_to_moer gco2s) = Ok m
    /\ schedule_decision ppf (get_lowest_co2_moer eligible) map_location
         (get_percentile_threshold eligible) j percentiles co2_moers now
       = Ok (map_location (m_region m)).
Proof.
  intros Hp T L eligible matches Hne.
  assert (Hall : Forall (fun s => In (s_region s) all_regions) matches).
  { eapply Forall_impl; [|apply threshold_matches_eligible].
    intros s. now apply eligible_known. }
  destruct (Translator.percentile_to_gco2_total ppf Hall) as (gs & E & Hm).
  assert (Hgs : gco2_to_moer gs <> []).
  { destruct gs; [|discriminate].
    destruct matches; [congruence|discriminate]. }
  destruct (gco2_to_moer gs) as [|c cs] eqn:Eg; [congruence|].
  exists gs. eexists. split; [assumption|]. rewrite Eg.
  split; [discriminate|]. split; [reflexivity|].
  rewrite decide_case4 by assumption.
  fold matches. destruct matches as [|m0 ms]; [congruence|].
  rewrite E. simpl. rewrite Eg. reflexivity.
Qed.

End Lowest.

(* ================================================================== *)
(** * Reasoning about the monad and its loops *)
(* ================================================================== *)

Module Loop.

Section Steps.

Variable R : state -> state -> Prop.
Hypothesis R_refl : forall st, R st st.
Hypothesis R_trans : forall a b c, R a b -> R b c -> R a c.

Lemma steps_ret {A} (a : A) : steps R (ret a).
Proof. intros st. apply R_refl. Qed.

Lemma steps_raise {A} (e : exn) : steps R (@raise A e).
Proof. intros st. apply R_refl. Qed.

Lemma steps_lift {A} (r : result A) : steps R (lift r).
Proof. intros st. apply R_refl. Qed.

Lemma steps_get : steps R get.
Proof. intros st. apply R_refl. Qed.

Lemma steps_modify (f : state -> state) :
  (forall st, R st (f st)) -> steps R (modify f).
Proof. intros H st. apply H. Qed.

Lemma steps_bind {A B} (c : M A) (k : A -> M B) :
  steps R c -> (forall a, steps R (k a)) -> steps R (bind c k).
Proof.
  intros Hc Hk st. unfold bind. specialize (Hc st).
  destruct (c st) as [[a|e] st1]; simpl in *.
  - eapply R_trans; [exact Hc|apply Hk].
  - exact Hc.
Qed.

Lemma steps_for_in {X} (lst : state -> list X) (body : nat -> X -> M unit) :
  (forall i x, steps R (body i x)) ->
  forall fuel i, steps R (for_in fuel lst body i).
Proof.
  intros Hb. induction fuel as [|fuel IH]; intros i st; simpl.
  - destruct (nth_error (lst st) i); apply R_refl.
  - destruct (nth_error (lst st) i) as [x|]; [|apply R_refl].
    apply steps_bind; [apply Hb | intros _; apply IH].
Qed.

End Steps.

(** ** Fuel *)

Lemma never_out_ret {A} (a : A) : never_out (ret a).
Proof. intros st. discriminate. Qed.

Lemma never_out_raise {A} (e : exn) : e <> OutOfFuel -> never_out (@raise A e).
Proof. intros H st. simpl. congruence. Qed.

Lemma never_out_get : never_out get.
Proof. intros st. discriminate. Qed.

Lemma never_out_modify (f : state -> state) : never_out (modify f).
Proof. intros st. discriminate. Qed.

Lemma never_out_emit (c : call) : never_out (emit c).
Proof. intros st. discriminate. Qed.

Lemma never_out_lift {A} (r : result A) :
  r <> Raise OutOfFuel -> never_out (lift r).
Proof. intros H st. exact H. Qed.

Lemma never_out_bind {A B} (c : M A) (k : A -> M B) :
  never_out c -> (forall a, never_out (k a)) -> never_out (bind c k).
Proof.
  intros Hc Hk st. unfold bind. specialize (Hc st).
  destruct (c st) as [[a|e] st1]; simpl in *.
  - apply Hk.
  - intros E. apply Hc. congruence.
Qed.

(** A loop whose body does not grow the list it goes over ends within as
    many steps as the list had elements left. *)
Lemma for_in_fuel {X} (lst : state -> list X) (body : nat -> X -> M unit) :
  (forall i x, steps (shrinks lst) (body i x)) ->
  (forall i x, never_out (body i x)) ->
  forall fuel i st,
    (length (lst st) <= i + fuel)%nat ->
    fst (for_in fuel lst body i st) <> Raise OutOfFuel.
Proof.
  intros Hs Hn. induction fuel as [|fuel IH]; intros i st Hlen; simpl.
  - destruct (nth_error (lst st) i) eqn:E; [|discriminate].
    assert (i < length (lst st))%nat by (apply nth_error_Some; congruence).
    lia.
  - destruct (nth_error (lst st) i) as [x|] eqn:E; [|discriminate].
    unfold bind. pose proof (Hs i x st) as S1. pose proof (Hn i x st) as N1.
    destruct (body i x st) as [[u|e] st1]; simpl in *; [|exact N1].
    apply IH. unfold shrinks in S1. lia.
Qed.

End Loop.

(* ================================================================== *)
(** * The ledger: [vm_jobs] and the start calls *)
(* ================================================================== *)

Module Ledger.

Lemma dict_get_set_same {V} (k : string) (v : V) (d : dict V) :
  dict_get k (dict_set k v d) = Some v.
Proof.
  induction d as [|[k' v'] d IH]; simpl.
  - now rewrite String.eqb_refl.
  - destruct (String.eqb_spec k' k) as [->|Hne]; simpl.
    + now rewrite String.eqb_refl.
    + destruct (String.eqb_spec k' k); [contradiction|exact IH].
Qed.

Lemma dict_get_set_other {V} (k k' : string) (v : V) (d : dict V) :
  k <> k' -> dict_get k' (dict_set k v d) = dict_get k' d.
Proof.
  intros Hne. induction d as [|[k0 v0] d IH]; simpl.
  - destruct (String.eqb_spec k k'); [contradiction|reflexivity].
  - destruct (String.eqb_spec k0 k) as [->|Hne0]; simpl.
    + destruct (String.eqb_spec k k'); [contradiction|reflexivity].
    + destruct (String.eqb_spec k0 k'); [reflexivity|exact IH].
Qed.

Lemma list_remove_length {X} (eqb : X -> X -> bool) (x : X) (l l' : list X) :
  list_remove eqb x l = Some l' -> length l = S (length l').
Proof.
  revert l'. induction l as [|y l IH]; intros l'; simpl; [discriminate|].
  destruct (eqb y x).
  - intros E. now injection E as <-.
  - destruct (list_remove eqb x l) as [l0|]; simpl; [|discriminate].
    intros E. injection E as <-. simpl. f_equal. now apply IH.
Qed.

(** ** The relations are preorders *)

Lemma quiet_refl (p : call -> bool) (st : state) : quiet p st st.
Proof. exists []. now rewrite app_nil_r. Qed.

Lemma quiet_trans (p : call -> bool) (a b c : state) :
  quiet p a b -> quiet p b c -> quiet p a c.
Proof.
  intros (n1 & E1 & C1) (n2 & E2 & C2). exists (n1 ++ n2).
  rewrite E2, E1, <- app_assoc. split; [reflexivity|].
  rewrite Fetch.count_app. lia.
Qed.

Lemma shrinks_refl {X} (lst : state -> list X) (st : state) : shrinks lst st st.
Proof. unfold shrinks. lia. Qed.

Lemma shrinks_trans {X} (lst : state -> list X) (a b c : state) :
  shrinks lst a b -> shrinks lst b c -> shrinks lst a c.
Proof. unfold shrinks. lia. Qed.

Lemma started_once_refl (name : string) (st : state) : started_once name st st.
Proof.
  exists []. rewrite app_nil_r. repeat split; [lia|].
  now destruct (Nat.eqb (active name st) 0).
Qed.

Lemma started_once_trans (name : string) (a b c : state) :
  started_once name a b -> started_once name b c -> started_once name a c.
Proof.
  intros (n1 & E1 & L1 & C1) (n2 & E2 & L2 & C2). exists (n1 ++ n2).
  rewrite E2, E1, <- app_assoc. split; [reflexivity|]. split; [lia|].
  rewrite Fetch.count_app, C1, C2.
  destruct (Nat.eqb_spec (active name a) 0), (Nat.eqb_spec (active name b) 0),
    (Nat.eqb_spec (active name c) 0); simpl; lia.
Qed.

(** A change that touches neither [vm_jobs] nor the start calls of
    [name]. *)
Lemma started_once_neutral (name : string) (st st' : state)
    (new : list call) :
  vm_jobs st' = vm_jobs st ->
  calls st' = calls st ++ new ->
  count (is_start name) new = 0%nat ->
  started_once name st st'.
Proof.
  intros Ej Ec C. exists new. unfold active, jobs_of. rewrite Ej.
  split; [assumption|]. split; [lia|].
  rewrite C. now destruct (Nat.eqb _ 0).
Qed.

(** ** Straight-line code that leaves the ledger and the start calls alone *)

Section Neutral.

Variable name : string.

Let R := started_once name.

Lemma neutral_emit (c : call) : is_start name c = false -> steps R (emit c).
Proof.
  intros H st. apply started_once_neutral with (new := [c]).
  - now destruct st.
  - now destruct st.
  - unfold count. simpl. now rewrite H.
Qed.

Lemma neutral_modify (f : state -> state) :
  (forall st, vm_jobs (f st) = vm_jobs st /\ calls (f st) = calls st) ->
  steps R (modify f).
Proof.
  intros H st. destruct (H st) as [Hj Hc].
  apply started_once_neutral with (new := []); simpl; auto.
  now rewrite app_nil_r.
Qed.

Lemma neutral_bind {A B} (c : M A) (k : A -> M B) :
  steps R c -> (forall a, steps R (k a)) -> steps R (bind c k).
Proof.
  apply Loop.steps_bind. apply started_once_trans.
Qed.

Lemma neutral_ledger_clients (n : string) : steps R (ledger_clients n).
Proof.
  intros st. unfold ledger_clients, bind, get.
  destruct (dict_get n (vm_clients st)); apply started_once_refl.
Qed.


Lemma neutral_open_session (t : job_type) (j : job) (vm_info : vm)
    (aws_client : option string) :
  steps R (open_session t j vm_info aws_client).
Proof.
  unfold open_session, new_ssh_client, append_client.
  repeat (apply neutral_bind; [|intros ?]);
    try (apply neutral_emit; reflexivity);
    try (apply neutral_modify; intros st; now destruct st);
    try apply neutral_ledger_clients;
    try (apply Loop.steps_get, started_once_refl);
    try (apply Loop.steps_ret, started_once_refl).
  destruct (dict_get _ _);
    [apply Loop.steps_ret|apply Loop.steps_raise]; apply started_once_refl.
Qed.

(** Lines 335-342 and 374-383: the start guarded by the emptiness of the
    VM's list, followed by the append. *)
Lemma assign_started_once (n : string) (start : M unit) (e : ledger_entry)
    (rest : M unit) :
  starter n start ->
  steps R rest ->
  steps R (jobs <- ledger_jobs n ;;
           (if Nat.eqb (length jobs) 0 then start else ret tt) ;;
           append_job n e ;;
           rest).
Proof.
  intros Hs Hr st.
  unfold bind at 1. unfold ledger_jobs at 1. unfold bind at 1. unfold get at 1.
  destruct (dict_get n (vm_jobs st)) as [l|] eqn:El; simpl;
    [|apply started_once_refl].
  assert (Happ : forall st1 new,
            st1 = set_calls st (calls st ++ new) ->
            count (is_start name) new
            = (if Nat.eqb (length l) 0 && (n =? name)%string then 1%nat else 0%nat) ->
            R st (snd ((append_job n e ;; rest) st1))).
  { intros st1 new -> Hc.
    unfold bind at 1. unfold append_job, ledger_jobs, bind, get, modify.
    replace (vm_jobs (set_calls st (calls st ++ new))) with (vm_jobs st)
      by now destruct st.
    rewrite El. simpl.
    set (st2 := set_vm_jobs (set_calls st (calls st ++ new))
                            (dict_set n (l ++ [e]) (vm_jobs st))).
    eapply started_once_trans; [|apply Hr].
    exists new. split; [now destruct st|].
    unfold active, jobs_of, st2.
    replace (vm_jobs (set_vm_jobs (set_calls st (calls st ++ new))
                                  (dict_set n (l ++ [e]) (vm_jobs st))))
      with (dict_set n (l ++ [e]) (vm_jobs st)) by now destruct st.
    rewrite Hc. clear Hc.
    destruct (String.eqb_spec n name) as [->|Hne].
    - rewrite dict_get_set_same, El, length_app. simpl.
      split; [lia|]. rewrite andb_true_r.
      replace (Nat.eqb (length l + 1) 0) with false
        by (symmetry; apply Nat.eqb_neq; lia).
      now rewrite andb_true_r.
    - rewrite dict_get_set_other by assumption.
      split; [lia|]. rewrite andb_false_r.
      now destruct (Nat.eqb _ 0). }
  destruct (Nat.eqb (length l) 0) eqn:E0.
  - unfold bind at 1.
    destruct (Hs st) as [(ex & ->)|(new & -> & Hc)].
    + simpl. apply started_once_refl.
    + apply (Happ _ new eq_refl). rewrite Hc. simpl.
      now destruct (n =? name)%string.
  - unfold bind at 1. simpl.
    apply (Happ st []).
    + destruct st. unfold set_calls. simpl. now rewrite app_nil_r.
    + reflexivity.
Qed.

End Neutral.

Section Dispatch.

Variable ppf : Q -> pyfloat.
Variables azure_vms aws_vms : list vm.
Variable name : string.

Let R := started_once name.

Lemma azure_starter (rg : option string) (n : string) :
  starter n (emit (begin_start rg n)).
Proof.
  intros st. right. exists [begin_start rg n]. split; [reflexivity|].
  intros v. unfold count. simpl. now destruct (n =? v)%string.
Qed.

Lemma aws_starter (client : option string) (n : string) :
  starter n (match client with
             | None => raise AttributeError
             | Some session =>
                 emit (instance_start session n) ;;
                 emit (wait_instance_running session n)
             end).
Proof.
  intros st. destruct client as [session|].
  - right. exists [instance_start session n; wait_instance_running session n].
    split.
    + unfold bind, emit, modify. simpl. destruct st. unfold set_calls. simpl.
      now rewrite <- app_assoc.
    + intros v. unfold count. simpl. now destruct (n =? v)%string.
  - left. now exists AttributeError.
Qed.

Lemma azure_dispatch_started_once (azure_job : job) (region : string) :
  steps R (azure_dispatch azure_vms azure_job region).
Proof.
  unfold azure_dispatch.
  apply neutral_bind; [apply Loop.steps_get, started_once_refl|intros st0].
  destruct (list_remove _ _ _);
    [|apply Loop.steps_raise, started_once_refl].
  apply neutral_bind;
    [apply neutral_modify; intros st; now destruct st|intros _].
  destruct (get_azure_vm_by_region _ _) as [vm_info|];
    [|apply Loop.steps_raise, started_once_refl].
  apply assign_started_once.
  - apply azure_starter.
  - apply neutral_open_session.
Qed.

Lemma aws_dispatch_started_once (aws_job : job) (region : string) :
  steps R (aws_dispatch aws_vms aws_job region).
Proof.
  unfold aws_dispatch.
  apply neutral_bind; [apply Loop.steps_get, started_once_refl|intros st0].
  destruct (list_remove _ _ _);
    [|apply Loop.steps_raise, started_once_refl].
  apply neutral_bind;
    [apply neutral_modify; intros st; now destruct st|intros _].
  apply neutral_bind;
    [apply neutral_modify; intros st; now destruct st|intros _].
  destruct (get_aws_vm_by_region _ _) as [vm_info|];
    [|apply Loop.steps_raise, started_once_refl].
  apply neutral_bind;
    [apply neutral_modify; intros st; now destruct st|intros _].
  apply assign_started_once.
  - apply aws_starter.
  - apply neutral_open_session.
Qed.

Lemma schedule_started_once (w : world)
    (percentiles : list percentile_sample) (co2_moers : list moer_sample) :
  steps R (schedule ppf azure_vms aws_vms w percentiles co2_moers).
Proof.
  unfold schedule, azure_loop, aws_loop.
  apply neutral_bind; [|intros _];
    (apply neutral_bind; [apply Loop.steps_get, started_once_refl|intros st0]);
    (apply Loop.steps_for_in;
     [apply started_once_refl|apply started_once_trans|intros i j]);
    (apply neutral_bind; [apply Loop.steps_lift, started_once_refl|intros r]);
    (destruct r as [region|]; [|apply Loop.steps_ret, started_once_refl]).
  - apply azure_dispatch_started_once.
  - apply aws_dispatch_started_once.
Qed.

End Dispatch.

(** ** A dispatch appends at most one entry *)

Lemma keeps_ledger_refl (st : state) : keeps_ledger st st.
Proof. reflexivity. Qed.

Lemma keeps_ledger_trans (a b c : state) :
  keeps_ledger a b -> keeps_ledger b c -> keeps_ledger a c.
Proof. unfold keeps_ledger. congruence. Qed.

Ltac keeps_ledger_steps :=
  repeat first
    [ apply (Loop.steps_bind keeps_ledger_trans); [|intros ?]
    | apply Loop.steps_modify; intros st; now destruct st
    | apply Loop.steps_ret, keeps_ledger_refl
    | apply Loop.steps_raise, keeps_ledger_refl
    | apply Loop.steps_get, keeps_ledger_refl
    | apply Loop.steps_lift, keeps_ledger_refl
    | match goal with
      | |- steps _ (match ?x with _ => _ end) => destruct x
      end ].

Lemma open_session_keeps_ledger (t : job_type) (j : job) (vm_info : vm)
    (aws_client : option string) :
  steps keeps_ledger (open_session t j vm_info aws_client).
Proof.
  unfold open_session, new_ssh_client, append_client, ledger_clients, emit.
  keeps_ledger_steps.
Qed.

Lemma assign_appends (n : string) (start : M unit) (e : ledger_entry)
    (rest : M unit) :
  starter n start ->
  steps keeps_ledger rest ->
  steps appended_at_most_once
        (jobs <- ledger_jobs n ;;
         (if Nat.eqb (length jobs) 0 then start else ret tt) ;;
         append_job n e ;;
         rest).
Proof.
  intros Hs Hr st.
  unfold bind at 1. unfold ledger_jobs at 1. unfold bind at 1. unfold get at 1.
  destruct (dict_get n (vm_jobs st)) as [l|] eqn:El; simpl; [|now left].
  assert (Happ : forall st1,
            vm_jobs st1 = vm_jobs st ->
            appended_at_most_once st (snd ((append_job n e ;; rest) st1))).
  { intros st1 E1.
    unfold bind at 1. unfold append_job, ledger_jobs, bind, get, modify.
    rewrite E1, El. simpl. right. exists n, l, e. split; [assumption|].
    rewrite (Hr _). rewrite <- E1. now destruct st1. }
  destruct (Nat.eqb (length l) 0).
  - unfold bind at 1.
    destruct (Hs st) as [(ex & ->)|(new & -> & _)]; [now left|].
    apply Happ. now destruct st.
  - unfold bind at 1. simpl. now apply Happ.
Qed.

Lemma appended_after_kept (a b : state) (c : M unit) :
  keeps_ledger a b -> steps appended_at_most_once c ->
  appended_at_most_once a (snd (c b)).
Proof.
  intros E H. specialize (H b). unfold appended_at_most_once in *.
  now rewrite E in H.
Qed.

Lemma azure_dispatch_appends (azure_vms : list vm) (azure_job : job)
    (region : string) :
  steps appended_at_most_once (azure_dispatch azure_vms azure_job region).
Proof.
  intros st. unfold azure_dispatch.
  unfold bind at 1. unfold get at 1.
  destruct (list_remove _ _ _) as [l|]; [|now left].
  unfold bind at 1. unfold modify at 1.
  destruct (get_azure_vm_by_region _ _) as [vm_info|]; [|now left].
  apply appended_after_kept; [now destruct st|].
  apply assign_appends;
    [apply azure_starter | apply open_session_keeps_ledger].
Qed.

Lemma aws_dispatch_appends (aws_vms : list vm) (aws_job : job)
    (region : string) :
  steps appended_at_most_once (aws_dispatch aws_vms aws_job region).
Proof.
  intros st. unfold aws_dispatch.
  unfold bind at 1. unfold get at 1.
  destruct (list_remove _ _ _) as [l|]; [|now left].
  unfold bind at 1. unfold modify at 1.
  unfold bind at 1. unfold modify at 1.
  destruct (get_aws_vm_by_region _ _) as [vm_info|]; [|now left].
  unfold bind at 1. unfold modify at 1.
  apply appended_after_kept; [now destruct st|].
  apply assign_appends;
    [apply aws_starter | apply open_session_keeps_ledger].
Qed.

Lemma appended_active (name : string) (st st' : state) :
  appended_at_most_once st st' ->
  (active name st' <= S (active name st))%nat.
Proof.
  unfold active, jobs_of. intros [->|(n & l & e & El & ->)]; [lia|].
  destruct (String.eqb_spec n name) as [->|Hne].
  - rewrite dict_get_set_same, El, length_app. simpl. lia.
  - rewrite dict_get_set_other by assumption. lia.
Qed.

End Ledger.

(* ================================================================== *)
(** * One pass of the loop *)
(* ================================================================== *)

Module Tick.

Import Ledger.

Lemma quiet_emit (p : call -> bool) (c : call) :
  p c = false -> steps (quiet p) (emit c).
Proof.
  intros H st. exists [c]. split; [now destruct st|].
  unfold count. simpl. now rewrite H.
Qed.

Lemma quiet_modify (p : call -> bool) (f : state -> state) :
  (forall st, calls (f st) = calls st) -> steps (quiet p) (modify f).
Proof.
  intros H st. exists []. simpl. now rewrite H, app_nil_r.
Qed.

Ltac quiet_steps :=
  repeat first
    [ apply Loop.steps_for_in; [apply quiet_refl|apply quiet_trans|intros ? ?]
    | apply (Loop.steps_bind (@quiet_trans _)); [|intros ?]
    | apply quiet_emit; reflexivity
    | apply quiet_modify; intros st; now destruct st
    | apply Loop.steps_ret, quiet_refl
    | apply Loop.steps_raise, quiet_refl
    | apply Loop.steps_get, quiet_refl
    | apply Loop.steps_lift, quiet_refl
    | match goal with
      | |- steps _ (match ?x with _ => _ end) => destruct x
      end ].

Section Quiet.

(** The predicates on calls that the lemmas below are used with. *)
Variable p : call -> bool.
Hypothesis p_kind : p = is_sleep \/ exists name, p = is_start name.

Lemma fetch_quiet (get_current : string -> result response) (token : nat) :
  steps (quiet p) (get_region_percentiles get_current token).
Proof.
  unfold get_region_percentiles.
  generalize (@nil percentile_sample).
  induction (SHARED_LOCATIONS ++ AZURE_LOCATIONS ++ AWS_LOCATIONS)
    as [|region regions IH]; intros percentiles; simpl.
  - apply Loop.steps_ret, quiet_refl.
  - apply (Loop.steps_bind (@quiet_trans _)); [|intros ?; apply IH].
    unfold fetch_region.
    destruct p_kind as [->|(name & ->)]; quiet_steps.
Qed.

Lemma sweep_quiet (w : world) : steps (quiet p) (sweep w).
Proof.
  unfold sweep.
  apply (Loop.steps_bind (@quiet_trans _));
    [apply Loop.steps_get, quiet_refl|intros st0].
  induction (map fst (vm_jobs st0)) as [|name names IH]; simpl.
  - apply Loop.steps_ret, quiet_refl.
  - apply (Loop.steps_bind (@quiet_trans _)); [|intros ?; apply IH].
    unfold sweep_vm, check_client, drop_pair, aws_stop, ledger_jobs,
      ledger_clients.
    destruct p_kind as [->|(v & ->)]; quiet_steps.
Qed.

End Quiet.

Lemma schedule_no_sleep (ppf : Q -> pyfloat) (azure_vms aws_vms : list vm)
    (w : world) (percentiles : list percentile_sample)
    (co2_moers : list moer_sample) :
  steps (quiet is_sleep) (schedule ppf azure_vms aws_vms w percentiles co2_moers).
Proof.
  unfold schedule, azure_loop, aws_loop, azure_dispatch, aws_dispatch,
    open_session, new_ssh_client, append_job, append_client, ledger_jobs,
    ledger_clients.
  quiet_steps.
Qed.

(** ** The shape of a pass *)

Lemma ends_with_final {B} (R : state -> state -> Prop) (final : M B) :
  (forall st, R st st) -> ends_with R final final.
Proof. intros Hr st. right. exists st. auto. Qed.

Lemma ends_with_bind {A B} (R : state -> state -> Prop) (final : M B)
    (c : M A) (k : A -> M B) :
  (forall a b c, R a b -> R b c -> R a c) ->
  steps R c -> (forall a, ends_with R final (k a)) ->
  ends_with R final (bind c k).
Proof.
  intros Ht Hc Hk st. unfold bind. specialize (Hc st).
  destruct (c st) as [[a|e] st1]; simpl in *.
  - destruct (Hk a st1) as [(e & E & Hr)|(st' & Hr & E)].
    + left. exists e. split; [assumption|]. eapply Ht; eassumption.
    + right. exists st'. split; [eapply Ht; eassumption|assumption].
  - left. exists e. auto.
Qed.

(** A pass is quiet about [sleep] until its last step, which is
    [sleep_or_break]. *)
Lemma tick_ends_with (ppf : Q -> pyfloat) (azure_vms aws_vms : list vm)
    (w : world) :
  ends_with (quiet is_sleep) sleep_or_break (tick ppf azure_vms aws_vms w).
Proof.
  unfold tick.
  apply ends_with_bind;
    [apply quiet_trans|apply Loop.steps_get, quiet_refl|intros st0].
  apply ends_with_bind;
    [apply quiet_trans|apply fetch_quiet; now left|intros percentiles].
  apply ends_with_bind;
    [apply quiet_trans|apply Loop.steps_lift, quiet_refl|intros gco2s].
  apply ends_with_bind;
    [apply quiet_trans|apply schedule_no_sleep|intros _].
  apply ends_with_bind;
    [apply quiet_trans|apply sweep_quiet; now left|intros _].
  apply ends_with_final, quiet_refl.
Qed.

Lemma drained_calls (st : state) (l : list call) :
  drained (set_calls st l) = drained st.
Proof. now destruct st. Qed.

Lemma sleep_or_break_spec (st : state) :
  sleep_or_break st
  = if drained st then (Ok Break, st)
    else (Ok Continue, set_calls st (calls st ++ [sleep 60])).
Proof.
  unfold sleep_or_break, drained, bind, get.
  destruct (Nat.eqb (length (azure_jobs st ++ aws_jobs st)) 0);
    destruct (no_jobs st); reflexivity.
Qed.

(** ** A pass that starts drained *)

Lemma only_fetched_refl (st : state) : only_fetched st st.
Proof. exists []. split; [|reflexivity]. destruct st. unfold set_calls. simpl. now rewrite app_nil_r. Qed.

(** [get_region_percentiles] over [WattTime.get_current]: the snapshot of
    all regions when every answer is ok, [HTTPError] at the first answer
    that is not. *)
Lemma real_fetch (resp : string -> response) (token : nat)
    (regions : list string) :
  forall (percentiles : list percentile_sample) (st : state),
    let run := fetch_regions (fun region => WattTime_get_current (resp region))
                             token regions percentiles st in
    only_fetched st (snd run)
    /\ ((forallb (fun region => ok (resp region)) regions = true
         /\ fst run = Ok (percentiles ++ snapshot_of resp regions))
        \/ (forallb (fun region => ok (resp region)) regions = false
            /\ fst run = Raise HTTPError)).
Proof.
  induction regions as [|region regions IH]; intros percentiles st; simpl.
  - split; [apply only_fetched_refl|]. left. now rewrite app_nil_r.
  - unfold bind at 1. unfold fetch_region, bind, emit, modify, lift.
    cbn beta iota. destruct (ok (resp region)) eqn:E.
    + rewrite (Fetch.WattTime_get_current_returns _ E). cbn beta iota.
      rewrite E.
      destruct (IH (percentiles ++ [mk_sample region (value (resp region))])
                   (set_calls st (calls st ++ [signal_index token region])))
        as ((new & Es & Hf) & Hres).
      rewrite <- app_assoc in Hres. simpl in Hres.
      split; [|exact Hres].
      exists (signal_index token region :: new). unfold ret. rewrite Es. split.
      * destruct st. unfold set_calls. simpl. now rewrite <- app_assoc.
      * simpl. exact Hf.
    + rewrite (Fetch.WattTime_get_current_raises _ E). simpl.
      split; [|right; auto].
      exists [signal_index token region]. auto.
Qed.

Lemma drained_iff (st : state) :
  drained st = true
  <-> azure_jobs st = [] /\ aws_jobs st = [] /\ no_jobs st = true.
Proof.
  unfold drained. rewrite andb_true_iff, Nat.eqb_eq, length_app. split.
  - intros [H N]. repeat split; try assumption.
    + destruct (azure_jobs st); [reflexivity|simpl in H; lia].
    + destruct (aws_jobs st); [reflexivity|simpl in H; lia].
  - intros (-> & -> & N). auto.
Qed.

Lemma no_jobs_get (d : dict (list ledger_entry)) (name : string) :
  forallb (fun kv => Nat.eqb (length (snd kv)) 0) d = true ->
  match dict_get name d with Some l => l | None => [] end = [].
Proof.
  induction d as [|[k l] d IH]; simpl; [reflexivity|].
  rewrite andb_true_iff, Nat.eqb_eq. intros [Hl Hd].
  destruct (k =? name)%string; [|now apply IH].
  now destruct l.
Qed.

Lemma schedule_idle (ppf : Q -> pyfloat) (azure_vms aws_vms : list vm)
    (w : world) (percentiles : list percentile_sample)
    (co2_moers : list moer_sample) (st : state) :
  azure_jobs st = [] -> aws_jobs st = [] ->
  schedule ppf azure_vms aws_vms w percentiles co2_moers st = (Ok tt, st).
Proof.
  intros Ha Hw. unfold schedule, azure_loop, aws_loop, bind, get.
  rewrite Ha. simpl. rewrite Ha. rewrite Hw. simpl. now rewrite Hw.
Qed.

Lemma sweep_idle (w : world) (st : state) :
  no_jobs st = true -> sweep w st = (Ok tt, st).
Proof.
  intros N. unfold sweep, bind at 1, get.
  induction (map fst (vm_jobs st)) as [|name names IH]; [reflexivity|].
  simpl. unfold bind at 1. unfold sweep_vm, bind at 1, get.
  assert (E : jobs_of name st = []) by (apply no_jobs_get, N).
  rewrite E. simpl. rewrite E. exact IH.
Qed.

Lemma snapshot_known (resp : string -> response) :
  Forall (fun s => In (s_region s) all_regions) (snapshot_of resp all_regions).
Proof.
  apply Forall_forall. intros s Hs. now apply Fetch.snapshot_regions in Hs.
Qed.

Lemma drained_tick (ppf : Q -> pyfloat) (azure_vms aws_vms : list vm)
    (w : world) (st : state) :
  drained st = true ->
  exists new,
    forallb is_fetch new = true
    /\ tick ppf azure_vms aws_vms w st
       = (if forallb (fun region => ok (carbon w region)) all_regions
          then Ok Break else Raise HTTPError,
          set_calls st (calls st ++ new)).
Proof.
  intros D. unfold tick. unfold bind at 1. unfold get at 1.
  unfold bind at 1. unfold get_region_percentiles.
  destruct (real_fetch (carbon w) (TOKEN st) all_regions [] st)
    as (Hf & Hres).
  fold all_regions.
  destruct (fetch_regions _ _ all_regions [] st) as [r st1].
  cbn [fst snd app] in Hf, Hres.
  destruct Hf as (new & -> & Hnew). exists new. split; [assumption|].
  destruct Hres as [(Hall & ->)|(Hall & ->)]; rewrite Hall; [|reflexivity].
  destruct (Translator.percentile_to_gco2_total ppf (snapshot_known (carbon w)))
    as (gs & Eg & _).
  unfold bind at 1. unfold lift. rewrite Eg.
  assert (D1 : drained (set_calls st (calls st ++ new)) = true)
    by now rewrite drained_calls.
  apply drained_iff in D1. destruct D1 as (Ha & Hw & Hn).
  unfold bind at 1. rewrite (schedule_idle _ _ _ _ _ _ _ Ha Hw).
  unfold bind at 1. rewrite (sweep_idle _ _ Hn).
  now rewrite sleep_or_break_spec, drained_calls, D.
Qed.

(** C8, as stated, fails in its second half: a pass that starts with a
    pending job does not always sleep.  Here the job is dispatched, its
    probe prints [DONE] in the same pass, the VM is deallocated, and the
    loop breaks without sleeping. *)
Lemma busy_pass_can_exit :
  let st := initial_state [east_vm] [] [urgent_fixed] [] 0 in
  let run := tick ppf_standin [east_vm] [] done_world st in
  drained st = false
  /\ fst run = Ok Break
  /\ count is_sleep (calls_since st (snd run)) = 0%nat
  /\ calls_since st (snd run)
     = map (signal_index 1) all_regions
       ++ [begin_start (Some "rg") "vm-east";
           ssh_connect 0 "10.0.0.4" "azureuser" "east.pem";
           exec_command 0 "run"; exec_command 0 "probe"; ssh_close 0;
           begin_deallocate (Some "rg") "vm-east"].
Proof. repeat split; reflexivity. Qed.

(** C8, amended.  A pass that starts with nothing pending and no VM
    occupied only asks for the carbon data and then leaves the loop (by
    [break], or by the [HTTPError] of a failed request).  Otherwise what
    decides is the state at the end of the pass: if a job is still pending
    or a VM still occupied after the scheduling and the completion check,
    the pass ends with [sleep(60)] and the loop repeats, else it breaks
    without sleeping. *)
Theorem drained_pass_exits (ppf : Q -> pyfloat) (azure_vms aws_vms : list vm)
    (w : world) (st : state) :
  let run := tick ppf azure_vms aws_vms w st in
  (drained st = true ->
   only_fetched st (snd run)
   /\ (fst run = Ok Break \/ fst run = Raise HTTPError)
   /\ ((forall region, ok (carbon w region) = true) -> fst run = Ok Break))
  /\ (forall d, fst run = Ok d ->
        d = (if drained (snd run) then Break else Continue)
        /\ (d = Continue ->
            exists before,
              calls (snd run) = before ++ [sleep 60]
              /\ count is_sleep (calls_since st (snd run)) = 1%nat)
        /\ (d = Break -> count is_sleep (calls_since st (snd run)) = 0%nat)).
Proof.
  cbv zeta. split.
  - intros D.
    destruct (@drained_tick ppf azure_vms aws_vms w st D) as (new & Hnew & ->).
    cbn [fst snd]. split; [now exists new|]. split.
    + destruct (forallb _ all_regions); auto.
    + intros Hok.
      assert (H : forallb (fun region => ok (carbon w region)) all_regions
                  = true) by (apply forallb_forall; auto).
      now rewrite H.
  - intros d Hd.
    destruct (tick_ends_with ppf azure_vms aws_vms w st)
      as [(e & E & _)|(st3 & (new & Ec & Cn) & E)]; [congruence|].
    rewrite sleep_or_break_spec in E. rewrite E in Hd |- *.
    destruct (drained st3) eqn:D3; simpl in Hd |- *; injection Hd as <-.
    + rewrite D3. split; [reflexivity|]. split; [discriminate|]. intros _.
      now rewrite (@Fetch.calls_since_app _ _ _ Ec).
    + rewrite drained_calls, D3. split; [reflexivity|].
      split; [|discriminate]. intros _.
      exists (calls st3). split; [now destruct st3|].
      assert (Ec' : calls (set_calls st3 (calls st3 ++ [sleep 60]))
                    = calls st ++ (new ++ [sleep 60])).
      { destruct st3. unfold set_calls. simpl in *. rewrite Ec.
        now rewrite <- app_assoc. }
      rewrite (@Fetch.calls_since_app _ _ _ Ec'), Fetch.count_app, Cn.
      reflexivity.
Qed.

(** ** Start calls over a pass *)

Lemma steps_seq {A B} (R1 R2 R : state -> state -> Prop)
    (c : M A) (k : A -> M B) :
  steps R1 c -> (forall a, steps R2 (k a)) ->
  (forall a b, R1 a b -> R a b) ->
  (forall a b c, R1 a b -> R2 b c -> R a c) ->
  steps R (bind c k).
Proof.
  intros Hc Hk H1 H12 st. unfold bind. specialize (Hc st).
  destruct (c st) as [[a|e] st1]; simpl in *.
  - eapply H12; [exact Hc|apply Hk].
  - now apply H1.
Qed.

Lemma fetch_keeps_ledger (get_current : string -> result response)
    (token : nat) :
  steps keeps_ledger (get_region_percentiles get_current token).
Proof.
  unfold get_region_percentiles.
  generalize (@nil percentile_sample).
  induction (SHARED_LOCATIONS ++ AZURE_LOCATIONS ++ AWS_LOCATIONS)
    as [|region regions IH]; intros percentiles; simpl.
  - apply Loop.steps_ret, keeps_ledger_refl.
  - apply (Loop.steps_bind keeps_ledger_trans); [|intros ?; apply IH].
    unfold fetch_region, emit. keeps_ledger_steps.
Qed.

Lemma started_once_at_most (name : string) (a b : state) :
  started_once name a b -> started_at_most_once name a b.
Proof.
  intros (new & Ec & _ & C). exists new. split; [assumption|].
  rewrite C. destruct (Nat.eqb_spec (active name a) 0); simpl.
  - destruct (Nat.eqb (active name b) 0); simpl; split; auto; lia.
  - split; [lia|discriminate].
Qed.

Lemma tick_started_at_most_once (ppf : Q -> pyfloat)
    (azure_vms aws_vms : list vm) (name : string) (w : world) :
  steps (started_at_most_once name) (tick ppf azure_vms aws_vms w).
Proof.
  assert (Hkeep : forall a b c,
             quiet (is_start name) a b /\ keeps_ledger a b ->
             started_at_most_once name b c -> started_at_most_once name a c).
  { intros a b c ((n1 & E1 & C1) & K) (n2 & E2 & L2 & H2).
    exists (n1 ++ n2). rewrite E2, E1, <- app_assoc.
    split; [reflexivity|]. rewrite Fetch.count_app, C1. simpl.
    split; [assumption|]. intros H. unfold active, jobs_of in *.
    rewrite <- K. now apply H2. }
  assert (Hrefl : forall a, started_at_most_once name a a).
  { intros a. apply started_once_at_most, started_once_refl. }
  unfold tick.
  apply steps_seq with (R1 := eq) (R2 := started_at_most_once name);
    [intros ?; reflexivity| |now intros a b <-|now intros a b c <-].
  intros st0.
  apply steps_seq with (R1 := fun a b => quiet (is_start name) a b
                                         /\ keeps_ledger a b)
                       (R2 := started_at_most_once name).
  - intros st. split; [apply fetch_quiet; eauto|apply fetch_keeps_ledger].
  - intros percentiles.
    apply steps_seq with (R1 := eq) (R2 := started_at_most_once name);
      [intros ?; reflexivity| |now intros a b <-|now intros a b c <-].
    intros gco2s.
    apply steps_seq with (R1 := started_once name)
                         (R2 := quiet (is_start name)).
    + apply schedule_started_once.
    + intros _. apply (Loop.steps_bind (@quiet_trans _)).
      * apply sweep_quiet. eauto.
      * intros _. unfold sleep_or_break. quiet_steps.
    + apply started_once_at_most.
    + intros a b c H1 (n2 & E2 & C2).
      apply started_once_at_most in H1. destruct H1 as (n1 & E1 & L1 & H1).
      exists (n1 ++ n2). rewrite E2, E1, <- app_assoc.
      split; [reflexivity|]. rewrite Fetch.count_app, C2, Nat.add_0_r. auto.
  - intros a b H. apply Hkeep with (b := b); auto.
  - exact Hkeep.
Qed.

(** Two of three jobs for one idle VM are dispatched in the same pass (the
    second is stepped over, the list shrinking under the iteration): the VM
    is started once. *)
Example two_jobs_one_start :
  let st := initial_state [east_vm] [] three_jobs [] 0 in
  let st' := snd (tick ppf_standin [east_vm] [] (quiet_world all_ok) st) in
  active "vm-east" st = 0%nat
  /\ map (fun e => job_name (entry_job e)) (jobs_of "vm-east" st') = ["a"; "c"]
  /\ map job_name (azure_jobs st') = ["b"]
  /\ filter (is_start "vm-east") (calls_since st st')
     = [begin_start (Some "rg") "vm-east"].
Proof. repeat split; reflexivity. Qed.

(** C5.  In either provider's dispatch of a job, a start call for a VM is
    made exactly when that VM's number of active jobs goes from 0 to 1.
    Over the scheduling of a pass the VM is started once if it goes from
    idle to occupied and not at all otherwise; so two jobs assigned to an
    idle VM in one pass produce exactly one start call.  Over a whole pass
    there is at most one start call per VM, and only for a VM that was
    idle. *)
Theorem start_only_from_idle (ppf : Q -> pyfloat)
    (azure_vms aws_vms : list vm) (name : string) :
  (forall (dispatch : job -> string -> M unit),
      In dispatch [azure_dispatch azure_vms; aws_dispatch aws_vms] ->
      forall j region st,
        let st' := snd (dispatch j region st) in
        (active name st <= active name st' <= S (active name st))%nat
        /\ count (is_start name) (calls_since st st')
           = if Nat.eqb (active name st) 0 && Nat.eqb (active name st') 1
             then 1%nat else 0%nat)
  /\ (forall w percentiles co2_moers st,
        let st' := snd (schedule ppf azure_vms aws_vms w percentiles
                                 co2_moers st) in
        (active name st <= active name st')%nat
        /\ count (is_start name) (calls_since st st')
           = (if Nat.eqb (active name st) 0
                 && negb (Nat.eqb (active name st') 0)
              then 1%nat else 0%nat)
        /\ (active name st = 0%nat -> active name st' = 2%nat ->
            count (is_start name) (calls_since st st') = 1%nat))
  /\ (forall w st,
        let st' := snd (tick ppf azure_vms aws_vms w st) in
        (count (is_start name) (calls_since st st') <= 1)%nat
        /\ (count (is_start name) (calls_since st st') = 1%nat ->
            active name st = 0%nat)).
Proof.
  split; [|split].
  - intros dispatch Hd j region st st'.
    assert (H : started_once name st st' /\ appended_at_most_once st st').
    { destruct Hd as [<-|[<-|[]]]; split.
      - apply azure_dispatch_started_once.
      - apply azure_dispatch_appends.
      - apply aws_dispatch_started_once.
      - apply aws_dispatch_appends. }
    destruct H as ((new & Ec & L & C) & Ha).
    apply (appended_active name) in Ha. fold st' in Ha.
    rewrite (@Fetch.calls_since_app _ _ _ Ec), C.
    split; [lia|].
    destruct (Nat.eqb_spec (active name st) 0) as [E0|]; [|reflexivity].
    simpl. destruct (Nat.eqb_spec (active name st') 0),
             (Nat.eqb_spec (active name st') 1); simpl; (reflexivity || lia).
  - intros w percentiles co2_moers st st'.
    destruct (schedule_started_once ppf azure_vms aws_vms name w percentiles
                                    co2_moers st) as (new & Ec & L & C).
    fold st' in Ec, L, C.
    rewrite (@Fetch.calls_since_app _ _ _ Ec), C.
    split; [assumption|]. split; [reflexivity|].
    intros -> ->. reflexivity.
  - intros w st st'.
    destruct (tick_started_at_most_once ppf azure_vms aws_vms name w st)
      as (new & Ec & L & H).
    fold st' in Ec. now rewrite (@Fetch.calls_since_app _ _ _ Ec).
Qed.

End Tick.

(* ================================================================== *)
(** * The stop calls of the completion check *)
(* ================================================================== *)

Module Teardown.

Import Ledger.

(** In the body of the completion check a stop or deallocate call is made
    only in the step that empties the list of the swept VM.  The Azure call
    names that VM; the AWS call names whatever [instance_id] holds. *)
Lemma check_client_stops (w : world) (name : string) (j : ledger_entry)
    (c : ssh_entry) (st : state) :
  let st' := snd (check_client w name j c st) in
  exists new,
    calls st' = calls st ++ new
    /\ Forall (stop_at_emptying name st st') new.
Proof.
  cbv zeta. unfold check_client, drop_pair, aws_stop, ledger_jobs,
    ledger_clients, emit.
  unfold bind, modify, get, ret, raise.
  destruct st as [aj wj vj vc tk ii rc nc cl].
  unfold stop_at_emptying, jobs_of. unfold_setters.
  destruct (ssh_job_name c =? job_name (entry_job j))%string; simpl;
    [|exists []; now rewrite app_nil_r].
  destruct (probe w _ _); simpl;
    [|eexists; split; [reflexivity|repeat constructor]].
  destruct (dict_get name vj) as [jobs|] eqn:Ej; simpl;
    [|eexists; split; [rewrite <- app_assoc; reflexivity|repeat constructor]].
  destruct (list_remove entry_eqb j jobs) as [jobs'|] eqn:Rj; simpl;
    [|eexists; split; [rewrite <- app_assoc; reflexivity|repeat constructor]].
  assert (Hne : jobs <> [])
    by (apply list_remove_length in Rj; destruct jobs; [discriminate|congruence]).
  destruct (dict_get name vc) as [clients|] eqn:Ec; simpl;
    [|eexists; split; [rewrite <- app_assoc; reflexivity|repeat constructor]].
  destruct (list_remove ssh_eqb c clients) as [clients'|] eqn:Rc; simpl;
    [|eexists; split; [rewrite <- app_assoc; reflexivity|repeat constructor]].
  rewrite !dict_get_set_same. simpl.
  destruct jobs' as [|e jobs']; simpl;
    [|eexists; split; [rewrite <- app_assoc; reflexivity|repeat constructor]].
  destruct (ssh_job_type c); simpl.
  - rewrite dict_get_set_same.
    eexists. split; [rewrite <- !app_assoc; reflexivity|].
    repeat constructor; assumption.
  - destruct (ssh_aws_client c) as [aws_client|]; simpl;
      [|rewrite ?dict_get_set_same;
        eexists; split; [rewrite <- app_assoc; reflexivity|repeat constructor]].
    destruct ii as [id|]; simpl;
      [|rewrite ?dict_get_set_same;
        eexists; split; [rewrite <- app_assoc; reflexivity|repeat constructor]].
    destruct rc as [[session|]|]; simpl; rewrite ?dict_get_set_same;
      (eexists; split; [rewrite <- !app_assoc; reflexivity|]);
      repeat constructor; assumption.
Qed.

(** C1, at an input where it fails.  Two AWS jobs run on two instances; the
    second job is dispatched in the second pass, and in that pass the first
    job completes.  The list of [i-west] becomes empty, and the stop call
    is issued for [i-north], the instance the scheduling loop last assigned
    to [instance_id], while [i-north] still holds its job; [i-west] is
    never stopped. *)
Theorem aws_stop_targets_last_dispatched :
  let run := main ppf_standin [] [west_instance; north_instance]
                  [] [west_job; north_job] 0
                  [quiet_world all_ok; first_done_world] in
  fst run = Ok Polling
  /\ jobs_of "i-west" (snd run) = []
  /\ map (fun e => job_name (entry_job e)) (jobs_of "i-north" (snd run)) = ["b"]
  /\ filter (fun c => is_stop "i-west" c || is_stop "i-north" c)
            (calls (snd run))
     = [instance_stop "us-west-1" "i-north"]
  /\ count (is_stop "i-west") (calls (snd run)) = 0%nat.
Proof. repeat split; reflexivity. Qed.

(** The Azure branch of the same check passes the name of the VM whose list
    became empty. *)
Example azure_deallocate_targets_emptied :
  let run := main ppf_standin [west_vm; east_vm] [] 
                  [azure_west_job; azure_east_job] [] 0
                  [quiet_world all_ok; first_done_world] in
  fst run = Ok Polling
  /\ jobs_of "vm-west" (snd run) = []
  /\ map (fun e => job_name (entry_job e)) (jobs_of "vm-east" (snd run)) = ["b"]
  /\ filter (fun c => is_stop "vm-west" c || is_stop "vm-east" c)
            (calls (snd run))
     = [begin_deallocate (Some "rg") "vm-west"].
Proof. repeat split; reflexivity. Qed.

End Teardown.

(* ================================================================== *)
(** * The loops of a pass end within their fuel *)
(* ================================================================== *)

Module Fuel.

Import Ledger.

Ltac never_out_steps :=
  repeat first
    [ apply Loop.never_out_ret
    | apply Loop.never_out_get
    | apply Loop.never_out_emit
    | apply Loop.never_out_modify
    | apply Loop.never_out_raise; discriminate
    | apply Loop.never_out_bind; [|intros ?]
    | match goal with
      | |- never_out (match ?x with _ => _ end) => destruct x
      end ].

(** ** The pure stages *)

Lemma rmap_raises {A B} (f : A -> result B) (e : exn) :
  (forall x, f x <> Raise e) -> forall l, rmap f l <> Raise e.
Proof.
  intros Hf. induction l as [|x l IH]; simpl; [discriminate|].
  specialize (Hf x). destruct (f x) as [y|e']; simpl; [|congruence].
  destruct (rmap f l) as [ys|e']; simpl; [discriminate|congruence].
Qed.

Lemma percentile_to_gco2_not_out (ppf : Q -> pyfloat)
    (percentiles : list percentile_sample) :
  percentile_to_gco2 ppf percentiles <> Raise OutOfFuel.
Proof.
  apply rmap_raises. intros s.
  destruct (get_gco2_range_for_region (s_region s)); discriminate.
Qed.

Lemma get_lowest_not_out (eligible : list string)
    (co2_moers : list moer_sample) :
  get_lowest_co2_moer eligible co2_moers <> Raise OutOfFuel.
Proof. destruct co2_moers; discriminate. Qed.

Lemma decision_not_out (ppf : Q -> pyfloat) (eligible : list string)
    (map_location : string -> option string) (j : job)
    (percentiles : list percentile_sample) (co2_moers : list moer_sample)
    (now : Z) :
  schedule_decision ppf (get_lowest_co2_moer eligible) map_location
                    (get_percentile_threshold eligible)
                    j percentiles co2_moers now
  <> Raise OutOfFuel.
Proof.
  unfold schedule_decision.
  destruct (time_sensitive j && negb (location_switch j)); [discriminate|].
  destruct (time_sensitive j && location_switch j).
  { pose proof (get_lowest_not_out eligible co2_moers) as H.
    destruct (get_lowest_co2_moer eligible co2_moers); simpl;
      [discriminate|congruence]. }
  cbv zeta.
  destruct (if negb (time_sensitive j) && negb (location_switch j)
            then find _ _ else None); [discriminate|].
  destruct (if negb (time_sensitive j) && location_switch j
            then get_percentile_threshold eligible percentiles
                   (percentile_threshold j)
            else []) as [|m ms].
  { unfold timeout_check. destruct (twelve_hours <=? _); discriminate. }
  pose proof (percentile_to_gco2_not_out ppf (m :: ms)) as H.
  destruct (percentile_to_gco2 ppf (m :: ms)) as [gs|e]; simpl; [|congruence].
  pose proof (get_lowest_not_out eligible (gco2_to_moer gs)) as H'.
  destruct (get_lowest_co2_moer eligible (gco2_to_moer gs)); simpl;
    [discriminate|congruence].
Qed.

(** ** The scheduling loops *)

Ltac untouched_steps :=
  repeat first
    [ apply (Loop.steps_bind (@shrinks_trans _ _)); [|intros ?]
    | apply Loop.steps_modify;
      let s := fresh "s" in
      intros s; unfold shrinks; destruct s; apply Nat.le_refl
    | apply Loop.steps_ret, shrinks_refl
    | apply Loop.steps_raise, shrinks_refl
    | apply Loop.steps_get, shrinks_refl
    | apply Loop.steps_lift, shrinks_refl
    | match goal with
      | |- steps _ (match ?x with _ => _ end) => destruct x
      end ].

Lemma azure_dispatch_shrinks (azure_vms : list vm) (azure_job : job)
    (region : string) :
  steps (shrinks azure_jobs) (azure_dispatch azure_vms azure_job region).
Proof.
  intros st. unfold azure_dispatch. unfold bind at 1. unfold get at 1.
  destruct (list_remove _ _ _) as [l|] eqn:E; [|apply shrinks_refl].
  unfold bind at 1. unfold modify at 1.
  apply shrinks_trans with (b := set_azure_jobs st l).
  - unfold shrinks. apply list_remove_length in E. destruct st. simpl in *. lia.
  - generalize (set_azure_jobs st l). change (steps (shrinks azure_jobs)
      match get_azure_vm_by_region azure_vms region with
      | Some vm_info =>
          jobs <- ledger_jobs (vm_name vm_info) ;;
          (if Nat.eqb (length jobs) 0
           then emit (begin_start (resource_group_name vm_info) (vm_name vm_info))
           else ret tt) ;;
          append_job (vm_name vm_info)
                     (mk_entry azure_job (resource_group_name vm_info)) ;;
          open_session Azure azure_job vm_info None
      | None => raise TypeError
      end).
    unfold open_session, new_ssh_client, append_job, append_client,
      ledger_jobs, ledger_clients, emit.
    untouched_steps.
Qed.

Lemma aws_dispatch_shrinks (aws_vms : list vm) (aws_job : job)
    (region : string) :
  steps (shrinks aws_jobs) (aws_dispatch aws_vms aws_job region).
Proof.
  intros st. unfold aws_dispatch. unfold bind at 1. unfold get at 1.
  destruct (list_remove _ _ _) as [l|] eqn:E; [|apply shrinks_refl].
  unfold bind at 1. unfold modify at 1.
  apply shrinks_trans with (b := set_aws_jobs st l).
  - unfold shrinks. apply list_remove_length in E. destruct st. simpl in *. lia.
  - generalize (set_aws_jobs st l).
    match goal with
    | |- forall s, shrinks _ s (snd (?c s)) => change (steps (shrinks aws_jobs) c)
    end.
    unfold open_session, new_ssh_client, append_job, append_client,
      ledger_jobs, ledger_clients, emit.
    untouched_steps.
Qed.

Lemma azure_dispatch_never_out (azure_vms : list vm) (azure_job : job)
    (region : string) :
  never_out (azure_dispatch azure_vms azure_job region).
Proof.
  unfold azure_dispatch, open_session, new_ssh_client, append_job,
    append_client, ledger_jobs, ledger_clients.
  never_out_steps.
Qed.

Lemma aws_dispatch_never_out (aws_vms : list vm) (aws_job : job)
    (region : string) :
  never_out (aws_dispatch aws_vms aws_job region).
Proof.
  unfold aws_dispatch, open_session, new_ssh_client, append_job,
    append_client, ledger_jobs, ledger_clients.
  never_out_steps.
Qed.

Lemma schedule_never_out (ppf : Q -> pyfloat) (azure_vms aws_vms : list vm)
    (w : world) (percentiles : list percentile_sample)
    (co2_moers : list moer_sample) :
  never_out (schedule ppf azure_vms aws_vms w percentiles co2_moers).
Proof.
  unfold schedule. apply Loop.never_out_bind; [|intros _].
  - intros st. unfold azure_loop, bind at 1, get at 1.
    apply Loop.for_in_fuel; [| |simpl; lia].
    + intros i j.
      apply (Loop.steps_bind (@shrinks_trans _ _));
        [apply Loop.steps_lift, shrinks_refl|intros [region|]];
        [apply azure_dispatch_shrinks|apply Loop.steps_ret, shrinks_refl].
    + intros i j. apply Loop.never_out_bind.
      * apply Loop.never_out_lift, decision_not_out.
      * intros [region|];
          [apply azure_dispatch_never_out|apply Loop.never_out_ret].
  - intros st. unfold aws_loop, bind at 1, get at 1.
    apply Loop.for_in_fuel; [| |simpl; lia].
    + intros i j.
      apply (Loop.steps_bind (@shrinks_trans _ _));
        [apply Loop.steps_lift, shrinks_refl|intros [region|]];
        [apply aws_dispatch_shrinks|apply Loop.steps_ret, shrinks_refl].
    + intros i j. apply Loop.never_out_bind.
      * apply Loop.never_out_lift, decision_not_out.
      * intros [region|];
          [apply aws_dispatch_never_out|apply Loop.never_out_ret].
Qed.

(** ** The completion check *)

Lemma shrinks_both_refl (name : string) (st : state) : shrinks_both name st st.
Proof. unfold shrinks_both. lia. Qed.

Lemma shrinks_both_trans (name : string) (a b c : state) :
  shrinks_both name a b -> shrinks_both name b c -> shrinks_both name a c.
Proof. unfold shrinks_both. lia. Qed.

Ltac both_steps :=
  repeat first
    [ apply Loop.steps_for_in;
      [apply shrinks_both_refl|apply shrinks_both_trans|intros ? ?]
    | apply (Loop.steps_bind (@shrinks_both_trans _)); [|intros ?]
    | apply Loop.steps_modify;
      let s := fresh "s" in
      intros s; unfold shrinks_both; destruct s; split; apply Nat.le_refl
    | apply Loop.steps_ret, shrinks_both_refl
    | apply Loop.steps_raise, shrinks_both_refl
    | apply Loop.steps_get, shrinks_both_refl
    | apply Loop.steps_lift, shrinks_both_refl
    | match goal with
      | |- steps _ (match ?x with _ => _ end) => destruct x
      end ].

Lemma drop_pair_shrinks (name : string) (j : ledger_entry) (c : ssh_entry) :
  steps (shrinks_both name) (drop_pair name j c).
Proof.
  intros st. unfold drop_pair, ledger_jobs, ledger_clients, emit.
  unfold bind, modify, get, ret, raise.
  destruct st as [aj wj vj vc tk ii rc nc cl]. unfold shrinks_both, jobs_of,
    clients_of. unfold_setters.
  destruct (dict_get name vj) as [jobs|] eqn:Ej; simpl;
    [|rewrite ?Ej; simpl; lia].
  destruct (list_remove entry_eqb j jobs) as [jobs'|] eqn:Rj; simpl;
    [|rewrite ?Ej; simpl; lia].
  apply list_remove_length in Rj.
  destruct (dict_get name vc) as [clients|] eqn:Ec; simpl;
    [|rewrite ?dict_get_set_same, ?Ec; simpl; lia].
  destruct (list_remove ssh_eqb c clients) as [clients'|] eqn:Rc; simpl;
    [apply list_remove_length in Rc|];
    rewrite ?dict_get_set_same, ?Ec; simpl; lia.
Qed.

Lemma check_client_shrinks (w : world) (name : string) (j : ledger_entry)
    (c : ssh_entry) :
  steps (shrinks_both name) (check_client w name j c).
Proof.
  unfold check_client.
  destruct (ssh_job_name c =? job_name (entry_job j))%string;
    [|apply Loop.steps_ret, shrinks_both_refl].
  apply (Loop.steps_bind (@shrinks_both_trans _)); [both_steps|intros _].
  destruct (probe w _ _); [|apply Loop.steps_ret, shrinks_both_refl].
  apply (Loop.steps_bind (@shrinks_both_trans _));
    [apply drop_pair_shrinks|intros _].
  unfold aws_stop, ledger_jobs, emit. both_steps.
Qed.

Lemma check_client_never_out (w : world) (name : string) (j : ledger_entry)
    (c : ssh_entry) :
  never_out (check_client w name j c).
Proof.
  unfold check_client, drop_pair, aws_stop, ledger_jobs, ledger_clients.
  never_out_steps.
Qed.

Lemma steps_weaken {A} (R R' : state -> state -> Prop) (c : M A) :
  (forall a b, R a b -> R' a b) -> steps R c -> steps R' c.
Proof. intros H Hc st. apply H, Hc. Qed.

Lemma sweep_vm_never_out (w : world) (name : string) :
  never_out (sweep_vm w name).
Proof.
  intros st. unfold sweep_vm, bind at 1, get at 1.
  apply Loop.for_in_fuel; [| |simpl; lia].
  - intros _ j. apply steps_weaken with (R := shrinks_both name).
    + now intros a b [H _].
    + apply (Loop.steps_bind (@shrinks_both_trans _)).
      * unfold ledger_clients. both_steps.
      * intros ssh_clients. apply Loop.steps_for_in;
          [apply shrinks_both_refl|apply shrinks_both_trans|].
        intros _ c. apply check_client_shrinks.
  - intros _ j st1. unfold bind at 1, ledger_clients, bind at 1, get at 1.
    destruct (dict_get name (vm_clients st1)) as [ssh_clients|] eqn:E;
      [|discriminate].
    cbn [ret fst snd].
    apply Loop.for_in_fuel.
    + intros _ c. apply steps_weaken with (R := shrinks_both name).
      * now intros a b [_ H].
      * apply check_client_shrinks.
    + intros _ c. apply check_client_never_out.
    + unfold clients_of. rewrite E. simpl. lia.
Qed.

Lemma sweep_never_out (w : world) : never_out (sweep w).
Proof.
  unfold sweep. apply Loop.never_out_bind; [apply Loop.never_out_get|].
  intros st0. induction (map fst (vm_jobs st0)) as [|name names IH]; simpl.
  - apply Loop.never_out_ret.
  - apply Loop.never_out_bind; [apply sweep_vm_never_out|intros _; exact IH].
Qed.

(** ** The whole pass *)

Lemma fetch_never_out (resp : string -> response) (token : nat) :
  never_out (get_region_percentiles
               (fun region => WattTime_get_current (resp region)) token).
Proof.
  unfold get_region_percentiles.
  generalize (@nil percentile_sample).
  induction (SHARED_LOCATIONS ++ AZURE_LOCATIONS ++ AWS_LOCATIONS)
    as [|region regions IH]; intros percentiles; simpl.
  - apply Loop.never_out_ret.
  - apply Loop.never_out_bind; [|intros ?; apply IH].
    unfold fetch_region.
    apply Loop.never_out_bind; [apply Loop.never_out_emit|intros _].
    apply Loop.never_out_bind.
    + apply Loop.never_out_lift.
      unfold WattTime_get_current, raise_for_status.
      destruct (is_http_error (resp region)); discriminate.
    + intros region_data. never_out_steps.
Qed.

(** Every loop of a pass is given enough fuel: [tick] never reports
    [OutOfFuel], so what it returns is what the Python loop body does. *)
Lemma tick_fuel (ppf : Q -> pyfloat) (azure_vms aws_vms : list vm)
    (w : world) :
  never_out (tick ppf azure_vms aws_vms w).
Proof.
  unfold tick.
  apply Loop.never_out_bind; [apply Loop.never_out_get|intros st0].
  apply Loop.never_out_bind; [apply fetch_never_out|intros percentiles].
  apply Loop.never_out_bind;
    [apply Loop.never_out_lift, percentile_to_gco2_not_out|intros gco2s].
  apply Loop.never_out_bind; [apply schedule_never_out|intros _].
  apply Loop.never_out_bind; [apply sweep_never_out|intros _].
  unfold sleep_or_break. never_out_steps.
Qed.

Lemma main_loop_fuel (ppf : Q -> pyfloat) (azure_vms aws_vms : list vm)
    (ws : list world) :
  never_out (main_loop ppf azure_vms aws_vms ws).
Proof.
  induction ws as [|w ws IH]; simpl.
  - apply Loop.never_out_ret.
  - apply Loop.never_out_bind; [apply tick_fuel|].
    intros [|]; [exact IH|apply Loop.never_out_ret].
Qed.

End Fuel.

(* ================================================================== *)
(** * The region catalog *)
(* ================================================================== *)

Module Catalog.

Lemma map_azure_location_cases (region : string) :
  (region = "CAISO_NORTH" /\ map_azure_location region = Some "West US")
  \/ (region = "UK" /\ map_azure_location region = Some "UK South")
  \/ (region = "PJM_ROANOKE" /\ map_azure_location region = Some "East US")
  \/ (region = "FR" /\ map_azure_location region = Some "France Central")
  \/ (~ In region (AZURE_LOCATIONS ++ SHARED_LOCATIONS)
      /\ map_azure_location region = None).
Proof.
  unfold map_azure_location.
  destruct (String.eqb_spec region "CAISO_NORTH"); [auto|].
  destruct (String.eqb_spec region "UK"); [auto|].
  destruct (String.eqb_spec region "PJM_ROANOKE"); [auto 6|].
  destruct (String.eqb_spec region "FR"); [auto 6|].
  do 4 right. split; [|reflexivity]. simpl. intuition congruence.
Qed.

Lemma map_aws_location_cases (region : string) :
  (region = "CAISO_NORTH" /\ map_aws_location region = Some "us-west-1")
  \/ (region = "UK" /\ map_aws_location region = Some "eu-west-2")
  \/ (region = "PJM_SOUTHWEST_OH" /\ map_aws_location region = Some "us-east-2")
  \/ (region = "SE" /\ map_aws_location region = Some "eu-north-1")
  \/ (~ In region (AWS_LOCATIONS ++ SHARED_LOCATIONS)
      /\ map_aws_location region = None).
Proof.
  unfold map_aws_location.
  destruct (String.eqb_spec region "CAISO_NORTH"); [auto|].
  destruct (String.eqb_spec region "UK"); [auto|].
  destruct (String.eqb_spec region "PJM_SOUTHWEST_OH"); [auto 6|].
  destruct (String.eqb_spec region "SE"); [auto 6|].
  do 4 right. split; [|reflexivity]. simpl. intuition congruence.
Qed.

Lemma range_cases (region : string) :
  (In region all_regions
   /\ exists range, get_gco2_range_for_region region = Some range
                    /\ range_region range = region
                    /\ 0 < range_min range < range_max range)
  \/ (~ In region all_regions /\ get_gco2_range_for_region region = None).
Proof.
  unfold get_gco2_range_for_region, MIN_MAX_GCO2, all_regions.
  cbn -[String.eqb].
  repeat match goal with
         | |- context [String.eqb ?a region] =>
             destruct (String.eqb_spec a region);
             [subst region; left; split;
              [tauto
              |eexists; split;
               [reflexivity|split; [reflexivity|simpl; lia]]]|]
         end.
  right. split; [|reflexivity]. intuition congruence.
Qed.

(** X1.  The three tables agree.  A region is mapped to an Azure (AWS)
    location exactly when it is in the list the Azure (AWS) selection
    accepts, and two regions never share a location; a region has a
    calibration range exactly when it is one of the six regions asked for,
    and every range has [0 < min < max]. *)
Theorem catalog_consistent :
  (forall region,
      map_azure_location region <> None
      <-> In region (AZURE_LOCATIONS ++ SHARED_LOCATIONS))
  /\ (forall region,
         map_aws_location region <> None
         <-> In region (AWS_LOCATIONS ++ SHARED_LOCATIONS))
  /\ (forall r1 r2 l,
         map_azure_location r1 = Some l -> map_azure_location r2 = Some l ->
         r1 = r2)
  /\ (forall r1 r2 l,
         map_aws_location r1 = Some l -> map_aws_location r2 = Some l ->
         r1 = r2)
  /\ (forall region,
         get_gco2_range_for_region region <> None <-> In region all_regions)
  /\ (forall region range,
         get_gco2_range_for_region region = Some range ->
         range_region range = region
         /\ 0 < range_min range < range_max range).
Proof.
  split; [|split; [|split; [|split; [|split]]]].
  - intros region. split; intros H.
    + destruct (map_azure_location_cases region)
        as [(-> & _)|[(-> & _)|[(-> & _)|[(-> & _)|(_ & E)]]]];
        simpl; auto; congruence.
    + destruct (map_azure_location_cases region)
        as [(_ & E)|[(_ & E)|[(_ & E)|[(_ & E)|(N & _)]]]];
        try congruence; try contradiction.
  - intros region. split; intros H.
    + destruct (map_aws_location_cases region)
        as [(-> & _)|[(-> & _)|[(-> & _)|[(-> & _)|(_ & E)]]]];
        simpl; auto; congruence.
    + destruct (map_aws_location_cases region)
        as [(_ & E)|[(_ & E)|[(_ & E)|[(_ & E)|(N & _)]]]];
        try congruence; try contradiction.
  - intros r1 r2 l H1 H2.
    destruct (map_azure_location_cases r1)
      as [(-> & E1)|[(-> & E1)|[(-> & E1)|[(-> & E1)|(_ & E1)]]]];
      destruct (map_azure_location_cases r2)
        as [(-> & E2)|[(-> & E2)|[(-> & E2)|[(-> & E2)|(_ & E2)]]]];
      try reflexivity; rewrite H1 in E1; rewrite H2 in E2; congruence.
  - intros r1 r2 l H1 H2.
    destruct (map_aws_location_cases r1)
      as [(-> & E1)|[(-> & E1)|[(-> & E1)|[(-> & E1)|(_ & E1)]]]];
      destruct (map_aws_location_cases r2)
        as [(-> & E2)|[(-> & E2)|[(-> & E2)|[(-> & E2)|(_ & E2)]]]];
      try reflexivity; rewrite H1 in E1; rewrite H2 in E2; congruence.
  - intros region. split; intros H.
    + destruct (range_cases region) as [(I & _)|(_ & E)];
        [assumption|congruence].
    + destruct (range_cases region) as [(_ & r & E & _)|(N & _)];
        [congruence|contradiction].
  - intros region range H.
    destruct (range_cases region) as [(_ & r & E & Hr & Hm)|(_ & E)];
      [|congruence].
    assert (r = range) by congruence. subst. auto.
Qed.

End Catalog.

(* ================================================================== *)
(** * More on the carbon-signal translation *)
(* ================================================================== *)

Module Signal.

Lemma percentile_to_gco2_cons (ppf : Q -> pyfloat) (s : percentile_sample)
    (l : list percentile_sample) :
  percentile_to_gco2 ppf (s :: l)
  = match get_gco2_range_for_region (s_region s) with
    | None => Raise TypeError
    | Some range =>
        rbind (percentile_to_gco2 ppf l) (fun gs =>
        Ok (mk_gco2 (s_region s) (estimate_gco2 ppf range (s_percentile s))
            :: gs))
    end.
Proof.
  unfold percentile_to_gco2. simpl.
  now destruct (get_gco2_range_for_region (s_region s)).
Qed.

Lemma percentile_to_gco2_regions (ppf : Q -> pyfloat)
    (percentiles : list percentile_sample) (gco2s : list gco2_sample) :
  percentile_to_gco2 ppf percentiles = Ok gco2s ->
  map g_region gco2s = map s_region percentiles.
Proof.
  revert gco2s. induction percentiles as [|s l IH]; intros gco2s.
  - intros E. injection E as <-. reflexivity.
  - rewrite percentile_to_gco2_cons.
    destruct (get_gco2_range_for_region (s_region s)); [|discriminate].
    destruct (percentile_to_gco2 ppf l) as [gs|e]; simpl; [|discriminate].
    intros E. injection E as <-. simpl. f_equal. now apply IH.
Qed.

Lemma gco2_to_moer_regions (gco2s : list gco2_sample) :
  map m_region (gco2_to_moer gco2s) = map g_region gco2s.
Proof. unfold gco2_to_moer. rewrite map_map. reflexivity. Qed.

Lemma inject_Z_mean (lo hi : Z) :
  (inject_Z (lo + hi) / 2 == (inject_Z lo + inject_Z hi) / 2)%Q.
Proof. now rewrite inject_Z_plus. Qed.

Lemma inject_Z_spread (lo hi : Z) :
  (inject_Z (hi - lo) / 4 == (inject_Z hi - inject_Z lo) / 4)%Q.
Proof.
  unfold Z.sub. rewrite inject_Z_plus, inject_Z_opp. reflexivity.
Qed.

(** X3.  The calibration range of a region is read as the band of two
    standard deviations around the mean, and the estimate is not clipped to
    it: for a finite z-score, the estimated intensity is within
    [[min, max]] when the z-score is within [[-2, 2]], at least [max] when
    the z-score is at least 2, and at most [min] when it is at most -2. *)
Theorem estimate_within_two_sigma (ppf : Q -> pyfloat) (region : string)
    (range : gco2_range) (p z : Q) :
  get_gco2_range_for_region region = Some range ->
  ppf (p / 100)%Q = Fin z ->
  ((-2 <= z)%Q -> (z <= 2)%Q ->
   fle (Fin (inject_Z (range_min range))) (estimate_gco2 ppf range p) = true
   /\ fle (estimate_gco2 ppf range p) (Fin (inject_Z (range_max range)))
      = true)
  /\ ((2 <= z)%Q ->
      fle (Fin (inject_Z (range_max range))) (estimate_gco2 ppf range p)
      = true)
  /\ ((z <= -2)%Q ->
      fle (estimate_gco2 ppf range p) (Fin (inject_Z (range_min range)))
      = true).
Proof.
  intros Er Hz.
  assert (Hr : range_min range < range_max range).
  { destruct (Catalog.range_cases region) as [(_ & r & E & _ & Hr)|(_ & E)];
      [|congruence].
    assert (r = range) by congruence. subst. lia. }
  unfold estimate_gco2. rewrite Hz. simpl.
  rewrite !Qle_bool_iff, inject_Z_mean, inject_Z_spread.
  assert (Hlt : (inject_Z (range_min range) < inject_Z (range_max range))%Q)
    by now rewrite <- Zlt_Qlt.
  set (lo := inject_Z (range_min range)) in *.
  set (hi := inject_Z (range_max range)) in *.
  assert (E : ((lo + hi) / 2 + z * ((hi - lo) / 4)
               == lo + (z + 2) * ((hi - lo) / 4))%Q) by field.
  assert (E' : ((lo + hi) / 2 + z * ((hi - lo) / 4)
                == hi - (2 - z) * ((hi - lo) / 4))%Q) by field.
  assert (Hd : (0 < (hi - lo) / 4)%Q).
  { apply Qlt_shift_div_l; [reflexivity|]. lra. }
  set (d := ((hi - lo) / 4)%Q) in *.
  split; [|split].
  - intros H1 H2. split.
    + rewrite E. assert (0 <= (z + 2) * d)%Q; [|lra].
      apply Qmult_le_0_compat; lra.
    + rewrite E'. assert (0 <= (2 - z) * d)%Q; [|lra].
      apply Qmult_le_0_compat; lra.
  - intros H. rewrite E'.
    assert (0 <= (z - 2) * d)%Q by (apply Qmult_le_0_compat; lra).
    setoid_replace ((2 - z) * d)%Q with (- ((z - 2) * d))%Q by ring. lra.
  - intros H. rewrite E.
    assert (0 <= (- (z + 2)) * d)%Q by (apply Qmult_le_0_compat; lra).
    setoid_replace ((z + 2) * d)%Q with (- ((- (z + 2)) * d))%Q by ring. lra.
Qed.

Lemma estimate_within_two_sigma_witness :
  fle (Fin (inject_Z 54))
      (estimate_gco2 ppf_standin (mk_range "CAISO_NORTH" 54 263) 75) = true
  /\ fle (estimate_gco2 ppf_standin (mk_range "CAISO_NORTH" 54 263) 75)
         (Fin (inject_Z 263)) = true.
Proof.
  apply (proj1 (@estimate_within_two_sigma ppf_standin "CAISO_NORTH"
                  (mk_range "CAISO_NORTH" 54 263) 75 (4 * (75 / 100) - 2)
                  eq_refl eq_refl));
    apply Qle_bool_imp_le; reflexivity.
Defined.

Lemma conversion_positive : (0 < 220462 # 100000)%Q.
Proof. reflexivity. Qed.

Lemma Qle_bool_scale (a b c : Q) :
  (0 < c)%Q -> Qle_bool (a * c) (b * c) = Qle_bool a b.
Proof.
  intros Hc. apply eq_true_iff_eq. rewrite !Qle_bool_iff.
  now apply Qmult_le_r.
Qed.

Lemma fmul_scale_flt (c : Q) (x y : pyfloat) :
  (0 < c)%Q -> flt (fmul x (Fin c)) (fmul y (Fin c)) = flt x y.
Proof.
  intros Hc.
  destruct x as [|a| |], y as [|b| |]; simpl; unfold finf_mul;
    rewrite ?(Translator.Qsign_pos Hc); simpl; try reflexivity.
  unfold Qltb. now rewrite Qle_bool_scale.
Qed.

Lemma fmul_scale_fle (c : Q) (x y : pyfloat) :
  (0 < c)%Q -> fle (fmul x (Fin c)) (fmul y (Fin c)) = fle x y.
Proof.
  intros Hc.
  destruct x as [|a| |], y as [|b| |]; simpl; unfold finf_mul;
    rewrite ?(Translator.Qsign_pos Hc); simpl; try reflexivity.
  now rewrite Qle_bool_scale.
Qed.

Lemma fmul_scale_nan (c : Q) (x : pyfloat) :
  (0 < c)%Q -> is_nan (fmul x (Fin c)) = is_nan x.
Proof.
  intros Hc. destruct x; simpl; unfold finf_mul;
    rewrite ?(Translator.Qsign_pos Hc); reflexivity.
Qed.

(** X4.  [gco2_to_moer] keeps the regions in order and never reverses a
    comparison: when one intensity is at most another, so are their
    metrics, and a metric strictly below another comes from a strictly
    lower intensity; a metric is NaN exactly when its intensity is.  So the
    conversion can make two regions tie but cannot swap their ranks. *)
Theorem gco2_to_moer_keeps_order (gco2s : list gco2_sample) :
  map m_region (gco2_to_moer gco2s) = map g_region gco2s
  /\ (forall g1 g2 m1 m2,
         In (g1, m1) (combine gco2s (gco2_to_moer gco2s)) ->
         In (g2, m2) (combine gco2s (gco2_to_moer gco2s)) ->
         m_region m1 = g_region g1
         /\ (fle (g_gco2 g1) (g_gco2 g2) = true ->
             fle (m_co2_moer m1) (m_co2_moer m2) = true)
         /\ (flt (m_co2_moer m1) (m_co2_moer m2) = true ->
             flt (g_gco2 g1) (g_gco2 g2) = true)
         /\ is_nan (m_co2_moer m1) = is_nan (g_gco2 g1)).
Proof.
  split.
  - apply gco2_to_moer_regions.
  - assert (H : forall g m, In (g, m) (combine gco2s (gco2_to_moer gco2s)) ->
                            m = mk_moer (g_region g)
                                        (fmul (g_gco2 g) conversion_factor)).
    { induction gco2s as [|g0 gs IH]; simpl; [contradiction|].
      intros g m [E|Hin]; [now injection E as <- <-|now apply IH]. }
    intros g1 g2 m1 m2 H1 H2. apply H in H1, H2. subst. simpl.
    unfold conversion_factor.
    rewrite (fmul_scale_flt _ _ conversion_positive),
      (fmul_scale_fle _ _ conversion_positive),
      (fmul_scale_nan _ conversion_positive).
    auto.
Qed.

End Signal.

(* ================================================================== *)
(** * More on the scheduling policy *)
(* ================================================================== *)

Module Decide.

Import Policy.

(** ** The order on floats *)

Lemma flt_irrefl (x : pyfloat) : flt x x = false.
Proof.
  destruct x; simpl; try reflexivity. unfold Qltb.
  apply negb_false_iff, Qle_bool_iff, Qle_refl.
Qed.

Lemma Qltb_lt (a b : Q) : Qltb a b = true <-> (a < b)%Q.
Proof.
  unfold Qltb. rewrite negb_true_iff. split.
  - intros H. apply Qnot_le_lt. intros C. apply Qle_bool_iff in C. congruence.
  - intros H. destruct (Qle_bool b a) eqn:E; [|reflexivity].
    apply Qle_bool_iff in E. exfalso. eapply Qlt_not_le; eassumption.
Qed.

Lemma flt_trans (x y z : pyfloat) :
  flt x y = true -> flt y z = true -> flt x z = true.
Proof.
  destruct x, y, z; simpl; try congruence.
  rewrite !Qltb_lt. apply Qlt_trans.
Qed.

Lemma flt_fle_trans (x y z : pyfloat) :
  flt x y = true -> fle y z = true -> flt x z = true.
Proof.
  destruct x, y, z; simpl; try congruence.
  rewrite !Qltb_lt, Qle_bool_iff. apply Qlt_le_trans.
Qed.

(** ** Where the selection ends *)

Lemma lowest_step_cases (eligible : list string) (acc c : moer_sample) :
  (lowest_step eligible acc c = c
   /\ flt (m_co2_moer c) (m_co2_moer acc) = true
   /\ str_in (m_region c) eligible = true)
  \/ (lowest_step eligible acc c = acc
      /\ (str_in (m_region c) eligible = true ->
          flt (m_co2_moer c) (m_co2_moer acc) = false)).
Proof.
  unfold lowest_step.
  destruct (flt (m_co2_moer c) (m_co2_moer acc)),
    (str_in (m_region c) eligible); simpl; auto;
    right; (split; [reflexivity|discriminate]).
Qed.

Lemma lowest_fold_in (eligible : list string) (l : list moer_sample) :
  forall acc,
    fold_left (lowest_step eligible) l acc = acc
    \/ In (fold_left (lowest_step eligible) l acc) l.
Proof.
  induction l as [|c l IH]; intros acc; simpl; [now left|].
  destruct (IH (lowest_step eligible acc c)) as [E|Hin]; [|now right; right].
  rewrite E.
  destruct (lowest_step_cases eligible acc c) as [(-> & _)|(-> & _)];
    [right; now left|now left].
Qed.

Lemma get_lowest_in (eligible : list string) (co2_moers : list moer_sample)
    (m : moer_sample) :
  get_lowest_co2_moer eligible co2_moers = Ok m -> In m co2_moers.
Proof.
  destruct co2_moers as [|first rest]; unfold get_lowest_co2_moer;
    [discriminate|].
  intros E. injection E as E. rewrite <- E.
  destruct (lowest_fold_in eligible (first :: rest) first) as [H|H];
    [left; symmetry; exact H|exact H].
Qed.

(** The loop, seen from an entry [acc] of the part already gone over
    ([pre] before it, [post] after it): it ends on the first entry with the
    lowest metric among the eligible ones. *)
Lemma lowest_fold_first (eligible : list string) (l : list moer_sample) :
  Forall (fun c => is_nan (m_co2_moer c) = false) l ->
  forall pre acc post,
    is_nan (m_co2_moer acc) = false ->
    str_in (m_region acc) eligible = true ->
    (forall c, In c pre -> str_in (m_region c) eligible = true ->
               flt (m_co2_moer acc) (m_co2_moer c) = true) ->
    (forall c, In c post -> str_in (m_region c) eligible = true ->
               fle (m_co2_moer acc) (m_co2_moer c) = true) ->
    exists pre' post',
      let r := fold_left (lowest_step eligible) l acc in
      pre ++ acc :: post ++ l = pre' ++ r :: post'
      /\ str_in (m_region r) eligible = true
      /\ (forall c, In c pre' -> str_in (m_region c) eligible = true ->
                    flt (m_co2_moer r) (m_co2_moer c) = true)
      /\ (forall c, In c post' -> str_in (m_region c) eligible = true ->
                    fle (m_co2_moer r) (m_co2_moer c) = true).
Proof.
  induction 1 as [|c l Hc Hl IH]; intros pre acc post Ha He Hpre Hpost.
  - exists pre, post. simpl. rewrite app_nil_r. auto.
  - simpl.
    destruct (lowest_step_cases eligible acc c) as [(-> & F & E)|(-> & F)].
    + destruct (IH (pre ++ acc :: post) c [] Hc E) as (pre' & post' & D & R).
      * intros x Hx Ex. apply in_app_or in Hx. destruct Hx as [Hx|[<-|Hx]].
        -- eapply flt_trans; [exact F|now apply Hpre].
        -- exact F.
        -- eapply flt_fle_trans; [exact F|now apply Hpost].
      * intros x [].
      * exists pre', post'. split; [|exact R].
        rewrite <- D. simpl. rewrite <- app_assoc. reflexivity.
    + destruct (IH pre acc (post ++ [c]) Ha He Hpre) as (pre' & post' & D & R).
      * intros x Hx Ex. apply in_app_or in Hx. destruct Hx as [Hx|[<-|[]]].
        -- now apply Hpost.
        -- apply not_flt_fle; auto.
      * exists pre', post'. split; [|exact R].
        rewrite <- D. rewrite <- app_assoc. reflexivity.
Qed.

(** X5.  When the first entry of the list is eligible and no metric is NaN,
    the selection returns the first of the eligible entries with the
    lowest metric: every eligible entry before it is strictly higher, every
    eligible entry after it is at least as high. *)
Theorem get_lowest_first_minimal (eligible : list string)
    (first : moer_sample) (rest : list moer_sample) :
  Forall (fun c => is_nan (m_co2_moer c) = false) (first :: rest) ->
  str_in (m_region first) eligible = true ->
  exists pre r post,
    get_lowest_co2_moer eligible (first :: rest) = Ok r
    /\ first :: rest = pre ++ r :: post
    /\ str_in (m_region r) eligible = true
    /\ (forall c, In c pre -> str_in (m_region c) eligible = true ->
                  flt (m_co2_moer r) (m_co2_moer c) = true)
    /\ (forall c, In c post -> str_in (m_region c) eligible = true ->
                  fle (m_co2_moer r) (m_co2_moer c) = true).
Proof.
  intros Hall He.
  pose proof (Forall_inv Hall) as Hf. pose proof (Forall_inv_tail Hall) as Hr.
  destruct (@lowest_fold_first eligible rest Hr [] first [] Hf He)
    as (pre & post & D & R).
  - intros c [].
  - intros c [].
  - exists pre, (fold_left (lowest_step eligible) rest first), post.
    split; [|split; [exact D|exact R]].
    unfold get_lowest_co2_moer. simpl. f_equal. f_equal.
    unfold lowest_step. now rewrite flt_irrefl.
Qed.

Lemma get_lowest_first_minimal_witness :
  exists pre r post,
    get_lowest_azure_co2_moer
      [mk_moer "UK" (Fin 7); mk_moer "SE" (Fin 1);
       mk_moer "FR" (Fin 5); mk_moer "CAISO_NORTH" (Fin 5)] = Ok r
    /\ [mk_moer "UK" (Fin 7); mk_moer "SE" (Fin 1);
        mk_moer "FR" (Fin 5); mk_moer "CAISO_NORTH" (Fin 5)]
       = pre ++ r :: post
    /\ m_region r = "FR".
Proof.
  destruct (@get_lowest_first_minimal
              (AZURE_LOCATIONS ++ SHARED_LOCATIONS)
              (mk_moer "UK" (Fin 7))
              [mk_moer "SE" (Fin 1); mk_moer "FR" (Fin 5);
               mk_moer "CAISO_NORTH" (Fin 5)])
    as (pre & r & post & E & D & _).
  - repeat constructor.
  - reflexivity.
  - exists pre, r, post. split; [exact E|]. split; [exact D|].
    vm_compute in E. injection E as <-. reflexivity.
Defined.

(** ** Jobs that may not switch location *)

Lemma decide_fixed (ppf : Q -> pyfloat)
    (get_lowest : list moer_sample -> result moer_sample)
    (map_location : string -> option string)
    (get_threshold : list percentile_sample -> Q -> list percentile_sample)
    (j : job) (percentiles : list percentile_sample)
    (co2_moers : list moer_sample) (now : Z) :
  location_switch j = false ->
  let d := schedule_decision ppf get_lowest map_location get_threshold
                             j percentiles co2_moers now in
  (d = Ok (Some (location j)) \/ d = Ok None)
  /\ (d = Ok None -> time_sensitive j = false /\ now - submitted j < twelve_hours).
Proof.
  intros L. cbv zeta. destruct (time_sensitive j) eqn:T.
  - rewrite decide_case1 by assumption. split; [auto|discriminate].
  - rewrite decide_case3 by assumption.
    destruct (no_earlier_match _ _ _ _); [|split; [auto|discriminate]].
    unfold timeout_check.
    destruct (Z.leb_spec twelve_hours (now - submitted j));
      (split; [auto|]); [discriminate|auto].
Qed.

(** X7.  A job that may not switch location is never sent anywhere but to
    its own location: each provider's decision is that location or [None],
    it never raises, and it is [None] only for a job that is not
    time-sensitive, less than twelve hours after submission. *)
Theorem fixed_job_never_moves (ppf : Q -> pyfloat) (j : job)
    (percentiles : list percentile_sample) (co2_moers : list moer_sample)
    (now : Z) :
  location_switch j = false ->
  forall decide,
    In decide [azure_schedule_decision ppf; aws_schedule_decision ppf] ->
    (decide j percentiles co2_moers now = Ok (Some (location j))
     \/ decide j percentiles co2_moers now = Ok None)
    /\ (decide j percentiles co2_moers now = Ok None ->
        time_sensitive j = false /\ now - submitted j < twelve_hours).
Proof.
  intros L decide [<-|[<-|[]]]; now apply decide_fixed.
Qed.

Lemma fixed_job_never_moves_witness :
  azure_schedule_decision ppf_standin patient_fixed
    [mk_sample "FR" 0] [] 0 = Ok (Some (location patient_fixed))
  \/ azure_schedule_decision ppf_standin patient_fixed
    [mk_sample "FR" 0] [] 0 = Ok None.
Proof.
  apply (@fixed_job_never_moves ppf_standin patient_fixed [mk_sample "FR" 0]
           [] 0 eq_refl (azure_schedule_decision ppf_standin)).
  now left.
Defined.

(** ** Jobs that can wait *)

Lemma eligible_mapped (provider_regions : list string)
    (map_location : string -> option string) (region : string) :
  (provider_regions = AZURE_LOCATIONS /\ map_location = map_azure_location)
  \/ (provider_regions = AWS_LOCATIONS /\ map_location = map_aws_location) ->
  In region (provider_regions ++ SHARED_LOCATIONS) ->
  exists l, map_location region = Some l.
Proof.
  intros [(-> & ->)|(-> & ->)] Hin.
  - destruct (Catalog.map_azure_location_cases region)
      as [(_ & E)|[(_ & E)|[(_ & E)|[(_ & E)|(N & _)]]]];
      [eauto|eauto|eauto|eauto|contradiction].
  - destruct (Catalog.map_aws_location_cases region)
      as [(_ & E)|[(_ & E)|[(_ & E)|[(_ & E)|(N & _)]]]];
      [eauto|eauto|eauto|eauto|contradiction].
Qed.

(** In case 4 a region within the threshold always yields a location. *)
Lemma case4_some (ppf : Q -> pyfloat) (provider_regions : list string)
    (map_location : string -> option string) (j : job)
    (percentiles : list percentile_sample) (co2_moers : list moer_sample)
    (now : Z) :
  (provider_regions = AZURE_LOCATIONS /\ map_location = map_azure_location)
  \/ (provider_regions = AWS_LOCATIONS /\ map_location = map_aws_location) ->
  time_sensitive j = false -> location_switch j = true ->
  let eligible := provider_regions ++ SHARED_LOCATIONS in
  get_percentile_threshold eligible percentiles (percentile_threshold j)
    <> [] ->
  exists l,
    schedule_decision ppf (get_lowest_co2_moer eligible) map_location
      (get_percentile_threshold eligible) j percentiles co2_moers now
    = Ok (Some l).
Proof.
  intros Hp T L eligible Hne. subst eligible.
  assert (Hp' : provider_regions = AZURE_LOCATIONS
                \/ provider_regions = AWS_LOCATIONS)
    by (destruct Hp as [(-> & _)|(-> & _)]; auto).
  destruct (@Lowest.case4_defined ppf provider_regions map_location j
              percentiles co2_moers now Hp' T L Hne)
    as (gs & m & Eg & _ & Em & ->).
  apply get_lowest_in in Em.
  apply (in_map m_region) in Em.
  rewrite Signal.gco2_to_moer_regions in Em.
  rewrite (Signal.percentile_to_gco2_regions ppf _ Eg) in Em.
  apply in_map_iff in Em. destruct Em as (s & Es & Hs).
  pose proof (threshold_matches_eligible (provider_regions ++ SHARED_LOCATIONS)
                percentiles (percentile_threshold j)) as Hall.
  rewrite Forall_forall in Hall. apply Hall in Hs. rewrite Es in Hs.
  destruct (@eligible_mapped provider_regions map_location (m_region m) Hp Hs)
    as (l & ->).
  now exists l.
Qed.

Lemma waits_iff (ppf : Q -> pyfloat) (provider_regions : list string)
    (map_location : string -> option string) (j : job)
    (percentiles : list percentile_sample) (co2_moers : list moer_sample)
    (now : Z) :
  (provider_regions = AZURE_LOCATIONS /\ map_location = map_azure_location)
  \/ (provider_regions = AWS_LOCATIONS /\ map_location = map_aws_location) ->
  time_sensitive j = false ->
  let eligible := provider_regions ++ SHARED_LOCATIONS in
  let d := schedule_decision ppf (get_lowest_co2_moer eligible) map_location
             (get_percentile_threshold eligible) j percentiles co2_moers now in
  (d = Ok None
   <-> no_earlier_match map_location (get_percentile_threshold eligible)
                        j percentiles = true
       /\ now - submitted j < twelve_hours)
  /\ (twelve_hours <= now - submitted j -> exists l, d = Ok (Some l)).
Proof.
  intros Hp T eligible d.
  assert (Htimeout :
            (timeout_check j now = Ok None
             <-> now - submitted j < twelve_hours)
            /\ (twelve_hours <= now - submitted j ->
                exists l, timeout_check j now = Ok (Some l))).
  { unfold timeout_check.
    destruct (Z.leb_spec twelve_hours (now - submitted j)); split.
    - split; [discriminate|lia].
    - intros _. now eexists.
    - split; auto.
    - lia. }
  destruct Htimeout as [Ht1 Ht2].
  destruct (location_switch j) eqn:L.
  - pose proof (@case4_some ppf provider_regions map_location j percentiles
                  co2_moers now Hp T L) as Hsome.
    cbv zeta in Hsome. fold eligible in Hsome.
    unfold d, no_earlier_match. rewrite L.
    rewrite decide_case4 by assumption.
    rewrite decide_case4 in Hsome by assumption.
    destruct (get_percentile_threshold eligible percentiles
                (percentile_threshold j)) as [|m ms].
    + split; [|exact Ht2]. rewrite Ht1. tauto.
    + destruct Hsome as (l & ->); [discriminate|]. split.
      * split; [discriminate|intros [? _]; discriminate].
      * intros _. now exists l.
  - unfold d. rewrite decide_case3 by assumption.
    destruct (no_earlier_match _ _ _ _).
    + split; [|exact Ht2]. rewrite Ht1. tauto.
    + split.
      * split; [discriminate|intros [? _]; discriminate].
      * intros _. now eexists.
Qed.

(** X8.  A job that is not time-sensitive is postponed (decision [None])
    exactly when no earlier case matched and less than twelve hours have
    passed since submission; from twelve hours on the decision is always a
    location, for every snapshot and threshold. *)
Theorem patient_job_waits_iff (ppf : Q -> pyfloat) (j : job)
    (percentiles : list percentile_sample) (co2_moers : list moer_sample)
    (now : Z) :
  time_sensitive j = false ->
  (azure_schedule_decision ppf j percentiles co2_moers now = Ok None
   <-> no_earlier_match map_azure_location get_azure_percentile_threshold
                        j percentiles = true
       /\ now - submitted j < twelve_hours)
  /\ (aws_schedule_decision ppf j percentiles co2_moers now = Ok None
      <-> no_earlier_match map_aws_location get_aws_percentile_threshold
                           j percentiles = true
          /\ now - submitted j < twelve_hours)
  /\ (twelve_hours <= now - submitted j ->
      (exists l, azure_schedule_decision ppf j percentiles co2_moers now
                 = Ok (Some l))
      /\ (exists l, aws_schedule_decision ppf j percentiles co2_moers now
                    = Ok (Some l))).
Proof.
  intros T.
  destruct (@waits_iff ppf AZURE_LOCATIONS map_azure_location j percentiles
              co2_moers now (or_introl (conj eq_refl eq_refl)) T) as [A1 A2].
  destruct (@waits_iff ppf AWS_LOCATIONS map_aws_location j percentiles
              co2_moers now (or_intror (conj eq_refl eq_refl)) T) as [B1 B2].
  split; [exact A1|]. split; [exact B1|]. intros H. split; auto.
Qed.

Lemma patient_job_waits_iff_witness :
  (exists l, azure_schedule_decision ppf_standin patient_switchable
               [mk_sample "FR" 10; mk_sample "UK" 90] [] twelve_hours
             = Ok (Some l))
  /\ (exists l, aws_schedule_decision ppf_standin patient_switchable
                  [mk_sample "FR" 10; mk_sample "UK" 90] [] twelve_hours
                = Ok (Some l)).
Proof.
  apply (@patient_job_waits_iff ppf_standin patient_switchable
           [mk_sample "FR" 10; mk_sample "UK" 90] [] twelve_hours eq_refl).
  vm_compute. discriminate.
Defined.

(** ** The snapshot of a pass in which every request succeeded *)

Lemma In_str_in (s : string) (l : list string) :
  In s l -> str_in s l = true.
Proof.
  intros H. unfold str_in. apply existsb_exists. exists s.
  split; [assumption|apply String.eqb_refl].
Qed.

Lemma estimate_not_nan (ppf : Q -> pyfloat) (range : gco2_range) (p : Q) :
  ppf_contract ppf -> range_min range < range_max range ->
  (0 <= p)%Q -> (p <= 100)%Q ->
  is_nan (estimate_gco2 ppf range p) = false.
Proof.
  intros C Hr H0 H1. pose proof (Translator.std_dev_pos Hr) as Hs.
  destruct (Translator.percentile_quotient p) as (_ & _ & Q0 & Q1 & _).
  pose proof (ppf_mono C (Q0 H0) (Qle_refl _) (Q1 H1)) as Hz.
  unfold estimate_gco2.
  destruct (ppf (p / 100)%Q); simpl in *; try discriminate;
    unfold finf_mul; rewrite ?(Translator.Qsign_pos Hs); reflexivity.
Qed.

Lemma percentile_to_gco2_entries (ppf : Q -> pyfloat)
    (percentiles : list percentile_sample) :
  forall gco2s,
    percentile_to_gco2 ppf percentiles = Ok gco2s ->
    Forall2 (fun s g =>
               exists range,
                 get_gco2_range_for_region (s_region s) = Some range
                 /\ g = mk_gco2 (s_region s)
                                (estimate_gco2 ppf range (s_percentile s)))
            percentiles gco2s.
Proof.
  induction percentiles as [|s l IH]; intros gs E.
  - injection E as <-. constructor.
  - rewrite Signal.percentile_to_gco2_cons in E.
    destruct (get_gco2_range_for_region (s_region s)) as [range|] eqn:Er;
      [|discriminate].
    destruct (percentile_to_gco2 ppf l) as [gs'|]; simpl in E; [|discriminate].
    injection E as <-. constructor; [|now apply IH].
    exists range. auto.
Qed.

Lemma snapshot_all_ok (resp : string -> response) (regions : list string) :
  (forall region, In region regions -> ok (resp region) = true) ->
  snapshot_of resp regions
  = map (fun region => mk_sample region (value (resp region))) regions.
Proof.
  induction regions as [|r regions IH]; intros H; [reflexivity|].
  unfold snapshot_of. simpl. fold (snapshot_of resp regions).
  rewrite (H r (or_introl eq_refl)). simpl. f_equal.
  apply IH. intros region Hin. apply H. now right.
Qed.

(** The metrics derived from a complete snapshot with percentiles in
    [[0, 100]]: none is NaN, and the first is that of [CAISO_NORTH]. *)
Lemma full_snapshot_metrics (ppf : Q -> pyfloat) (resp : string -> response) :
  ppf_contract ppf ->
  (forall region, In region all_regions ->
     ok (resp region) = true
     /\ (0 <= value (resp region))%Q /\ (value (resp region) <= 100)%Q) ->
  exists gco2s first rest,
    percentile_to_gco2 ppf (snapshot_of resp all_regions) = Ok gco2s
    /\ gco2_to_moer gco2s = first :: rest
    /\ m_region first = "CAISO_NORTH"
    /\ Forall (fun c => is_nan (m_co2_moer c) = false) (first :: rest).
Proof.
  intros C H.
  assert (Hok : forall region, In region all_regions -> ok (resp region) = true)
    by (intros region Hin; now apply H).
  destruct (Translator.percentile_to_gco2_total ppf (Tick.snapshot_known resp))
    as (gs & Eg & Hm).
  pose proof (percentile_to_gco2_entries _ _ Eg) as Hent.
  assert (Hnan : Forall (fun c => is_nan (m_co2_moer c) = false)
                        (gco2_to_moer gs)).
  { rewrite snapshot_all_ok in Hent by assumption.
    clear Eg Hm. unfold gco2_to_moer. rewrite Forall_map.
    remember (map (fun region => mk_sample region (value (resp region)))
                  all_regions) as ps eqn:Eps.
    assert (Hps : forall s, In s ps ->
                            In (s_region s) all_regions
                            /\ s_percentile s = value (resp (s_region s))).
    { intros s Hs. rewrite Eps in Hs. apply in_map_iff in Hs.
      destruct Hs as (r & <- & Hr). auto. }
    clear Eps. induction Hent as [|s g ps gs (range & Er & ->) _ IH];
      constructor.
    - destruct (Hps s (or_introl eq_refl)) as (Hin & Ep).
      destruct (H _ Hin) as (_ & H0 & H1).
      simpl. unfold conversion_factor.
      rewrite (Signal.fmul_scale_nan _ Signal.conversion_positive).
      apply estimate_not_nan; try assumption.
      + destruct (Catalog.range_cases (s_region s))
          as [(_ & r & E & _ & Hr)|(_ & E)]; [|congruence].
        assert (r = range) by congruence. subst. lia.
      + now rewrite Ep.
      + now rewrite Ep.
    - apply IH. intros s' Hs'. apply Hps. now right. }
  rewrite snapshot_all_ok in Hm by assumption.
  destruct gs as [|g gs]; [discriminate|].
  exists (g :: gs). eexists. eexists. split; [exact Eg|].
  split; [reflexivity|]. split; [|exact Hnan].
  simpl in Hm. simpl. now injection Hm as -> _.
Qed.

(** X6.  On the snapshot of a pass in which every request succeeded (all
    six regions, percentiles in [[0, 100]]), the decision for a
    time-sensitive job that may switch location is, for each provider, the
    location of an eligible region whose metric is the lowest among that
    provider's eligible regions. *)
Theorem full_snapshot_lowest (ppf : Q -> pyfloat) (resp : string -> response)
    (j : job) (now : Z) :
  ppf_contract ppf ->
  (forall region, In region all_regions ->
     ok (resp region) = true
     /\ (0 <= value (resp region))%Q /\ (value (resp region) <= 100)%Q) ->
  time_sensitive j = true -> location_switch j = true ->
  exists gco2s,
    percentile_to_gco2 ppf (snapshot_of resp all_regions) = Ok gco2s
    /\ forall provider_regions map_location decide,
         In (provider_regions, map_location, decide)
            [(AZURE_LOCATIONS, map_azure_location, azure_schedule_decision ppf);
             (AWS_LOCATIONS, map_aws_location, aws_schedule_decision ppf)] ->
         exists r l,
           In r (gco2_to_moer gco2s)
           /\ In (m_region r) (provider_regions ++ SHARED_LOCATIONS)
           /\ (forall c, In c (gco2_to_moer gco2s) ->
                 In (m_region c) (provider_regions ++ SHARED_LOCATIONS) ->
                 fle (m_co2_moer r) (m_co2_moer c) = true)
           /\ map_location (m_region r) = Some l
           /\ decide j (snapshot_of resp all_regions) (gco2_to_moer gco2s) now
              = Ok (Some l).
Proof.
  intros C H T L.
  destruct (full_snapshot_metrics resp C H)
    as (gs & first & rest & Eg & Em & Ef & Hnan).
  exists gs. split; [exact Eg|].
  intros provider_regions map_location decide Hin.
  assert (Hp : (provider_regions = AZURE_LOCATIONS
                /\ map_location = map_azure_location
                /\ decide = azure_schedule_decision ppf)
               \/ (provider_regions = AWS_LOCATIONS
                   /\ map_location = map_aws_location
                   /\ decide = aws_schedule_decision ppf)).
  { destruct Hin as [E|[E|[]]]; injection E as <- <- <-; auto. }
  assert (He : str_in (m_region first) (provider_regions ++ SHARED_LOCATIONS)
               = true).
  { rewrite Ef. destruct Hp as [(-> & _)|(-> & _)]; reflexivity. }
  rewrite Em.
  destruct (get_lowest_first_eligible (provider_regions ++ SHARED_LOCATIONS)
              Hnan He) as (r & Er & Hr & Hel & Hmin).
  apply str_in_In in Hel.
  destruct (@eligible_mapped provider_regions map_location (m_region r))
    as (l & El); [destruct Hp as [(-> & -> & _)|(-> & -> & _)]; auto|exact Hel|].
  exists r, l. repeat split; try assumption.
  - intros c Hc Hce. apply Hmin; [assumption|now apply In_str_in].
  - destruct Hp as [(-> & -> & ->)|(-> & -> & ->)];
      unfold azure_schedule_decision, aws_schedule_decision;
      rewrite decide_case2 by assumption;
      unfold get_lowest_azure_co2_moer, get_lowest_aws_co2_moer;
      rewrite Er; simpl; now rewrite El.
Qed.

Lemma full_snapshot_lowest_witness :
  exists gco2s,
    percentile_to_gco2 ppf_standin (snapshot_of all_ok all_regions) = Ok gco2s
    /\ exists r l,
         In r (gco2_to_moer gco2s)
         /\ map_aws_location (m_region r) = Some l
         /\ aws_schedule_decision ppf_standin urgent_switchable
              (snapshot_of all_ok all_regions) (gco2_to_moer gco2s) 0
            = Ok (Some l).
Proof.
  destruct (@full_snapshot_lowest ppf_standin all_ok urgent_switchable 0
              Translator.ppf_standin_contract)
    as (gs & Eg & H).
  - intros region _. repeat split; apply Qle_bool_imp_le; reflexivity.
  - reflexivity.
  - reflexivity.
  - exists gs. split; [exact Eg|].
    destruct (H AWS_LOCATIONS map_aws_location
                (aws_schedule_decision ppf_standin))
      as (r & l & Hr & _ & _ & El & Ed); [right; now left|].
    exists r, l. auto.
Defined.


(** ** Case 4: the lowest among the regions within the threshold *)

Lemma metrics_not_nan (ppf : Q -> pyfloat)
    (percentiles : list percentile_sample) (gco2s : list gco2_sample) :
  ppf_contract ppf ->
  (forall s, In s percentiles ->
             (0 <= s_percentile s)%Q /\ (s_percentile s <= 100)%Q) ->
  percentile_to_gco2 ppf percentiles = Ok gco2s ->
  Forall (fun c => is_nan (m_co2_moer c) = false) (gco2_to_moer gco2s).
Proof.
  intros C Hps Eg. pose proof (percentile_to_gco2_entries _ _ Eg) as Hent.
  clear Eg. unfold gco2_to_moer. rewrite Forall_map.
  induction Hent as [|s g ps gs (range & Er & ->) _ IH]; constructor.
  - destruct (Hps s (or_introl eq_refl)) as (H0 & H1).
    simpl. unfold conversion_factor.
    rewrite (Signal.fmul_scale_nan _ Signal.conversion_positive).
    apply estimate_not_nan; try assumption.
    destruct (Catalog.range_cases (s_region s))
      as [(_ & r & E & _ & Hr)|(_ & E)]; [|congruence].
    assert (r = range) by congruence. subst. lia.
  - apply IH. intros s' Hs'. apply Hps. now right.
Qed.

(** X13.  Case 4 ranks only the regions within the threshold: for a job
    that is not time-sensitive and may switch location, when some eligible
    region of the snapshot has a percentile at most the job's threshold
    (percentiles in [[0, 100]]), the decision of either provider is the
    location of such a region, one whose metric is the lowest among them.
    The list [co2_moers] of the pass is not consulted. *)
Theorem case4_lowest_within_threshold (ppf : Q -> pyfloat) (j : job)
    (percentiles : list percentile_sample) (co2_moers : list moer_sample)
    (now : Z) :
  ppf_contract ppf ->
  (forall s, In s percentiles ->
             (0 <= s_percentile s)%Q /\ (s_percentile s <= 100)%Q) ->
  time_sensitive j = false -> location_switch j = true ->
  forall provider_regions map_location decide,
    In (provider_regions, map_location, decide)
       [(AZURE_LOCATIONS, map_azure_location, azure_schedule_decision ppf);
        (AWS_LOCATIONS, map_aws_location, aws_schedule_decision ppf)] ->
    let eligible := provider_regions ++ SHARED_LOCATIONS in
    let matches :=
      get_percentile_threshold eligible percentiles (percentile_threshold j) in
    matches <> [] ->
    exists gco2s r s l,
      percentile_to_gco2 ppf matches = Ok gco2s
      /\ In r (gco2_to_moer gco2s)
      /\ (forall c, In c (gco2_to_moer gco2s) ->
                    fle (m_co2_moer r) (m_co2_moer c) = true)
      /\ In s percentiles /\ s_region s = m_region r
      /\ In (s_region s) eligible
      /\ (s_percentile s <= percentile_threshold j)%Q
      /\ map_location (m_region r) = Some l
      /\ decide j percentiles co2_moers now = Ok (Some l).
Proof.
  intros C Hps T L provider_regions map_location decide Hin eligible matches
         Hne.
  assert (Hp : (provider_regions = AZURE_LOCATIONS
                /\ map_location = map_azure_location
                /\ decide = azure_schedule_decision ppf)
               \/ (provider_regions = AWS_LOCATIONS
                   /\ map_location = map_aws_location
                   /\ decide = aws_schedule_decision ppf)).
  { destruct Hin as [E|[E|[]]]; injection E as <- <- <-; auto. }
  assert (Hp' : provider_regions = AZURE_LOCATIONS
                \/ provider_regions = AWS_LOCATIONS)
    by (destruct Hp as [(-> & _)|(-> & _)]; auto).
  assert (Hp'' : (provider_regions = AZURE_LOCATIONS
                  /\ map_location = map_azure_location)
                 \/ (provider_regions = AWS_LOCATIONS
                     /\ map_location = map_aws_location))
    by (destruct Hp as [(-> & -> & _)|(-> & -> & _)]; auto).
  assert (Hm : forall s, In s matches ->
                         In s percentiles
                         /\ (s_percentile s <= percentile_threshold j)%Q
                         /\ In (s_region s) eligible).
  { intros s Hs. unfold matches, get_percentile_threshold in Hs.
    apply filter_In in Hs. destruct Hs as (Hs & Hb).
    apply andb_true_iff in Hb. destruct Hb as (Hq & He).
    split; [exact Hs|]. split; [now apply Qle_bool_iff|now apply str_in_In]. }
  assert (Hall : Forall (fun s => In (s_region s) all_regions) matches).
  { apply Forall_forall. intros s Hs.
    apply (eligible_known Hp'). now apply Hm. }
  destruct (Translator.percentile_to_gco2_total ppf Hall) as (gs & Eg & _).
  assert (Hnan : Forall (fun c => is_nan (m_co2_moer c) = false)
                        (gco2_to_moer gs)).
  { apply metrics_not_nan with (ppf := ppf) (percentiles := matches);
      [exact C| |exact Eg].
    intros s Hs. apply Hps. now apply Hm. }
  assert (Hreg : forall c, In c (gco2_to_moer gs) ->
                           exists s, In s matches /\ s_region s = m_region c).
  { intros c Hc. apply (in_map m_region) in Hc.
    rewrite Signal.gco2_to_moer_regions in Hc.
    rewrite (Signal.percentile_to_gco2_regions ppf _ Eg) in Hc.
    apply in_map_iff in Hc. destruct Hc as (s & Es & Hs). now exists s. }
  destruct (gco2_to_moer gs) as [|first rest] eqn:Em.
  { exfalso. apply (f_equal (map m_region)) in Em.
    rewrite Signal.gco2_to_moer_regions in Em.
    rewrite (Signal.percentile_to_gco2_regions ppf _ Eg) in Em.
    destruct matches; [now apply Hne|discriminate]. }
  assert (Hel : forall c, In c (first :: rest) ->
                          str_in (m_region c) eligible = true).
  { intros c Hc. destruct (Hreg c Hc) as (s & Hs & <-).
    apply In_str_in. now apply Hm. }
  destruct (get_lowest_first_eligible eligible Hnan
              (Hel first (or_introl eq_refl)))
    as (r & Er & Hr & _ & Hmin).
  destruct (Hreg r Hr) as (s & Hs & Es).
  destruct (Hm s Hs) as (Hsp & Hst & Hse).
  destruct (@eligible_mapped provider_regions map_location (m_region r) Hp'')
    as (l & El); [now rewrite <- Es|].
  exists gs, r, s, l. rewrite Em.
  split; [exact Eg|]. split; [exact Hr|]. split.
  { intros c Hc. apply Hmin; [exact Hc|now apply Hel]. }
  split; [exact Hsp|]. split; [exact Es|]. split; [exact Hse|].
  split; [exact Hst|]. split; [exact El|].
  assert (Ed : schedule_decision ppf (get_lowest_co2_moer eligible)
                 map_location (get_percentile_threshold eligible)
                 j percentiles co2_moers now = Ok (Some l)).
  { rewrite decide_case4 by assumption. fold matches.
    destruct matches as [|m0 ms]; [congruence|].
    rewrite Eg. simpl. rewrite Em, Er. simpl. now rewrite El. }
  destruct Hp as [(-> & -> & ->)|(-> & -> & ->)]; exact Ed.
Qed.

Lemma case4_lowest_within_threshold_witness :
  exists l,
    azure_schedule_decision ppf_standin patient_switchable
      [mk_sample "FR" 40; mk_sample "UK" 30; mk_sample "SE" 10;
       mk_sample "PJM_ROANOKE" 90] [] 0
    = Ok (Some l).
Proof.
  destruct (@case4_lowest_within_threshold ppf_standin patient_switchable
              [mk_sample "FR" 40; mk_sample "UK" 30; mk_sample "SE" 10;
               mk_sample "PJM_ROANOKE" 90] [] 0
              Translator.ppf_standin_contract)
    with (provider_regions := AZURE_LOCATIONS)
         (map_location := map_azure_location)
         (decide := azure_schedule_decision ppf_standin)
    as (gs & r & s & l & _ & _ & _ & _ & _ & _ & _ & _ & E).
  - intros s [<-|[<-|[<-|[<-|[]]]]]; split; apply Qle_bool_imp_le; reflexivity.
  - reflexivity.
  - reflexivity.
  - now left.
  - discriminate.
  - now exists l.
Defined.

End Decide.

(* ================================================================== *)
(** * The carbon client as [main] uses it *)
(* ================================================================== *)

Module Compose.

Lemma fetches_no_token (new : list call) :
  forallb is_fetch new = true -> count is_generate_token new = 0%nat.
Proof.
  induction new as [|c new IH]; [reflexivity|].
  simpl. rewrite andb_true_iff. intros [Hc Hn].
  unfold count in *. simpl. destruct c; try discriminate. now apply IH.
Qed.

(** X9.  Over [WattTime.get_current], which raises on an answer that is not
    ok, [get_region_percentiles] is all or nothing: it returns the samples
    of all six regions, in the order they are asked, when every answer is
    ok, and raises [HTTPError] otherwise.  Either way it only makes
    signal-index requests: it never generates a token and the global token
    is unchanged. *)
Theorem composed_fetch_all_or_nothing (resp : string -> response)
    (token : nat) (st : state) :
  let run := get_region_percentiles
               (fun region => WattTime_get_current (resp region)) token st in
  only_fetched st (snd run)
  /\ TOKEN (snd run) = TOKEN st
  /\ count is_generate_token (calls_since st (snd run)) = 0%nat
  /\ (((forall region, In region all_regions -> ok (resp region) = true)
       /\ fst run = Ok (map (fun region => mk_sample region (value (resp region)))
                            all_regions))
      \/ ((exists region, In region all_regions /\ ok (resp region) = false)
          /\ fst run = Raise HTTPError)).
Proof.
  cbv zeta. unfold get_region_percentiles. fold all_regions.
  destruct (Tick.real_fetch resp token all_regions [] st) as (Hf & Hres).
  destruct (fetch_regions _ token all_regions [] st) as [r st1].
  cbn [fst snd app] in *.
  destruct Hf as (new & -> & Hnew).
  split; [now exists new|]. split; [now destruct st|]. split.
  - rewrite (@Fetch.calls_since_app st _ new) by now destruct st.
    now apply fetches_no_token.
  - destruct Hres as [(Hall & ->)|(Hall & ->)].
    + left. rewrite forallb_forall in Hall. split; [exact Hall|].
      now rewrite Decide.snapshot_all_ok.
    + right. split; [|reflexivity].
      apply Bool.not_true_iff_false in Hall.
      destruct (existsb (fun region => negb (ok (resp region))) all_regions)
        eqn:E.
      * apply existsb_exists in E. destruct E as (region & Hin & Hn).
        exists region. split; [assumption|]. now apply negb_true_iff.
      * exfalso. apply Hall. apply forallb_forall. intros region Hin.
        destruct (ok (resp region)) eqn:Eo; [reflexivity|].
        assert (existsb (fun region => negb (ok (resp region))) all_regions
                = true); [|congruence].
        apply existsb_exists. exists region. now rewrite Eo.
Qed.

End Compose.

(* ================================================================== *)
(** * Lookups that cannot fail *)
(* ================================================================== *)

Module Bound.

Lemma dict_set_keeps_key {V} (k name : string) (v : V) (d : dict V) :
  dict_get k d <> None -> dict_get k (dict_set name v d) <> None.
Proof.
  intros H. destruct (String.eqb_spec name k) as [->|Hne].
  - rewrite Ledger.dict_get_set_same. discriminate.
  - now rewrite (@Ledger.dict_get_set_other V name k v d Hne).
Qed.

Lemma dict_set_entry_inv {V} (k name : string) (v l : V) (d : dict V) :
  dict_get k (dict_set name v d) = Some l ->
  (k = name /\ l = v) \/ dict_get k d = Some l.
Proof.
  destruct (String.eqb_spec name k) as [->|Hne].
  - rewrite Ledger.dict_get_set_same. intros E. injection E as <-. auto.
  - rewrite (@Ledger.dict_get_set_other V name k v d Hne). auto.
Qed.

Lemma dict_set_key_inv {V} (k name : string) (v : V) (d : dict V) :
  dict_get k (dict_set name v d) <> None -> k = name \/ dict_get k d <> None.
Proof.
  destruct (String.eqb_spec name k) as [->|Hne]; [auto|].
  rewrite (@Ledger.dict_get_set_other V name k v d Hne). auto.
Qed.

Lemma keys_get {V} (k : string) (d : dict V) :
  In k (map fst d) -> dict_get k d <> None.
Proof.
  induction d as [|[k' v] d IH]; simpl; [tauto|].
  intros [->|H].
  - now rewrite String.eqb_refl.
  - destruct (k' =? k)%string; [discriminate|auto].
Qed.

Lemma list_remove_In {X} (eqb : X -> X -> bool) (x y : X) (l l' : list X) :
  list_remove eqb x l = Some l' -> In y l' -> In y l.
Proof.
  revert l'. induction l as [|z l IH]; intros l'; simpl; [discriminate|].
  destruct (eqb z x).
  - intros E. injection E as <-. auto.
  - destruct (list_remove eqb x l) as [l0|]; simpl; [|discriminate].
    intros E. injection E as <-. simpl. intros [->|H]; [auto|].
    right. now apply (IH l0).
Qed.

(** ** Rules *)

Section Rules.

Context {A B : Type}.

Lemma safe_ret (P : state -> Prop) (a : A) : safe P (ret a) P.
Proof. intros st H. repeat split; [discriminate|discriminate|exact H]. Qed.

Lemma safe_get (P : state -> Prop) : safe P get P.
Proof. intros st H. repeat split; [discriminate|discriminate|exact H]. Qed.

Lemma safe_raise (P Q : state -> Prop) (e : exn) :
  e <> KeyError -> e <> NameError -> (forall st, P st -> Q st) ->
  safe P (@raise A e) Q.
Proof.
  intros H1 H2 HQ st H. simpl. repeat split; try congruence. now apply HQ.
Qed.

Lemma safe_lift (P : state -> Prop) (r : result A) :
  r <> Raise KeyError -> r <> Raise NameError -> safe P (lift r) P.
Proof. intros H1 H2 st H. simpl. auto. Qed.

Lemma safe_modify (P Q : state -> Prop) (f : state -> state) :
  (forall st, P st -> Q (f st)) -> safe P (modify f) Q.
Proof.
  intros Hf st H. simpl. repeat split; [discriminate|discriminate|auto].
Qed.

Lemma safe_bind (P Q R : state -> Prop) (c : M A) (k : A -> M B) :
  safe P c Q -> (forall a, safe Q (k a) R) -> (forall st, Q st -> R st) ->
  safe P (bind c k) R.
Proof.
  intros Hc Hk HQ st H. specialize (Hc st H). unfold bind.
  destruct (c st) as [[a|e] st1]; simpl in *.
  - apply Hk. tauto.
  - destruct Hc as (H1 & H2 & H3). repeat split; [congruence|congruence|auto].
Qed.

Lemma safe_weaken (P P' Q Q' : state -> Prop) (c : M A) :
  safe P c Q -> (forall st, P' st -> P st) -> (forall st, Q st -> Q' st) ->
  safe P' c Q'.
Proof.
  intros Hc HP HQ st H. destruct (Hc st (HP st H)) as (H1 & H2 & H3). auto.
Qed.

End Rules.

Lemma safe_for_in {X} (P : state -> Prop) (lst : state -> list X)
    (body : nat -> X -> M unit) :
  (forall i x,
      safe (fun st => P st /\ nth_error (lst st) i = Some x) (body i x) P) ->
  forall fuel i, safe P (for_in fuel lst body i) P.
Proof.
  intros Hb. induction fuel as [|fuel IH]; intros i st H; simpl.
  - destruct (nth_error (lst st) i); simpl;
      repeat split; try discriminate; exact H.
  - destruct (nth_error (lst st) i) as [x|] eqn:E; simpl.
    + destruct (Hb i x st (conj H E)) as (H1 & H2 & H3). unfold bind.
      destruct (body i x st) as [[[]|e] st1]; simpl in *.
      * now apply IH.
      * repeat split; [congruence|congruence|exact H3].
    + repeat split; try discriminate; exact H.
Qed.


(** ** The ledger *)

Section Pass.

Variable ppf : Q -> pyfloat.
Variables azure_vms aws_vms : list vm.
Variable keys : list string.
Hypothesis Hkeys : forall v, In v (azure_vms ++ aws_vms) -> In (vm_name v) keys.

Local Abbreviation C := (consistent azure_vms aws_vms keys).

Lemma consistent_weaken (L L' : Prop) (st : state) :
  (L' -> L) -> C L st -> C L' st.
Proof.
  intros HL (H1 & H2 & H3 & H4).
  split; [exact H1|split; [exact H2|split; [exact H3|auto]]].
Qed.

Lemma consistent_key (L : Prop) (st : state) (name : string) :
  C L st -> In name keys ->
  dict_get name (vm_jobs st) <> None /\ dict_get name (vm_clients st) <> None.
Proof.
  intros ((H1 & H1') & H2 & H3 & H4) Hin. split; [now apply H2|].
  apply H1'. now apply H2.
Qed.

Lemma consistent_jobs_set (L : Prop) (st : state) (name : string)
    (l : list ledger_entry) :
  C L st -> In name keys ->
  C L (set_vm_jobs st (dict_set name l (vm_jobs st))).
Proof.
  intros H Hin. destruct (@consistent_key _ _ name H Hin) as (Kj & Kc).
  destruct H as ((H1 & H1') & H2 & H3 & H4).
  split; [split|split; [|split; [exact H3|exact H4]]]; simpl.
  - intros v Hv. apply dict_set_keeps_key. now apply H1.
  - intros k Hk. apply dict_set_key_inv in Hk.
    destruct Hk as [->|Hk]; [assumption|now apply H1'].
  - intros k Hk. apply dict_set_keeps_key. now apply H2.
Qed.

Lemma consistent_clients_set (L : Prop) (st : state) (name : string)
    (l l' : list ssh_entry) :
  C L st -> dict_get name (vm_clients st) = Some l ->
  (forall c, In c l' -> ssh_job_type c = AWS -> In c l \/ L) ->
  C L (set_vm_clients st (dict_set name l' (vm_clients st))).
Proof.
  intros ((H1 & H1') & H2 & H3 & H4) El Hl'.
  split; [split|split; [exact H2|split; [|exact H4]]]; simpl.
  - exact H1.
  - intros k Hk. apply dict_set_keeps_key. now apply H1'.
  - intros n l0 c E Hin Ht. simpl in E. apply dict_set_entry_inv in E.
    destruct E as [(-> & ->)|E].
    + destruct (Hl' c Hin Ht) as [Hc|HL].
      * exact (H3 name l c El Hc Ht).
      * now apply H4.
    + exact (H3 n l0 c E Hin Ht).
Qed.

Lemma safe_emit (L : Prop) (c : call) : safe (C L) (emit c) (C L).
Proof. apply safe_modify. intros st H. exact H. Qed.

Lemma safe_seq {A B} (P : state -> Prop) (c : M A) (k : A -> M B) :
  safe P c P -> (forall a, safe P (k a) P) -> safe P (bind c k) P.
Proof. intros Hc Hk. apply safe_bind with (Q := P); auto. Qed.

Lemma safe_ledger_jobs (L : Prop) (name : string) :
  In name keys -> safe (C L) (ledger_jobs name) (C L).
Proof.
  intros Hin st H. destruct (@consistent_key _ _ name H Hin) as (Kj & _).
  unfold ledger_jobs, bind, get, ret, raise.
  destruct (dict_get name (vm_jobs st)); [|contradiction].
  simpl. split; [discriminate|split; [discriminate|exact H]].
Qed.

Lemma safe_ledger_clients (L : Prop) (name : string) :
  In name keys -> safe (C L) (ledger_clients name) (C L).
Proof.
  intros Hin st H. destruct (@consistent_key _ _ name H Hin) as (_ & Kc).
  unfold ledger_clients, bind, get, ret, raise.
  destruct (dict_get name (vm_clients st)); [|contradiction].
  simpl. split; [discriminate|split; [discriminate|exact H]].
Qed.

Lemma safe_append_job (L : Prop) (name : string) (e : ledger_entry) :
  In name keys -> safe (C L) (append_job name e) (C L).
Proof.
  intros Hin. unfold append_job. apply safe_seq.
  - now apply safe_ledger_jobs.
  - intros l. apply safe_modify. intros st H. now apply consistent_jobs_set.
Qed.

Lemma safe_append_client (L : Prop) (name : string) (c : ssh_entry) :
  In name keys -> (ssh_job_type c = AWS -> L) ->
  safe (C L) (append_client name c) (C L).
Proof.
  intros Hin HL st H. destruct (@consistent_key _ _ name H Hin) as (_ & Kc).
  unfold append_client, ledger_clients, bind, get, ret, raise, modify.
  destruct (dict_get name (vm_clients st)) as [l|] eqn:E; [|contradiction].
  simpl. split; [discriminate|split; [discriminate|]].
  apply consistent_clients_set with (l := l); [exact H|exact E|].
  intros c' Hc' Ht. apply in_app_or in Hc'.
  destruct Hc' as [Hc'|[<-|[]]]; [now left|right; now apply HL].
Qed.

Lemma safe_open_session (L : Prop) (t : job_type) (j : job) (vm_info : vm)
    (aws_client : option string) :
  In (vm_name vm_info) keys -> (t = AWS -> L) ->
  safe (C L) (open_session t j vm_info aws_client) (C L).
Proof.
  intros Hin HL. unfold open_session, new_ssh_client.
  apply safe_seq.
  { apply safe_seq; [apply safe_get|]. intros st0.
    apply safe_seq; [|intros; apply safe_ret].
    apply safe_modify. intros st H. exact H. }
  intros client. apply safe_seq; [apply safe_emit|]. intros _.
  apply safe_seq; [|intros _; apply safe_emit].
  apply safe_append_client; [assumption|]. simpl. exact HL.
Qed.

Lemma safe_drop_pair (L : Prop) (name : string) (j : ledger_entry)
    (c : ssh_entry) :
  In name keys -> safe (C L) (drop_pair name j c) (C L).
Proof.
  intros Hin. unfold drop_pair.
  apply safe_seq; [apply safe_emit|]. intros _.
  apply safe_seq; [now apply safe_ledger_jobs|]. intros jobs.
  destruct (list_remove entry_eqb j jobs) as [jobs'|];
    [|apply safe_raise; [discriminate|discriminate|auto]].
  apply safe_seq.
  { apply safe_modify. intros st H. now apply consistent_jobs_set. }
  intros _. intros st H. destruct (@consistent_key _ _ name H Hin) as (_ & Kc).
  unfold ledger_clients, bind, get, ret, raise, modify.
  destruct (dict_get name (vm_clients st)) as [l|] eqn:E; [|contradiction].
  destruct (list_remove ssh_eqb c l) as [l'|] eqn:El; simpl.
  - split; [discriminate|split; [discriminate|]].
    apply consistent_clients_set with (l := l); [exact H|exact E|].
    intros c' Hc' _. left. exact (@list_remove_In _ _ _ _ _ _ El Hc').
  - split; [discriminate|split; [discriminate|exact H]].
Qed.

Lemma safe_aws_stop (c : ssh_entry) : safe (C True) (aws_stop c) (C True).
Proof.
  intros st H. pose proof H as (_ & _ & _ & Hs).
  destruct (Hs I) as (Hi & Hr).
  unfold aws_stop, bind, get, raise, emit, modify.
  destruct (ssh_aws_client c) as [aws_client|]; simpl;
    [|split; [discriminate|split; [discriminate|exact H]]].
  destruct (instance_id st) as [id|] eqn:Ei; [|contradiction].
  simpl.
  destruct (aws_region_client st) as [[session|]|] eqn:Er; [| |contradiction];
    simpl; (split; [discriminate|split; [discriminate|exact H]]).
Qed.

Lemma safe_check_client (w : world) (name : string) (j : ledger_entry)
    (c : ssh_entry) :
  In name keys ->
  safe (C (ssh_job_type c = AWS)) (check_client w name j c)
       (C (ssh_job_type c = AWS)).
Proof.
  intros Hin. unfold check_client.
  destruct (ssh_job_name c =? job_name (entry_job j))%string;
    [|apply safe_ret].
  apply safe_seq; [apply safe_emit|]. intros _.
  destruct (probe w (ssh_client c) (output (entry_job j))); [|apply safe_ret].
  apply safe_seq; [now apply safe_drop_pair|]. intros _.
  apply safe_seq; [now apply safe_ledger_jobs|]. intros jobs.
  destruct (Nat.eqb (length jobs) 0); [|apply safe_ret].
  destruct (ssh_job_type c) eqn:Et.
  - apply safe_emit.
  - apply safe_weaken with (P := C True) (Q := C True);
      [apply safe_aws_stop| |]; intros st H.
    + apply consistent_weaken with (L := AWS = AWS); [auto|exact H].
    + apply consistent_weaken with (L := True); [auto|exact H].
Qed.

Lemma safe_sweep_vm (w : world) (name : string) :
  In name keys -> safe (C False) (sweep_vm w name) (C False).
Proof.
  intros Hin. unfold sweep_vm. apply safe_seq; [apply safe_get|]. intros st0.
  apply safe_for_in. intros i j.
  apply safe_weaken with (P := C False) (Q := C False); [|tauto|auto].
  apply safe_seq; [now apply safe_ledger_clients|]. intros ssh_clients.
  apply safe_for_in. intros i' c st (H & Hn).
  assert (Hc : C (ssh_job_type c = AWS) st).
  { destruct H as (H1 & H2 & H3 & H4).
    split; [exact H1|split; [exact H2|split; [exact H3|]]].
    intros Ht. apply nth_error_In in Hn. unfold clients_of in Hn.
    destruct (dict_get name (vm_clients st)) as [l|] eqn:E; [|destruct Hn].
    apply (H3 name l c E Hn Ht). }
  destruct (@safe_check_client w name j c Hin st Hc) as (E1 & E2 & E3).
  split; [assumption|split; [assumption|]].
  apply consistent_weaken with (L := ssh_job_type c = AWS);
    [tauto|exact E3].
Qed.

Lemma safe_sweep_vms (w : world) (names : list string) :
  (forall name, In name names -> In name keys) ->
  safe (C False) (sweep_vms w names) (C False).
Proof.
  induction names as [|name names IH]; intros Hn; simpl; [apply safe_ret|].
  apply safe_seq.
  - apply safe_sweep_vm. apply Hn. now left.
  - intros _. apply IH. intros n Hin. apply Hn. now right.
Qed.


(** ** The scheduling loops *)

Lemma percentile_to_gco2_only_type_error (e : exn)
    (percentiles : list percentile_sample) :
  e <> TypeError -> percentile_to_gco2 ppf percentiles <> Raise e.
Proof.
  intros He. apply Fuel.rmap_raises. intros s.
  destruct (get_gco2_range_for_region (s_region s)); congruence.
Qed.

Lemma decision_only_index_or_type_error (e : exn) (eligible : list string)
    (map_location : string -> option string) (j : job)
    (percentiles : list percentile_sample) (co2_moers : list moer_sample)
    (now : Z) :
  e <> IndexError -> e <> TypeError ->
  schedule_decision ppf (get_lowest_co2_moer eligible) map_location
                    (get_percentile_threshold eligible)
                    j percentiles co2_moers now
  <> Raise e.
Proof.
  intros Hi Ht.
  assert (Hl : forall ms, get_lowest_co2_moer eligible ms <> Raise e)
    by (intros [|m ms]; simpl; congruence).
  unfold schedule_decision.
  destruct (time_sensitive j && negb (location_switch j)); [discriminate|].
  destruct (time_sensitive j && location_switch j).
  { specialize (Hl co2_moers).
    destruct (get_lowest_co2_moer eligible co2_moers); simpl;
      [discriminate|congruence]. }
  cbv zeta.
  destruct (if negb (time_sensitive j) && negb (location_switch j)
            then find _ _ else None); [discriminate|].
  destruct (if negb (time_sensitive j) && location_switch j
            then get_percentile_threshold eligible percentiles
                   (percentile_threshold j)
            else []) as [|m ms].
  { unfold timeout_check. destruct (twelve_hours <=? _); discriminate. }
  pose proof (@percentile_to_gco2_only_type_error e (m :: ms) Ht) as H.
  destruct (percentile_to_gco2 ppf (m :: ms)) as [gs|e']; simpl; [|congruence].
  specialize (Hl (gco2_to_moer gs)).
  destruct (get_lowest_co2_moer eligible (gco2_to_moer gs)); simpl;
    [discriminate|congruence].
Qed.

Lemma safe_azure_dispatch (L : Prop) (j : job) (region : string) :
  safe (C L) (azure_dispatch azure_vms j region) (C L).
Proof.
  unfold azure_dispatch. apply safe_seq; [apply safe_get|]. intros st0.
  destruct (list_remove job_eqb j (azure_jobs st0)) as [l|];
    [|apply safe_raise; [discriminate|discriminate|auto]].
  apply safe_seq; [apply safe_modify; intros st H; exact H|]. intros _.
  destruct (get_azure_vm_by_region azure_vms region) as [vm_info|] eqn:Ev;
    [|apply safe_raise; [discriminate|discriminate|auto]].
  assert (Hin : In (vm_name vm_info) keys).
  { apply Hkeys. apply in_or_app. left.
    unfold get_azure_vm_by_region in Ev. now apply find_some in Ev. }
  apply safe_seq; [now apply safe_ledger_jobs|]. intros jobs.
  apply safe_seq.
  { destruct (Nat.eqb (length jobs) 0); [apply safe_emit|apply safe_ret]. }
  intros _. apply safe_seq; [now apply safe_append_job|]. intros _.
  apply safe_open_session; [assumption|discriminate].
Qed.

Lemma safe_aws_dispatch (L : Prop) (j : job) (region : string) :
  safe (C L) (aws_dispatch aws_vms j region) (C L).
Proof.
  unfold aws_dispatch. apply safe_seq; [apply safe_get|]. intros st0.
  destruct (list_remove job_eqb j (aws_jobs st0)) as [l|];
    [|apply safe_raise; [discriminate|discriminate|auto]].
  apply safe_seq; [apply safe_modify; intros st H; exact H|]. intros _.
  cbv zeta.
  apply safe_bind
    with (Q := fun st => C L st /\ aws_region_client st <> None);
    [| |tauto].
  { apply safe_modify. intros st (H1 & H2 & H3 & H4).
    split; [|discriminate].
    split; [exact H1|split; [exact H2|split]].
    - intros n l0 c E Hin Ht. destruct (H3 n l0 c E Hin Ht) as (Hi & _).
      split; [exact Hi|discriminate].
    - intros HL. destruct (H4 HL) as (Hi & _).
      split; [exact Hi|discriminate]. }
  intros _.
  destruct (get_aws_vm_by_region aws_vms region) as [vm_info|] eqn:Ev;
    [|apply safe_raise; [discriminate|discriminate|tauto]].
  assert (Hin : In (vm_name vm_info) keys).
  { apply Hkeys. apply in_or_app. right.
    unfold get_aws_vm_by_region in Ev. now apply find_some in Ev. }
  assert (Hw : forall st, C True st -> C L st).
  { intros st H. apply consistent_weaken with (L := True); [auto|exact H]. }
  apply safe_bind with (Q := C True); [| |exact Hw].
  { apply safe_modify. intros st ((H1 & H2 & H3 & H4) & Hr).
    split; [exact H1|split; [exact H2|split]].
    - intros n l0 c E Hin' Ht. split; [discriminate|exact Hr].
    - intros _. split; [discriminate|exact Hr]. }
  intros _.
  apply safe_weaken with (P := C True) (Q := C True); [|auto|exact Hw].
  apply safe_seq; [now apply safe_ledger_jobs|]. intros jobs.
  apply safe_seq.
  { destruct (Nat.eqb (length jobs) 0); [|apply safe_ret].
    destruct (find_aws_client region) as [session|];
      [|apply safe_raise; [discriminate|discriminate|auto]].
    apply safe_seq; [apply safe_emit|]. intros _. apply safe_emit. }
  intros _. apply safe_seq; [now apply safe_append_job|]. intros _.
  apply safe_open_session; [assumption|auto].
Qed.

Lemma safe_azure_loop (L : Prop) (w : world)
    (percentiles : list percentile_sample) (co2_moers : list moer_sample) :
  safe (C L) (azure_loop ppf azure_vms w percentiles co2_moers) (C L).
Proof.
  unfold azure_loop. apply safe_seq; [apply safe_get|]. intros st0.
  apply safe_for_in. intros i j.
  apply safe_weaken with (P := C L) (Q := C L); [|tauto|auto].
  apply safe_seq.
  - apply safe_lift; apply decision_only_index_or_type_error; discriminate.
  - intros [region|]; [apply safe_azure_dispatch|apply safe_ret].
Qed.

Lemma safe_aws_loop (L : Prop) (w : world)
    (percentiles : list percentile_sample) (co2_moers : list moer_sample) :
  safe (C L) (aws_loop ppf aws_vms w percentiles co2_moers) (C L).
Proof.
  unfold aws_loop. apply safe_seq; [apply safe_get|]. intros st0.
  apply safe_for_in. intros i j.
  apply safe_weaken with (P := C L) (Q := C L); [|tauto|auto].
  apply safe_seq.
  - apply safe_lift; apply decision_only_index_or_type_error; discriminate.
  - intros [region|]; [apply safe_aws_dispatch|apply safe_ret].
Qed.

Lemma safe_schedule (L : Prop) (w : world)
    (percentiles : list percentile_sample) (co2_moers : list moer_sample) :
  safe (C L) (schedule ppf azure_vms aws_vms w percentiles co2_moers) (C L).
Proof.
  unfold schedule. apply safe_seq; [apply safe_azure_loop|].
  intros _. apply safe_aws_loop.
Qed.

Lemma safe_fetch (L : Prop) (resp : string -> response) (token : nat) :
  safe (C L)
       (get_region_percentiles
          (fun region => WattTime_get_current (resp region)) token)
       (C L).
Proof.
  intros st H. unfold get_region_percentiles.
  destruct (Tick.real_fetch resp token
              (SHARED_LOCATIONS ++ AZURE_LOCATIONS ++ AWS_LOCATIONS) [] st)
    as ((new & Es & _) & Hres).
  rewrite Es.
  split; [|split; [|exact H]];
    destruct Hres as [(_ & ->)|(_ & ->)]; discriminate.
Qed.

Lemma safe_sleep_or_break (L : Prop) : safe (C L) sleep_or_break (C L).
Proof.
  unfold sleep_or_break. apply safe_seq; [apply safe_get|]. intros st0.
  destruct (negb (Nat.eqb (length (azure_jobs st0 ++ aws_jobs st0)) 0)
            || negb (no_jobs st0)); [|apply safe_ret].
  apply safe_seq; [apply safe_emit|]. intros _. apply safe_ret.
Qed.

End Pass.


(** ** A pass, and the loop *)

Lemma init_keys {V} (vms : list vm) (d : dict (list V)) (k : string) :
  dict_get k (fold_left (fun d v => dict_set (vm_name v) [] d) vms d) <> None
  <-> dict_get k d <> None \/ In k (map vm_name vms).
Proof.
  revert d. induction vms as [|v vms IH]; intros d; simpl.
  - split; [auto|intros [H|[]]; exact H].
  - rewrite IH. split.
    + intros [H|H]; [|auto]. apply dict_set_key_inv in H.
      destruct H as [->|H]; auto.
    + intros [H|[<-|H]]; [| |auto].
      * left. now apply dict_set_keeps_key.
      * left. rewrite Ledger.dict_get_set_same. discriminate.
Qed.

Lemma init_empty {V} (vms : list vm) (d : dict (list V)) :
  (forall k l, dict_get k d = Some l -> l = []) ->
  forall k l,
    dict_get k (fold_left (fun d v => dict_set (vm_name v) [] d) vms d)
    = Some l -> l = [].
Proof.
  revert d. induction vms as [|v vms IH]; intros d Hd; simpl; [exact Hd|].
  apply IH. intros k l E. apply dict_set_entry_inv in E.
  destruct E as [(_ & ->)|E]; [reflexivity|exact (Hd k l E)].
Qed.

Section Whole.

Variable ppf : Q -> pyfloat.
Variables azure_vms aws_vms : list vm.

Local Abbreviation names := (map vm_name (azure_vms ++ aws_vms)).
Local Abbreviation R := (consistent azure_vms aws_vms names False).

Lemma names_known (v : vm) :
  In v (azure_vms ++ aws_vms) -> In (vm_name v) names.
Proof. apply in_map. Qed.

Lemma safe_sweep (w : world) : safe R (sweep w) R.
Proof.
  intros st H. unfold sweep, bind, get. cbn beta iota.
  assert (Hc : consistent azure_vms aws_vms (names ++ map fst (vm_jobs st))
                          False st).
  { destruct H as (H1 & H2 & H3 & H4).
    split; [exact H1|split; [|split; [exact H3|exact H4]]].
    intros k Hk. apply in_app_or in Hk.
    destruct Hk as [Hk|Hk]; [now apply H2|now apply keys_get]. }
  assert (Hs : forall name, In name (map fst (vm_jobs st)) ->
                            In name (names ++ map fst (vm_jobs st)))
    by (intros name Hn; apply in_or_app; now right).
  destruct (@safe_sweep_vms azure_vms aws_vms _ w _ Hs st Hc)
    as (E1 & E2 & (H1 & H2 & H3 & H4)).
  split; [exact E1|split; [exact E2|]].
  split; [exact H1|split; [|split; [exact H3|exact H4]]].
  intros k Hk. apply H2. apply in_or_app. now left.
Qed.

Lemma safe_tick (w : world) : safe R (tick ppf azure_vms aws_vms w) R.
Proof.
  unfold tick. apply safe_seq; [apply safe_get|]. intros st0.
  apply safe_seq; [apply safe_fetch|]. intros percentiles.
  apply safe_seq.
  { apply safe_lift; apply percentile_to_gco2_only_type_error; discriminate. }
  intros gco2s. cbv zeta.
  apply safe_seq; [apply safe_schedule; exact names_known|]. intros _.
  apply safe_seq; [apply safe_sweep|]. intros _.
  apply safe_sleep_or_break.
Qed.

Lemma safe_main_loop (ws : list world) :
  safe R (main_loop ppf azure_vms aws_vms ws) R.
Proof.
  induction ws as [|w ws IH]; simpl; [apply safe_ret|].
  apply safe_seq; [apply safe_tick|].
  intros [|]; [exact IH|apply safe_ret].
Qed.

Lemma initial_consistent (azure_cfg aws_cfg : list job) (now : Z) :
  R (initial_state azure_vms aws_vms azure_cfg aws_cfg now).
Proof.
  unfold initial_state, init_job_list, init_ssh_list.
  split; [split|split; [|split]]; simpl.
  - intros v Hv. apply init_keys. right. now apply in_map.
  - intros k Hk. apply init_keys in Hk. apply init_keys.
    destruct Hk as [Hk|Hk]; [now left|now right].
  - intros k Hk. apply init_keys. now right.
  - intros name l c E Hin. apply init_empty in E; [|discriminate].
    subst l. destruct Hin.
  - intros [].
Qed.

(** X12.  However the passes go, [main] never raises [NameError]: the AWS
    stop, which reads the locals [instance_id] and [aws_region_client] of
    the AWS scheduling loop, is reached only through a session that this
    loop recorded after assigning them.  And [vm_jobs] and [vm_clients]
    keep, to the end, a list for every configured VM, which is what the
    lookups by VM name rely on. *)
Theorem main_locals_assigned (azure_cfg aws_cfg : list job) (now : Z)
    (ws : list world) :
  let run := main ppf azure_vms aws_vms azure_cfg aws_cfg now ws in
  fst run <> Raise NameError
  /\ ledger_ready azure_vms aws_vms (snd run)
  /\ aws_bound (snd run).
Proof.
  cbv zeta. unfold main.
  destruct (@safe_main_loop ws _ (initial_consistent azure_cfg aws_cfg now))
    as (_ & H2 & H3 & _ & H4 & _).
  auto.
Qed.

End Whole.

End Bound.

(* ================================================================== *)
(** * Removing from a list while iterating over it *)
(* ================================================================== *)

Module Iteration.

Lemma job_eqb_refl (j : job) : job_eqb j j = true.
Proof.
  unfold job_eqb.
  rewrite !String.eqb_refl, !Bool.eqb_reflx, Qeq_bool_refl, Z.eqb_refl.
  reflexivity.
Qed.

Lemma job_eqb_name (a b : job) :
  job_eqb a b = true -> job_name a = job_name b.
Proof.
  unfold job_eqb. rewrite !andb_true_iff. intros H.
  decompose [and] H. now apply String.eqb_eq.
Qed.

Lemma list_remove_at {X} (eqb : X -> X -> bool) (x : X)
    (kept rest : list X) :
  eqb x x = true -> (forall y, In y kept -> eqb y x = false) ->
  list_remove eqb x (kept ++ x :: rest) = Some (kept ++ rest).
Proof.
  intros Hx. induction kept as [|a kept IH]; intros Hk; simpl.
  - now rewrite Hx.
  - rewrite (Hk a) by now left. rewrite IH; [reflexivity|].
    intros y Hy. apply Hk. now right.
Qed.

Lemma job_remove_at (j : job) (kept rest : list job) :
  NoDup (map job_name (kept ++ j :: rest)) ->
  list_remove job_eqb j (kept ++ j :: rest) = Some (kept ++ rest).
Proof.
  intros Hn. apply list_remove_at; [apply job_eqb_refl|].
  intros y Hy. destruct (job_eqb y j) eqn:E; [|reflexivity].
  apply job_eqb_name in E. exfalso.
  rewrite map_app in Hn. simpl in Hn. apply NoDup_remove_2 in Hn.
  apply Hn. apply in_or_app. left. rewrite <- E. now apply in_map.
Qed.

Lemma skipped_lengths {X} (l : list X) :
  length (skipped l) = Nat.div2 (length l)
  /\ forall a, length (skipped (a :: l)) = Nat.div2 (S (length l)).
Proof.
  induction l as [|b l (IH1 & IH2)]; [split; reflexivity|].
  split; [apply IH2|]. intros a. simpl. now rewrite IH1.
Qed.

(** A loop whose body removes the element it visits, and nothing else,
    visits every other element. *)
Lemma for_in_consuming {X} (lst : state -> list X)
    (body : nat -> X -> M unit) (P : state -> Prop) :
  (forall i x kept rest st,
      P st -> lst st = kept ++ x :: rest -> length kept = i ->
      exists st', body i x st = (Ok tt, st') /\ lst st' = kept ++ rest
                  /\ P st') ->
  forall fuel rest kept st,
    P st -> lst st = kept ++ rest -> (length rest <= fuel)%nat ->
    exists st', for_in fuel lst body (length kept) st = (Ok tt, st')
                /\ lst st' = kept ++ skipped rest /\ P st'.
Proof.
  intros Hb.
  assert (Hend : forall fuel kept st,
             lst st = kept ++ [] ->
             for_in fuel lst body (length kept) st = (Ok tt, st)).
  { intros fuel kept st E.
    assert (N : nth_error (lst st) (length kept) = None)
      by (apply nth_error_None; rewrite E, app_nil_r; lia).
    destruct fuel; simpl; now rewrite N. }
  induction fuel as [|fuel IH]; intros rest kept st HP E Hf.
  - destruct rest; [|simpl in Hf; lia].
    exists st. rewrite (Hend _ _ _ E). auto.
  - destruct rest as [|x rest].
    { exists st. rewrite (Hend _ _ _ E). auto. }
    simpl for_in. rewrite E, nth_error_app2, Nat.sub_diag by lia.
    simpl nth_error. cbv beta iota.
    destruct (Hb (length kept) x kept rest st HP E eq_refl)
      as (st1 & Eb & E1 & HP1).
    unfold bind at 1. rewrite Eb.
    destruct rest as [|y rest].
    + exists st1.
      assert (N : nth_error (lst st1) (S (length kept)) = None)
        by (apply nth_error_None; rewrite E1, app_nil_r; lia).
      split; [destruct fuel; cbn [for_in]; now rewrite N|auto].
    + assert (E1' : lst st1 = (kept ++ [y]) ++ rest)
        by (now rewrite <- app_assoc).
      assert (Hf' : (length rest <= fuel)%nat) by (simpl in Hf; lia).
      destruct (IH rest (kept ++ [y]) st1 HP1 E1' Hf')
        as (st2 & E2 & El & HP2).
      rewrite length_app in E2. simpl in E2.
      rewrite Nat.add_1_r in E2.
      exists st2. split; [exact E2|]. split; [|exact HP2].
      rewrite El, <- app_assoc. reflexivity.
Qed.


(** ** The scheduling loops *)

Lemma azure_dispatch_runs (azure_vms : list vm) (j : job) (region : string)
    (st : state) (l : list job) (v : vm) (lj : list ledger_entry)
    (lc : list ssh_entry) :
  list_remove job_eqb j (azure_jobs st) = Some l ->
  get_azure_vm_by_region azure_vms region = Some v ->
  dict_get (vm_name v) (vm_jobs st) = Some lj ->
  dict_get (vm_name v) (vm_clients st) = Some lc ->
  exists st',
    azure_dispatch azure_vms j region st = (Ok tt, st')
    /\ azure_jobs st' = l
    /\ vm_jobs st'
       = dict_set (vm_name v) (lj ++ [mk_entry j (resource_group_name v)])
                  (vm_jobs st)
    /\ vm_clients st'
       = dict_set (vm_name v)
                  (lc ++ [mk_ssh Azure (job_name j) (next_client st) None])
                  (vm_clients st).
Proof.
  intros Er Ev Ej Ec.
  unfold azure_dispatch, open_session, new_ssh_client, append_job,
    append_client, ledger_jobs, ledger_clients, emit.
  unfold bind, get, modify, ret, raise. rewrite Er, Ev. cbn. rewrite Ej.
  destruct (Nat.eqb (length lj) 0); cbn; rewrite Ej; cbn; rewrite Ec; cbn;
    eexists; repeat split.
Qed.

Section Azure.

Variable ppf : Q -> pyfloat.
Variables azure_vms aws_vms : list vm.
Variable w : world.
Variable percentiles : list percentile_sample.
Variable co2_moers : list moer_sample.

(** The job is decided, whenever it is asked, for a region with a VM. *)
Local Abbreviation runnable :=
  (fun j : job =>
     forall now, exists region,
       azure_schedule_decision ppf j percentiles co2_moers now
       = Ok (Some region)
       /\ get_azure_vm_by_region azure_vms region <> None).

Local Abbreviation P :=
  (fun st : state =>
     ledger_ready azure_vms aws_vms st
     /\ NoDup (map job_name (azure_jobs st))
     /\ Forall runnable (azure_jobs st)).

Lemma azure_body_consumes (i : nat) (j : job) (kept rest : list job)
    (st : state) :
  P st -> azure_jobs st = kept ++ j :: rest -> length kept = i ->
  exists st',
    (region <- lift (azure_schedule_decision ppf j percentiles co2_moers
                                             (clock w Azure i)) ;;
     match region with
     | Some region => azure_dispatch azure_vms j region
     | None => ret tt
     end) st = (Ok tt, st')
    /\ azure_jobs st' = kept ++ rest /\ P st'.
Proof.
  intros ((H1 & H1') & Hn & Hr) E _.
  assert (Hj : runnable j).
  { rewrite Forall_forall in Hr. apply Hr. rewrite E. apply in_elt. }
  destruct (Hj (clock w Azure i)) as (region & Hd & Hv).
  destruct (get_azure_vm_by_region azure_vms region) as [v|] eqn:Ev;
    [clear Hv|contradiction].
  assert (Hin : In v (azure_vms ++ aws_vms)).
  { apply in_or_app. left. unfold get_azure_vm_by_region in Ev.
    now apply find_some in Ev. }
  pose proof (H1 v Hin) as Kj. pose proof (H1' _ Kj) as Kc.
  destruct (dict_get (vm_name v) (vm_jobs st)) as [lj|] eqn:Ej;
    [|contradiction].
  destruct (dict_get (vm_name v) (vm_clients st)) as [lc|] eqn:Ec;
    [|contradiction].
  assert (Er : list_remove job_eqb j (azure_jobs st) = Some (kept ++ rest)).
  { rewrite E. apply job_remove_at. now rewrite <- E. }
  destruct (azure_dispatch_runs azure_vms j region st Er Ev Ej Ec)
    as (st' & Ed & El & Evj & Evc).
  exists st'. unfold bind at 1, lift. rewrite Hd. split; [exact Ed|].
  split; [exact El|]. split; [split|split].
  - intros v' Hv'. rewrite Evj. apply Bound.dict_set_keeps_key. now apply H1.
  - intros k Hk. rewrite Evj in Hk. rewrite Evc.
    apply Bound.dict_set_keeps_key. apply Bound.dict_set_key_inv in Hk.
    destruct Hk as [->|Hk]; [now rewrite Ec|now apply H1'].
  - rewrite El. rewrite E, map_app in Hn. simpl in Hn.
    apply NoDup_remove_1 in Hn. now rewrite map_app.
  - rewrite El. rewrite E in Hr. apply Forall_app in Hr.
    destruct Hr as (Hk & Hr). apply Forall_app. split; [exact Hk|].
    now inversion Hr.
Qed.

(** X11.  When every pending Azure job can be dispatched (it is decided
    for a region that has a VM, job names are distinct, and the ledgers
    have their keys), one run of the Azure scheduling loop returns
    normally and dispatches only every other job: the jobs at the odd
    positions of the list, half of them rounded down, are still pending
    when it ends, because the loop removes the job it visits from the list
    it iterates over. *)
Theorem azure_loop_skips_every_other (st : state) :
  ledger_ready azure_vms aws_vms st ->
  NoDup (map job_name (azure_jobs st)) ->
  Forall (fun j =>
            forall now, exists region,
              azure_schedule_decision ppf j percentiles co2_moers now
              = Ok (Some region)
              /\ get_azure_vm_by_region azure_vms region <> None)
         (azure_jobs st) ->
  exists st',
    azure_loop ppf azure_vms w percentiles co2_moers st = (Ok tt, st')
    /\ azure_jobs st' = skipped (azure_jobs st)
    /\ length (azure_jobs st') = Nat.div2 (length (azure_jobs st))
    /\ ledger_ready azure_vms aws_vms st'.
Proof.
  intros H1 H2 H3. unfold azure_loop, bind at 1, get at 1. cbn beta iota.
  destruct (@for_in_consuming _ azure_jobs
              (fun i azure_job =>
                 region <- lift (azure_schedule_decision ppf azure_job
                                   percentiles co2_moers (clock w Azure i)) ;;
                 match region with
                 | Some region => azure_dispatch azure_vms azure_job region
                 | None => ret tt
                 end)
              P azure_body_consumes (length (azure_jobs st)) (azure_jobs st)
              [] st (conj H1 (conj H2 H3)) eq_refl (le_n _))
    as (st' & E & El & (HP & _)).
  exists st'. split; [exact E|]. split; [exact El|]. split; [|exact HP].
  rewrite El. apply skipped_lengths.
Qed.

End Azure.

Lemma azure_loop_skips_every_other_witness :
  exists st',
    azure_loop ppf_standin [east_vm] (quiet_world all_ok) [] []
               (initial_state [east_vm] [] three_jobs [] 0)
    = (Ok tt, st')
    /\ map job_name (azure_jobs st') = ["b"].
Proof.
  destruct (@azure_loop_skips_every_other ppf_standin [east_vm] []
              (quiet_world all_ok) [] []
              (initial_state [east_vm] [] three_jobs [] 0))
    as (st' & E & El & _).
  - exact (proj1 (Bound.initial_consistent [east_vm] [] three_jobs [] 0)).
  - simpl. repeat constructor; simpl; intuition discriminate.
  - simpl. repeat constructor; intros now; exists "East US";
      (split; [reflexivity|discriminate]).
  - exists st'. split; [exact E|]. rewrite El. reflexivity.
Defined.


(** ** A region without a VM *)

(** X10.  When the first pending job of a provider is decided for a region
    in which the configuration has no VM of that provider, the provider's
    scheduling loop ends with [TypeError] (the subscript of [None]): the job
    has already been removed from the pending list, no other job has been
    visited and no call has been made. *)
Theorem first_job_without_vm (ppf : Q -> pyfloat) (azure_vms aws_vms : list vm)
    (w : world) (percentiles : list percentile_sample)
    (co2_moers : list moer_sample) (st : state) (j : job) (rest : list job)
    (region : string) :
  (azure_jobs st = j :: rest ->
   azure_schedule_decision ppf j percentiles co2_moers (clock w Azure 0)
   = Ok (Some region) ->
   get_azure_vm_by_region azure_vms region = None ->
   azure_loop ppf azure_vms w percentiles co2_moers st
   = (Raise TypeError, set_azure_jobs st rest))
  /\ (aws_jobs st = j :: rest ->
      aws_schedule_decision ppf j percentiles co2_moers (clock w AWS 0)
      = Ok (Some region) ->
      get_aws_vm_by_region aws_vms region = None ->
      aws_loop ppf aws_vms w percentiles co2_moers st
      = (Raise TypeError,
         set_aws_region_client (set_aws_jobs st rest)
                               (Some (find_aws_client region)))).
Proof.
  split; intros E Hd Hv.
  - unfold azure_loop, bind at 1, get at 1. cbn beta iota. rewrite E.
    cbn [length for_in]. rewrite E. cbn [nth_error].
    unfold bind at 1, bind at 1, lift. rewrite Hd.
    unfold azure_dispatch, bind, get, modify, raise. rewrite E, Hv.
    cbn [list_remove]. rewrite job_eqb_refl. reflexivity.
  - unfold aws_loop, bind at 1, get at 1. cbn beta iota. rewrite E.
    cbn [length for_in]. rewrite E. cbn [nth_error].
    unfold bind at 1, bind at 1, lift. rewrite Hd.
    unfold aws_dispatch, bind, get, modify, raise. rewrite E, Hv.
    cbn [list_remove]. rewrite job_eqb_refl. reflexivity.
Qed.

Lemma first_job_without_vm_witness :
  azure_loop ppf_standin [west_vm] (quiet_world all_ok) [] []
             (initial_state [west_vm] [] [azure_east_job] [] 0)
  = (Raise TypeError,
     set_azure_jobs (initial_state [west_vm] [] [azure_east_job] [] 0) []).
Proof.
  apply (proj1 (@first_job_without_vm ppf_standin [west_vm] []
                  (quiet_world all_ok) [] []
                  (initial_state [west_vm] [] [azure_east_job] [] 0)
                  azure_east_job [] "East US"));
    reflexivity.
Defined.

End Iteration.

(* ================================================================== *)
(** * Accounting for the jobs of a run *)
(* ================================================================== *)

Module Account.

Lemma assigned_set (k : string) (l l' : list ledger_entry)
    (d : dict (list ledger_entry)) :
  dict_get k d = Some l ->
  (list_sum (map (fun kv => length (snd kv)) (dict_set k l' d)) + length l
   = list_sum (map (fun kv => length (snd kv)) d) + length l')%nat.
Proof.
  induction d as [|[k0 v0] d IH]; simpl; [discriminate|].
  destruct (k0 =? k)%string; simpl.
  - intros E. injection E as ->. lia.
  - intros E. specialize (IH E). lia.
Qed.

Lemma assigned_none (d : dict (list ledger_entry)) :
  forallb (fun kv => Nat.eqb (length (snd kv)) 0) d = true ->
  list_sum (map (fun kv => length (snd kv)) d) = 0%nat.
Proof.
  induction d as [|kv d IH]; simpl; [reflexivity|].
  rewrite andb_true_iff. intros (H & Hd). apply Nat.eqb_eq in H.
  rewrite H. now apply IH.
Qed.

(** ** Rules *)

Section Rules.

Context {A B : Type}.

Lemma returns_ret (P : state -> Prop) (Q : A -> state -> Prop) (a : A) :
  (forall st, P st -> Q a st) -> returns P (ret a) Q.
Proof. intros H st a' st' HP E. injection E as <- <-. now apply H. Qed.

Lemma returns_raise (P : state -> Prop) (Q : A -> state -> Prop) (e : exn) :
  returns P (raise e) Q.
Proof. intros st a st' _ E. discriminate. Qed.

Lemma returns_lift (P : state -> Prop) (r : result A) :
  returns P (lift r) (fun _ => P).
Proof. intros st a st' HP E. unfold lift in E. now injection E as _ <-. Qed.

Lemma returns_bind (P : state -> Prop) (Q : A -> state -> Prop)
    (R : B -> state -> Prop) (c : M A) (k : A -> M B) :
  returns P c Q -> (forall a, returns (Q a) (k a) R) ->
  returns P (bind c k) R.
Proof.
  intros Hc Hk st b st' HP E. unfold bind in E.
  destruct (c st) as [[a|e] st1] eqn:Ec; [|discriminate].
  exact (Hk a st1 b st' (Hc st a st1 HP Ec) E).
Qed.

Lemma returns_weaken (P P' : state -> Prop) (Q Q' : A -> state -> Prop)
    (c : M A) :
  returns P c Q -> (forall st, P' st -> P st) ->
  (forall a st, Q a st -> Q' a st) -> returns P' c Q'.
Proof. intros Hc HP HQ st a st' H E. apply HQ. eapply Hc; eauto. Qed.

End Rules.

Lemma returns_for_in {X} (P : state -> Prop) (lst : state -> list X)
    (body : nat -> X -> M unit) :
  (forall i x, returns P (body i x) (fun _ => P)) ->
  forall fuel i, returns P (for_in fuel lst body i) (fun _ => P).
Proof.
  intros Hb. induction fuel as [|fuel IH]; intros i st a st' HP E; simpl in E.
  - destruct (nth_error (lst st) i); [discriminate|]. now injection E as _ <-.
  - destruct (nth_error (lst st) i) as [x|]; [|now injection E as _ <-].
    unfold bind in E.
    destruct (body i x st) as [[[]|e] st1] eqn:Eb; [|discriminate].
    exact (IH (S i) st1 a st' (Hb i x st tt st1 HP Eb) E).
Qed.


(** ** The ledger *)

Lemma count_one (p : call -> bool) (c : call) :
  count p [c] = if p c then 1%nat else 0%nat.
Proof. unfold count. simpl. now destruct (p c). Qed.

Section Jobs.

Variable ppf : Q -> pyfloat.
Variables azure_vms aws_vms : list vm.
Variable n : nat.

Local Abbreviation Bal := (balanced n).

Lemma returns_get (P : state -> Prop) :
  returns P get (fun a st => P st /\ a = st).
Proof. intros st a st' HP E. injection E as <- <-. auto. Qed.

Lemma returns_seq {A B} (P : state -> Prop) (c : M A) (k : A -> M B)
    (R : B -> state -> Prop) :
  returns P c (fun _ => P) -> (forall a, returns P (k a) R) ->
  returns P (bind c k) R.
Proof. intros Hc Hk. apply returns_bind with (Q := fun _ => P); auto. Qed.

Lemma returns_same {A} (P : state -> Prop) (c : M A) :
  (forall st, snd (c st) = st) -> returns P c (fun _ => P).
Proof.
  intros Hc st a st' HP E. specialize (Hc st). rewrite E in Hc.
  simpl in Hc. now subst.
Qed.

Lemma returns_emit (a a' b : nat) (c : call) :
  is_close c = false -> is_connect c = false ->
  returns (Bal a a' b) (emit c) (fun _ => Bal a a' b).
Proof.
  intros H1 H2 st u st' (B1 & B2) E. injection E as _ <-.
  unfold balanced, pending, assigned in *. simpl.
  rewrite !Fetch.count_app, !count_one, H1, H2. lia.
Qed.

Lemma returns_ledger_jobs (P : state -> Prop) (name : string) :
  returns P (ledger_jobs name)
          (fun l st => P st /\ dict_get name (vm_jobs st) = Some l).
Proof.
  intros st l st' HP E. unfold ledger_jobs, bind, get, ret, raise in E.
  destruct (dict_get name (vm_jobs st)) as [l0|] eqn:El; [|discriminate].
  injection E as <- <-. auto.
Qed.

Lemma returns_ledger_clients (P : state -> Prop) (name : string) :
  returns P (ledger_clients name) (fun _ => P).
Proof.
  apply returns_same. intros st. unfold ledger_clients, bind, get, ret, raise.
  now destruct (dict_get name (vm_clients st)).
Qed.

Lemma returns_append_job (a a' b : nat) (name : string) (e : ledger_entry) :
  returns (Bal (S a) a' b) (append_job name e) (fun _ => Bal a a' b).
Proof.
  intros st u st' (B1 & B2) E.
  unfold append_job, ledger_jobs, bind, get, ret, raise, modify in E.
  destruct (dict_get name (vm_jobs st)) as [l|] eqn:El; [|discriminate].
  injection E as _ <-. pose proof (@assigned_set name l (l ++ [e]) _ El) as Hs.
  rewrite length_app in Hs. simpl in Hs.
  unfold balanced, pending, assigned in *. simpl. lia.
Qed.

Lemma returns_append_client (a a' b : nat) (name : string) (c : ssh_entry) :
  returns (Bal a a' b) (append_client name c) (fun _ => Bal a a' b).
Proof.
  intros st u st' H E.
  unfold append_client, ledger_clients, bind, get, ret, raise, modify in E.
  destruct (dict_get name (vm_clients st)); [|discriminate].
  injection E as _ <-. exact H.
Qed.

Lemma returns_open_session (a a' b : nat) (t : job_type) (j : job)
    (vm_info : vm) (aws_client : option string) :
  returns (Bal a a' (S b)) (open_session t j vm_info aws_client)
          (fun _ => Bal a a' b).
Proof.
  unfold open_session, new_ssh_client.
  apply returns_bind with (Q := fun _ => Bal a a' (S b)).
  { intros st c st' H E. unfold bind, get, modify, ret in E.
    injection E as _ <-. exact H. }
  intros client. apply returns_bind with (Q := fun _ => Bal a a' b).
  { intros st u st' (B1 & B2) E. injection E as _ <-.
    unfold balanced, pending, assigned in *. simpl.
    rewrite !Fetch.count_app, !count_one. simpl. lia. }
  intros _. apply returns_seq; [apply returns_append_client|].
  intros _. now apply returns_emit.
Qed.

Lemma returns_drop_pair (a a' b : nat) (name : string) (j : ledger_entry)
    (c : ssh_entry) :
  returns (Bal a a' b) (drop_pair name j c) (fun _ => Bal a a' b).
Proof.
  unfold drop_pair.
  apply returns_bind with (Q := fun _ => Bal a (S a') b).
  { intros st u st' (B1 & B2) E. injection E as _ <-.
    unfold balanced, pending, assigned in *. simpl.
    rewrite !Fetch.count_app, !count_one. simpl. lia. }
  intros _.
  apply returns_bind
    with (Q := fun l st => Bal a (S a') b st
                           /\ dict_get name (vm_jobs st) = Some l);
    [apply returns_ledger_jobs|].
  intros jobs.
  destruct (list_remove entry_eqb j jobs) as [jobs'|] eqn:Er;
    [|apply returns_raise].
  apply returns_bind with (Q := fun _ => Bal a a' b).
  { intros st u st' ((B1 & B2) & El) E. injection E as _ <-.
    pose proof (@assigned_set name jobs jobs' _ El) as Hs.
    apply Ledger.list_remove_length in Er.
    unfold balanced, pending, assigned in *. simpl. lia. }
  intros _. intros st u st' H E.
  unfold ledger_clients, bind, get, ret, raise, modify in E.
  destruct (dict_get name (vm_clients st)) as [l|]; [|discriminate].
  destruct (list_remove ssh_eqb c l); [|discriminate].
  injection E as _ <-. exact H.
Qed.

Lemma returns_aws_stop (a a' b : nat) (c : ssh_entry) :
  returns (Bal a a' b) (aws_stop c) (fun _ => Bal a a' b).
Proof.
  unfold aws_stop. apply returns_bind with (Q := fun _ => Bal a a' b).
  { apply returns_same. reflexivity. }
  intros st0. destruct (ssh_aws_client c); [|apply returns_raise].
  destruct (instance_id st0); [|apply returns_raise].
  apply returns_seq; [now apply returns_emit|]. intros _.
  destruct (aws_region_client st0) as [[session|]|]; try apply returns_raise.
  now apply returns_emit.
Qed.

Lemma returns_check_client (a a' b : nat) (w : world) (name : string)
    (j : ledger_entry) (c : ssh_entry) :
  returns (Bal a a' b) (check_client w name j c) (fun _ => Bal a a' b).
Proof.
  unfold check_client.
  destruct (ssh_job_name c =? job_name (entry_job j))%string;
    [|apply returns_ret; auto].
  apply returns_seq; [now apply returns_emit|]. intros _.
  destruct (probe w (ssh_client c) (output (entry_job j)));
    [|apply returns_ret; auto].
  apply returns_seq; [apply returns_drop_pair|]. intros _.
  apply returns_seq.
  { apply returns_weaken with (P := Bal a a' b)
      (Q := fun l st => Bal a a' b st /\ dict_get name (vm_jobs st) = Some l);
      [apply returns_ledger_jobs|auto|tauto]. }
  intros jobs. destruct (Nat.eqb (length jobs) 0); [|apply returns_ret; auto].
  destruct (ssh_job_type c); [now apply returns_emit|apply returns_aws_stop].
Qed.

Lemma returns_sweep (a a' b : nat) (w : world) :
  returns (Bal a a' b) (sweep w) (fun _ => Bal a a' b).
Proof.
  assert (Hvm : forall name,
             returns (Bal a a' b) (sweep_vm w name) (fun _ => Bal a a' b)).
  { intros name. unfold sweep_vm.
    apply returns_seq; [apply returns_same; reflexivity|]. intros st0.
    apply returns_for_in. intros i j.
    apply returns_seq; [apply returns_ledger_clients|]. intros ssh_clients.
    apply returns_for_in. intros i' c. apply returns_check_client. }
  assert (Hvms : forall names,
             returns (Bal a a' b) (sweep_vms w names) (fun _ => Bal a a' b)).
  { induction names as [|name names IH]; simpl; [apply returns_ret; auto|].
    apply returns_seq; [apply Hvm|]. intros _. exact IH. }
  unfold sweep. apply returns_seq; [apply returns_same; reflexivity|].
  intros st0. apply Hvms.
Qed.

(** ** The scheduling loops *)

Lemma returns_azure_dispatch (j : job) (region : string) :
  returns (Bal 0 0 0) (azure_dispatch azure_vms j region) (fun _ => Bal 0 0 0).
Proof.
  unfold azure_dispatch.
  apply returns_bind with (Q := fun a st => Bal 0 0 0 st /\ a = st);
    [apply returns_get|].
  intros st0.
  destruct (list_remove job_eqb j (azure_jobs st0)) as [l|] eqn:Er;
    [|apply returns_raise].
  apply returns_bind with (Q := fun _ => Bal 1 0 1).
  { intros st u st' ((B1 & B2) & ->) E. injection E as _ <-.
    apply Ledger.list_remove_length in Er.
    unfold balanced, pending, assigned in *. simpl. lia. }
  intros _.
  destruct (get_azure_vm_by_region azure_vms region) as [vm_info|];
    [|apply returns_raise].
  apply returns_seq.
  { apply returns_weaken with (P := Bal 1 0 1)
      (Q := fun l st => Bal 1 0 1 st
                        /\ dict_get (vm_name vm_info) (vm_jobs st) = Some l);
      [apply returns_ledger_jobs|auto|tauto]. }
  intros jobs. apply returns_seq.
  { destruct (Nat.eqb (length jobs) 0);
      [now apply returns_emit|apply returns_ret; auto]. }
  intros _. apply returns_bind with (Q := fun _ => Bal 0 0 1);
    [apply returns_append_job|].
  intros _. apply returns_open_session.
Qed.

Lemma returns_aws_dispatch (j : job) (region : string) :
  returns (Bal 0 0 0) (aws_dispatch aws_vms j region) (fun _ => Bal 0 0 0).
Proof.
  unfold aws_dispatch.
  apply returns_bind with (Q := fun a st => Bal 0 0 0 st /\ a = st);
    [apply returns_get|].
  intros st0.
  destruct (list_remove job_eqb j (aws_jobs st0)) as [l|] eqn:Er;
    [|apply returns_raise].
  apply returns_bind with (Q := fun _ => Bal 1 0 1).
  { intros st u st' ((B1 & B2) & ->) E. injection E as _ <-.
    apply Ledger.list_remove_length in Er.
    unfold balanced, pending, assigned in *. simpl. lia. }
  intros _. cbv zeta.
  apply returns_seq.
  { intros st u st' H E. injection E as _ <-. exact H. }
  intros _.
  destruct (get_aws_vm_by_region aws_vms region) as [vm_info|];
    [|apply returns_raise].
  apply returns_seq.
  { intros st u st' H E. injection E as _ <-. exact H. }
  intros _. apply returns_seq.
  { apply returns_weaken with (P := Bal 1 0 1)
      (Q := fun l st => Bal 1 0 1 st
                        /\ dict_get (vm_name vm_info) (vm_jobs st) = Some l);
      [apply returns_ledger_jobs|auto|tauto]. }
  intros jobs. apply returns_seq.
  { destruct (Nat.eqb (length jobs) 0); [|apply returns_ret; auto].
    destruct (find_aws_client region); [|apply returns_raise].
    apply returns_seq; [now apply returns_emit|]. intros _.
    now apply returns_emit. }
  intros _. apply returns_bind with (Q := fun _ => Bal 0 0 1);
    [apply returns_append_job|].
  intros _. apply returns_open_session.
Qed.

Lemma returns_schedule (w : world) (percentiles : list percentile_sample)
    (co2_moers : list moer_sample) :
  returns (Bal 0 0 0)
          (schedule ppf azure_vms aws_vms w percentiles co2_moers)
          (fun _ => Bal 0 0 0).
Proof.
  unfold schedule, azure_loop, aws_loop. apply returns_seq.
  - apply returns_seq; [apply returns_same; reflexivity|]. intros st0.
    apply returns_for_in. intros i j.
    apply returns_seq; [apply returns_lift|].
    intros [region|]; [apply returns_azure_dispatch|apply returns_ret; auto].
  - intros _. apply returns_seq; [apply returns_same; reflexivity|].
    intros st0. apply returns_for_in. intros i j.
    apply returns_seq; [apply returns_lift|].
    intros [region|]; [apply returns_aws_dispatch|apply returns_ret; auto].
Qed.

(** ** A pass, and the loop *)

Lemma fetches_neither (p : call -> bool) (new : list call) :
  (forall c, is_fetch c = true -> p c = false) ->
  forallb is_fetch new = true -> count p new = 0%nat.
Proof.
  intros Hp. induction new as [|c new IH]; [reflexivity|].
  simpl. rewrite andb_true_iff. intros [Hc Hn].
  change (c :: new) with ([c] ++ new).
  rewrite Fetch.count_app, count_one, (Hp c Hc). now apply IH.
Qed.

Lemma returns_fetch (resp : string -> response) (token : nat) :
  returns (Bal 0 0 0)
          (get_region_percentiles
             (fun region => WattTime_get_current (resp region)) token)
          (fun _ => Bal 0 0 0).
Proof.
  intros st a st' (B1 & B2) E. unfold get_region_percentiles in E.
  destruct (Tick.real_fetch resp token
              (SHARED_LOCATIONS ++ AZURE_LOCATIONS ++ AWS_LOCATIONS) [] st)
    as ((new & Es & Hf) & _).
  rewrite E in Es. simpl in Es. subst st'.
  unfold balanced, pending, assigned in *. simpl.
  rewrite !Fetch.count_app.
  rewrite (@fetches_neither is_close new), (@fetches_neither is_connect new);
    try assumption; try (intros [] Hc; try discriminate; reflexivity).
  lia.
Qed.

Lemma returns_tick (w : world) :
  returns (Bal 0 0 0) (tick ppf azure_vms aws_vms w)
          (fun d st => Bal 0 0 0 st
                       /\ (d = Break -> pending st = 0%nat
                                        /\ assigned st = 0%nat)).
Proof.
  unfold tick. apply returns_seq; [apply returns_same; reflexivity|].
  intros st0. apply returns_seq; [apply returns_fetch|]. intros percentiles.
  apply returns_seq; [apply returns_lift|]. intros gco2s. cbv zeta.
  apply returns_seq; [apply returns_schedule|]. intros _.
  apply returns_seq; [apply returns_sweep|]. intros _.
  unfold sleep_or_break.
  apply returns_bind with (Q := fun a st => Bal 0 0 0 st /\ a = st);
    [apply returns_get|].
  intros st1.
  destruct (negb (Nat.eqb (length (azure_jobs st1 ++ aws_jobs st1)) 0)
            || negb (no_jobs st1)) eqn:Eb.
  - apply returns_bind with (Q := fun _ => Bal 0 0 0).
    + apply returns_weaken with (P := Bal 0 0 0) (Q := fun _ => Bal 0 0 0);
        [now apply returns_emit|tauto|auto].
    + intros _. apply returns_ret. intros st H. split; [exact H|discriminate].
  - apply returns_ret. intros st (H & ->). split; [exact H|]. intros _.
    apply orb_false_iff in Eb. destruct Eb as (E1 & E2).
    apply negb_false_iff in E1, E2. apply Nat.eqb_eq in E1.
    rewrite length_app in E1. split; [exact E1|].
    now apply assigned_none.
Qed.

Lemma returns_main_loop (ws : list world) :
  returns (Bal 0 0 0) (main_loop ppf azure_vms aws_vms ws)
          (fun s st => Bal 0 0 0 st
                       /\ (s = Exited -> pending st = 0%nat
                                         /\ assigned st = 0%nat)).
Proof.
  induction ws as [|w ws IH]; simpl.
  - apply returns_ret. intros st H. split; [exact H|discriminate].
  - apply returns_bind
      with (Q := fun d st => Bal 0 0 0 st
                             /\ (d = Break -> pending st = 0%nat
                                              /\ assigned st = 0%nat));
      [apply returns_tick|].
    intros [|].
    + apply returns_weaken with (P := Bal 0 0 0)
        (Q := fun s st => Bal 0 0 0 st
                          /\ (s = Exited -> pending st = 0%nat
                                            /\ assigned st = 0%nat));
        [exact IH|tauto|auto].
    + apply returns_ret. intros st (H & Hb). split; [exact H|]. auto.
Qed.

End Jobs.


Lemma assigned_set_nil (k : string) (d : dict (list ledger_entry)) :
  list_sum (map (fun kv => length (snd kv)) d) = 0%nat ->
  list_sum (map (fun kv => length (snd kv)) (dict_set k [] d)) = 0%nat.
Proof.
  induction d as [|[k0 v0] d IH]; simpl; [reflexivity|].
  intros H. destruct (k0 =? k)%string; simpl; [lia|].
  rewrite IH; lia.
Qed.

Lemma initial_assigned (vms : list vm) (d : dict (list ledger_entry)) :
  list_sum (map (fun kv => length (snd kv)) d) = 0%nat ->
  list_sum (map (fun kv => length (snd kv))
                (fold_left (fun d v => dict_set (vm_name v) [] d) vms d))
  = 0%nat.
Proof.
  revert d. induction vms as [|v vms IH]; intros d H; simpl; [exact H|].
  apply IH. now apply assigned_set_nil.
Qed.

Lemma initial_balanced (azure_vms aws_vms : list vm)
    (azure_cfg aws_cfg : list job) (now : Z) :
  balanced (length azure_cfg + length aws_cfg) 0 0 0
           (initial_state azure_vms aws_vms azure_cfg aws_cfg now).
Proof.
  unfold balanced, pending, assigned, initial_state, init_job_list,
    add_timestamp. simpl.
  rewrite !length_map, initial_assigned by reflexivity.
  rewrite !count_one. simpl. lia.
Qed.

(** X14.  When [main] returns, the configured jobs are all accounted for:
    the jobs still pending, the jobs in [vm_jobs] and the SSH sessions
    closed add up to the number of configured jobs, and so do the jobs
    still pending and the SSH sessions opened.  So when the loop exits,
    exactly as many sessions were opened, and as many closed, as there are
    jobs. *)
Theorem main_accounts_for_every_job (ppf : Q -> pyfloat)
    (azure_vms aws_vms : list vm) (azure_cfg aws_cfg : list job) (now : Z)
    (ws : list world) (s : status) (st : state) :
  main ppf azure_vms aws_vms azure_cfg aws_cfg now ws = (Ok s, st) ->
  let n := (length azure_cfg + length aws_cfg)%nat in
  (pending st + assigned st + count is_close (calls st) = n)%nat
  /\ (pending st + count is_connect (calls st) = n)%nat
  /\ (s = Exited ->
      count is_connect (calls st) = n /\ count is_close (calls st) = n).
Proof.
  intros E. cbv zeta. unfold main in E.
  destruct (@returns_main_loop ppf azure_vms aws_vms _ ws _ s st
              (initial_balanced azure_vms aws_vms azure_cfg aws_cfg now) E)
    as ((B1 & B2) & Hx).
  split; [lia|]. split; [lia|].
  intros Es. destruct (Hx Es) as (Hp & Ha). lia.
Qed.

Lemma main_accounts_for_every_job_witness :
  let run := main ppf_standin [east_vm] [] three_jobs [] 0
                  [done_world; done_world; done_world] in
  fst run = Ok Exited
  /\ count is_connect (calls (snd run)) = 3%nat
  /\ count is_close (calls (snd run)) = 3%nat.
Proof.
  cbv zeta.
  assert (E : main ppf_standin [east_vm] [] three_jobs [] 0
                   [done_world; done_world; done_world]
              = (Ok Exited,
                 snd (main ppf_standin [east_vm] [] three_jobs [] 0
                           [done_world; done_world; done_world])))
    by (vm_compute; reflexivity).
  destruct (main_accounts_for_every_job _ _ _ _ _ _ _ E) as (_ & _ & H).
  split; [now rewrite E|]. exact (H eq_refl).
Defined.

End Account.

(* ================================================================== *)
(** * Nothing is torn down before a probe prints [DONE] *)
(* ================================================================== *)

Module Calm.

Lemma undisturbed_refl (st : state) : undisturbed st st.
Proof. split; [apply Ledger.quiet_refl|auto]. Qed.

Lemma undisturbed_trans (a b c : state) :
  undisturbed a b -> undisturbed b c -> undisturbed a c.
Proof.
  intros (Q1 & A1) (Q2 & A2). split.
  - exact (Ledger.quiet_trans Q1 Q2).
  - intros name. specialize (A1 name). specialize (A2 name). lia.
Qed.

Lemma undisturbed_emit (c : call) :
  is_teardown c = false -> steps undisturbed (emit c).
Proof.
  intros H st. split; [now apply Tick.quiet_emit|]. intros name. apply le_n.
Qed.

Lemma undisturbed_modify (f : state -> state) :
  (forall st, calls (f st) = calls st /\ vm_jobs (f st) = vm_jobs st) ->
  steps undisturbed (modify f).
Proof.
  intros H st. destruct (H st) as (Hc & Hj). split.
  - apply Tick.quiet_modify. intros st0. apply H.
  - intros name. unfold active, jobs_of. simpl. rewrite Hj. apply le_n.
Qed.

Lemma undisturbed_append_job (name : string) (e : ledger_entry) :
  steps undisturbed (append_job name e).
Proof.
  intros st. unfold append_job, ledger_jobs, bind, get, ret, raise, modify.
  destruct (dict_get name (vm_jobs st)) as [l|] eqn:El; simpl;
    [|apply undisturbed_refl].
  split.
  - exists []. simpl. now rewrite app_nil_r.
  - intros name'. unfold active, jobs_of. simpl.
    destruct (String.eqb_spec name name') as [<-|Hne].
    + rewrite Ledger.dict_get_set_same, El, length_app. lia.
    + rewrite (@Ledger.dict_get_set_other _ name name' _ _ Hne). apply le_n.
Qed.

Ltac calm_steps :=
  repeat first
    [ apply Loop.steps_for_in;
      [apply undisturbed_refl|apply undisturbed_trans|intros ? ?]
    | apply undisturbed_append_job
    | apply (Loop.steps_bind undisturbed_trans); [|intros ?]
    | apply undisturbed_emit; reflexivity
    | apply undisturbed_modify; intros st; now destruct st
    | apply Loop.steps_ret, undisturbed_refl
    | apply Loop.steps_raise, undisturbed_refl
    | apply Loop.steps_get, undisturbed_refl
    | apply Loop.steps_lift, undisturbed_refl
    | match goal with
      | |- steps _ (match ?x with _ => _ end) => destruct x
      end ].

Lemma schedule_undisturbed (ppf : Q -> pyfloat) (azure_vms aws_vms : list vm)
    (w : world) (percentiles : list percentile_sample)
    (co2_moers : list moer_sample) :
  steps undisturbed
        (schedule ppf azure_vms aws_vms w percentiles co2_moers).
Proof.
  unfold schedule, azure_loop, aws_loop, azure_dispatch, aws_dispatch,
    open_session, new_ssh_client, append_client, ledger_jobs, ledger_clients.
  calm_steps.
Qed.

Lemma fetch_undisturbed (resp : string -> response) (token : nat) :
  steps undisturbed
        (get_region_percentiles
           (fun region => WattTime_get_current (resp region)) token).
Proof.
  intros st. unfold get_region_percentiles.
  destruct (Tick.real_fetch resp token
              (SHARED_LOCATIONS ++ AZURE_LOCATIONS ++ AWS_LOCATIONS) [] st)
    as ((new & Es & Hf) & _).
  rewrite Es. split.
  - exists new. split; [now destruct st|].
    apply Account.fetches_neither; [|exact Hf].
    intros [] Hc; try discriminate; reflexivity.
  - intros name. apply le_n.
Qed.

Lemma sweep_undisturbed (w : world) :
  (forall client cmd, probe w client cmd = false) ->
  steps undisturbed (sweep w).
Proof.
  intros Hw. unfold sweep.
  apply (Loop.steps_bind undisturbed_trans);
    [apply Loop.steps_get, undisturbed_refl|intros st0].
  induction (map fst (vm_jobs st0)) as [|name names IH]; simpl.
  - apply Loop.steps_ret, undisturbed_refl.
  - apply (Loop.steps_bind undisturbed_trans); [|intros ?; apply IH].
    unfold sweep_vm, ledger_clients.
    apply (Loop.steps_bind undisturbed_trans);
      [apply Loop.steps_get, undisturbed_refl|intros st1].
    apply Loop.steps_for_in;
      [apply undisturbed_refl|apply undisturbed_trans|intros i j].
    apply (Loop.steps_bind undisturbed_trans); [calm_steps|intros clients].
    apply Loop.steps_for_in;
      [apply undisturbed_refl|apply undisturbed_trans|intros i' c].
    unfold check_client. rewrite Hw. calm_steps.
Qed.

(** X15.  In a pass in which no completion probe prints [DONE], nothing is
    torn down: no SSH session is closed, no VM is deallocated or stopped,
    and no VM's list in [vm_jobs] gets shorter, whatever the pass schedules
    and however it ends. *)
Theorem no_teardown_without_done (ppf : Q -> pyfloat)
    (azure_vms aws_vms : list vm) (w : world) (st : state) :
  (forall client cmd, probe w client cmd = false) ->
  let st' := snd (tick ppf azure_vms aws_vms w st) in
  (exists new, calls st' = calls st ++ new
               /\ count is_teardown new = 0%nat)
  /\ forall name, (active name st <= active name st')%nat.
Proof.
  intros Hw. cbv zeta.
  assert (H : steps undisturbed (tick ppf azure_vms aws_vms w)).
  { unfold tick.
    apply (Loop.steps_bind undisturbed_trans);
      [apply Loop.steps_get, undisturbed_refl|intros st0].
    apply (Loop.steps_bind undisturbed_trans);
      [apply fetch_undisturbed|intros percentiles].
    apply (Loop.steps_bind undisturbed_trans);
      [apply Loop.steps_lift, undisturbed_refl|intros gco2s]. cbv zeta.
    apply (Loop.steps_bind undisturbed_trans);
      [apply schedule_undisturbed|intros _].
    apply (Loop.steps_bind undisturbed_trans);
      [now apply sweep_undisturbed|intros _].
    unfold sleep_or_break. calm_steps. }
  exact (H st).
Qed.

Lemma no_teardown_without_done_witness :
  let st := initial_state [east_vm] [] three_jobs [] 0 in
  (active "vm-east" st
   <= active "vm-east"
        (snd (tick ppf_standin [east_vm] [] (quiet_world all_ok) st)))%nat.
Proof.
  cbv zeta.
  apply (proj2 (@no_teardown_without_done ppf_standin [east_vm] []
                  (quiet_world all_ok)
                  (initial_state [east_vm] [] three_jobs [] 0)
                  (fun _ _ => eq_refl))).
Defined.

End Calm.

(* ================================================================== *)
(** * The selection on the snapshots of a pass *)
(* ================================================================== *)

Module Selection.

Import Policy.

Lemma Ok_inj {A} (a b : A) : Ok a = Ok b -> a = b.
Proof. intros E. now injection E. Qed.

(** The metrics of a pass list the six regions in the order they are
    asked. *)
Lemma pass_metrics_regions (ppf : Q -> pyfloat) (resp : string -> response)
    (token : nat) (st st' : state) (percentiles : list percentile_sample)
    (gco2s : list gco2_sample) :
  get_region_percentiles
    (fun region => WattTime_get_current (resp region)) token st
  = (Ok percentiles, st') ->
  percentile_to_gco2 ppf percentiles = Ok gco2s ->
  map m_region (gco2_to_moer gco2s) = all_regions.
Proof.
  intros Ef Eg. unfold get_region_percentiles in Ef. fold all_regions in Ef.
  destruct (Tick.real_fetch resp token all_regions [] st) as (_ & Hres).
  rewrite Ef in Hres.
  destruct Hres as [(Hall & E)|(_ & E)]; [|discriminate E].
  change (Ok percentiles = Ok (snapshot_of resp all_regions)) in E.
  apply Ok_inj in E. subst percentiles. rewrite forallb_forall in Hall.
  rewrite Signal.gco2_to_moer_regions.
  rewrite (Signal.percentile_to_gco2_regions ppf _ Eg).
  rewrite Decide.snapshot_all_ok by exact Hall.
  rewrite map_map. reflexivity.
Qed.

(** C2.  The list of metrics that a pass hands to the decisions has the six
    regions in the order they are asked, regions of the other provider
    included.  On every such list without a NaN, for a time-sensitive job
    that may switch location, the decision of either provider is the
    location of the eligible region with the lowest metric: strictly lower
    than every eligible entry before it in the list and at most every
    eligible entry after it, so that among equal metrics the earliest in
    the order the regions are asked is taken.  The decision is the same
    for every time and every list of percentiles. *)
Theorem lowest_eligible_on_snapshot (ppf : Q -> pyfloat) (j : job) :
  (forall resp token st st' percentiles gco2s,
      get_region_percentiles
        (fun region => WattTime_get_current (resp region)) token st
      = (Ok percentiles, st') ->
      percentile_to_gco2 ppf percentiles = Ok gco2s ->
      map m_region (gco2_to_moer gco2s) = all_regions)
  /\ (time_sensitive j = true -> location_switch j = true ->
      forall co2_moers,
        map m_region co2_moers = all_regions ->
        Forall (fun c => is_nan (m_co2_moer c) = false) co2_moers ->
        forall provider_regions map_location decide,
          In (provider_regions, map_location, decide)
             [(AZURE_LOCATIONS, map_azure_location,
               azure_schedule_decision ppf);
              (AWS_LOCATIONS, map_aws_location, aws_schedule_decision ppf)] ->
          exists pre r post l,
            co2_moers = pre ++ r :: post
            /\ In (m_region r) (provider_regions ++ SHARED_LOCATIONS)
            /\ (forall c, In c pre ->
                  In (m_region c) (provider_regions ++ SHARED_LOCATIONS) ->
                  flt (m_co2_moer r) (m_co2_moer c) = true)
            /\ (forall c, In c post ->
                  In (m_region c) (provider_regions ++ SHARED_LOCATIONS) ->
                  fle (m_co2_moer r) (m_co2_moer c) = true)
            /\ map_location (m_region r) = Some l
            /\ forall percentiles now,
                 decide j percentiles co2_moers now = Ok (Some l)).
Proof.
  split.
  { intros resp token st st' percentiles gco2s.
    apply pass_metrics_regions. }
  intros T L co2_moers Hreg Hnan provider_regions map_location decide Hin.
  assert (Hp : (provider_regions = AZURE_LOCATIONS
                /\ map_location = map_azure_location
                /\ decide = azure_schedule_decision ppf)
               \/ (provider_regions = AWS_LOCATIONS
                   /\ map_location = map_aws_location
                   /\ decide = aws_schedule_decision ppf)).
  { destruct Hin as [E|[E|[]]]; injection E as <- <- <-; auto. }
  destruct co2_moers as [|first rest]; [discriminate|].
  assert (He : str_in (m_region first) (provider_regions ++ SHARED_LOCATIONS)
               = true).
  { injection Hreg as -> _.
    destruct Hp as [(-> & _)|(-> & _)]; reflexivity. }
  pose proof (Forall_inv Hnan) as Hf.
  pose proof (Forall_inv_tail Hnan) as Hr.
  destruct (@Decide.lowest_fold_first (provider_regions ++ SHARED_LOCATIONS)
              rest Hr [] first [] Hf He)
    as (pre & post & D & Hel & Hpre & Hpost).
  { intros c []. }
  { intros c []. }
  set (r := fold_left (lowest_step (provider_regions ++ SHARED_LOCATIONS))
                      rest first) in *.
  assert (Er : get_lowest_co2_moer (provider_regions ++ SHARED_LOCATIONS)
                 (first :: rest) = Ok r).
  { unfold get_lowest_co2_moer. simpl. f_equal. unfold r. f_equal.
    unfold lowest_step. now rewrite Decide.flt_irrefl. }
  pose proof (str_in_In _ _ Hel) as Hin_r.
  destruct (@Decide.eligible_mapped provider_regions map_location (m_region r))
    as (l & El);
    [destruct Hp as [(-> & -> & _)|(-> & -> & _)]; auto|exact Hin_r|].
  exists pre, r, post, l. split; [exact D|]. split; [exact Hin_r|].
  split; [intros c Hc Hce; apply Hpre; [exact Hc|now apply Decide.In_str_in]|].
  split; [intros c Hc Hce; apply Hpost; [exact Hc|now apply Decide.In_str_in]|].
  split; [exact El|].
  intros percentiles now.
  destruct Hp as [(-> & -> & ->)|(-> & -> & ->)];
    unfold azure_schedule_decision, aws_schedule_decision;
    rewrite decide_case2 by assumption;
    unfold get_lowest_azure_co2_moer, get_lowest_aws_co2_moer;
    rewrite Er; simpl; now rewrite El.
Qed.

Lemma lowest_eligible_on_snapshot_witness :
  exists l,
    aws_schedule_decision ppf_standin urgent_switchable [] tied_metrics 0
    = Ok (Some l).
Proof.
  destruct (proj2 (lowest_eligible_on_snapshot ppf_standin urgent_switchable)
              eq_refl eq_refl tied_metrics eq_refl)
    with (provider_regions := AWS_LOCATIONS)
         (map_location := map_aws_location)
         (decide := aws_schedule_decision ppf_standin)
    as (pre & r & post & l & _ & _ & _ & _ & _ & Hd).
  - repeat constructor.
  - right. now left.
  - exists l. apply Hd.
Defined.

End Selection.

(* ================================================================== *)
(** * A request that is refused *)
(* ================================================================== *)

Module Refused.

Lemma some_not_ok (resp : string -> response) (regions : list string) :
  (exists region, In region regions /\ ok (resp region) = false) ->
  forallb (fun region => ok (resp region)) regions = false.
Proof.
  intros (region & Hin & E).
  destruct (forallb (fun region => ok (resp region)) regions) eqn:F;
    [|reflexivity].
  rewrite forallb_forall in F. rewrite (F region Hin) in E. discriminate.
Qed.

(** A refused request ends the pass at the fetch. *)
Lemma refused_tick (ppf : Q -> pyfloat) (azure_vms aws_vms : list vm)
    (w : world) (st : state) :
  (exists region, In region all_regions /\ ok (carbon w region) = false) ->
  exists st',
    tick ppf azure_vms aws_vms w st = (Raise HTTPError, st')
    /\ only_fetched st st'.
Proof.
  intros Hex. apply some_not_ok in Hex.
  unfold tick. unfold bind at 1. unfold get at 1.
  unfold bind at 1. unfold get_region_percentiles. fold all_regions.
  destruct (Tick.real_fetch (carbon w) (TOKEN st) all_regions [] st)
    as (Hf & Hres).
  destruct (fetch_regions _ _ all_regions [] st) as [r st1].
  cbn [fst snd] in Hf, Hres.
  destruct Hres as [(Hall & _)|(_ & ->)]; [congruence|].
  exists st1. split; [reflexivity|exact Hf].
Qed.

(** C9, where the code misses it.  [get_region_percentiles] has a branch
    for a response that is not ok, which generates a new token and leaves
    the region out; but [WattTime.get_current] raises on such a response,
    so the branch is never taken: the first refused request ends the pass,
    and [main], with [HTTPError].  No region is left out of a snapshot, no
    token is generated and the global token is unchanged; the jobs are
    neither scheduled nor checked. *)
Theorem not_ok_answer_ends_pass :
  (forall ppf azure_vms aws_vms w st,
      (exists region, In region all_regions /\ ok (carbon w region) = false) ->
      let run := tick ppf azure_vms aws_vms w st in
      fst run = Raise HTTPError
      /\ only_fetched st (snd run)
      /\ TOKEN (snd run) = TOKEN st
      /\ count is_generate_token (calls_since st (snd run)) = 0%nat)
  /\ (let run := main ppf_standin [east_vm] [] three_jobs [] 0
                      [quiet_world uk_unauthorized] in
      fst run = Raise HTTPError
      /\ calls (snd run)
         = [generate_token; signal_index 1 "CAISO_NORTH"; signal_index 1 "UK"]
      /\ TOKEN (snd run) = 1%nat
      /\ map job_name (azure_jobs (snd run)) = ["a"; "b"; "c"]).
Proof.
  split; [|repeat split; reflexivity].
  intros ppf azure_vms aws_vms w st Hex. cbv zeta.
  destruct (@refused_tick ppf azure_vms aws_vms w st Hex) as (st' & E & Hf).
  rewrite E. cbn [fst snd].
  split; [reflexivity|]. split; [exact Hf|].
  destruct Hf as (new & -> & Hnew). split; [now destruct st|].
  rewrite (@Fetch.calls_since_app st _ new) by now destruct st.
  now apply Compose.fetches_no_token.
Qed.

End Refused.

(* ================================================================== *)
(** * The empty list of metrics *)
(* ================================================================== *)

Module Reach.

Import Policy.




End Reach.
